(** * n8n observability SDK: telemetry core, tracker and orchestrator

    A shallow embedding of the telemetry pipeline (event model, redaction
    filter, transports, execution tracker, evaluator, hook) followed by the
    properties proved about it.  The first part of the file holds the
    model, one module per source file; the second part holds the proofs.

    Conventions of the embedding:
    - a JavaScript [number] that counts milliseconds, items or points is a
      [Z]; the two places where the source divides ([overageSeconds],
      average node duration) go through [Q] and come back with
      [Math.floor] / [Math.round];
    - [undefined] for an optional field is [None];
    - a JSON-like payload is a [Js.value] tree; an object is the list of
      its own enumerable properties in [Object.entries] order;
    - a method that may throw returns [option] ([None] is the thrown
      [TypeError]); a promise that may reject is an [outcome];
    - [Date.now()], [uuidv4()] and [new Date().toISOString()] are inputs of
      the operations that read them. *)

From Stdlib Require Import ZArith QArith Qround String Ascii List DecimalString DecimalNat.
From stdpp Require Import base option list gmap strings.

Set Warnings "-register-all".
Open Scope Z_scope.

(* ================================================================== *)
(** * Part I: the model                                                *)
(* ================================================================== *)

(** ** JavaScript values and the built-ins the sources rely on *)
Module Js.

Inductive value : Type :=
  | VUndefined
  | VNull
  | VBool (b : bool)
  | VNum (n : Z)
  | VStr (s : string)
  | VArr (items : list value)
  | VObj (props : list (string * value)).

(** [Record<string, unknown>]: own properties, in enumeration order. *)
Abbreviation object := (list (string * value)).

(** [o[k]]: the first (only) property named [k], [undefined] if none. *)
Fixpoint get (o : object) (k : string) : value :=
  match o with
  | [] => VUndefined
  | (k', v) :: o' => if String.eqb k' k then v else get o' k
  end.

(** ToBoolean. *)
Definition truthy (v : value) : bool :=
  match v with
  | VUndefined | VNull => false
  | VBool b => b
  | VNum n => negb (n =? 0)
  | VStr s => negb (String.eqb s "")
  | VArr _ | VObj _ => true
  end.

(** [typeof v === 'object'] for a truthy [v]. *)
Definition is_object (v : value) : bool :=
  match v with
  | VArr _ | VObj _ => true
  | _ => false
  end.

Definition is_scalar (v : value) : bool := negb (is_object v).

(** [String.prototype.toLowerCase] on the ASCII range. *)
Definition lower_ascii (c : ascii) : ascii :=
  let n := nat_of_ascii c in
  if ((65 <=? n) && (n <=? 90))%nat then ascii_of_nat (n + 32) else c.

Fixpoint toLowerCase (s : string) : string :=
  match s with
  | EmptyString => EmptyString
  | String c s' => String (lower_ascii c) (toLowerCase s')
  end.

(** [hay.includes(needle)]. *)
Fixpoint includes (hay needle : string) : bool :=
  String.prefix needle hay ||
  match hay with
  | EmptyString => false
  | String _ hay' => includes hay' needle
  end.

(** [xs.join(sep)] on strings. *)
Fixpoint join (sep : string) (xs : list string) : string :=
  match xs with
  | [] => ""
  | [x] => x
  | x :: xs' => x +:+ sep +:+ join sep xs'
  end.

(** [String(n)] of an array index. *)
Definition index_key (i : nat) : string := NilEmpty.string_of_uint (Nat.to_uint i).

(** Number formatting is left to the platform: [Number::toString] and
    [Number.prototype.toFixed] work on IEEE doubles, which the embedding
    does not model.  Every statement below holds for any formatter. *)
Class NumberFormat := {
  number_toString : Q -> string;
  number_toFixed : Q -> nat -> string
}.

(** Decimal printing of an integer. *)
Definition decimal (n : Z) : string := NilZero.string_of_int (Z.to_int n).

(** A formatter on exact rationals, used to run the model on examples:
    [fixed_exact q d] rounds [q] to [d] decimals (halves up);
    [exact_toString] prints an integer in decimal and any other rational
    rounded to three decimals, trailing zeros dropped. *)
Fixpoint zeros (n : nat) : string :=
  match n with
  | O => ""
  | S n' => "0" +:+ zeros n'
  end.

Fixpoint drop_trailing_zeros (s : string) : string :=
  match s with
  | EmptyString => EmptyString
  | String c s' =>
      let r := drop_trailing_zeros s' in
      if String.eqb r "" && Ascii.eqb c "0" then "" else String c r
  end.

Definition fixed_digits (q : Q) (digits : nat) : string * string * string :=
  let scale := 10 ^ Z.of_nat digits in
  let n := Qfloor (q * inject_Z scale + (1 # 2))%Q in
  let frac := decimal (Z.abs n mod scale) in
  (if n <? 0 then "-" else "", decimal (Z.abs n / scale),
   zeros (digits - String.length frac) +:+ frac).

Definition fixed_exact (q : Q) (digits : nat) : string :=
  let '(sign, int, frac) := fixed_digits q digits in
  sign +:+ int +:+ match digits with O => "" | _ => "." +:+ frac end.

Definition exact_toString (q : Q) : string :=
  let '(sign, int, frac) := fixed_digits q 3 in
  let frac := drop_trailing_zeros frac in
  sign +:+ int +:+ (if String.eqb frac "" then "" else "." +:+ frac).

Definition exact_format : NumberFormat :=
  {| number_toString := exact_toString; number_toFixed := fixed_exact |}.

(** ToString, as a template literal applies it to [${v}]. *)
Fixpoint ToString {fmt : NumberFormat} (v : value) : string :=
  match v with
  | VUndefined => "undefined"
  | VNull => "null"
  | VBool true => "true"
  | VBool false => "false"
  | VNum n => number_toString (inject_Z n)
  | VStr s => s
  | VArr items =>
      join "," (List.map (fun x => match x with
                                   | VUndefined | VNull => ""
                                   | _ => ToString x
                                   end) items)
  | VObj _ => "[object Object]"
  end.

(** [x || y] on optional strings: the empty string is falsy too. *)
Definition or_else (x y : option string) : option string :=
  match x with
  | Some s => if String.eqb s "" then y else x
  | None => y
  end.

(** [{...a, ...b}]: a key of [b] overrides in place, a new key is appended. *)
Fixpoint set (o : object) (k : string) (v : value) : object :=
  match o with
  | [] => [(k, v)]
  | (k', v') :: o' => if String.eqb k' k then (k', v) :: o' else (k', v') :: set o' k v
  end.

Definition spread (a b : object) : object :=
  foldl (fun acc kv => set acc kv.1 kv.2) a b.

End Js.

(** ** events/types.ts *)
Module EventTypes.
Definition WORKFLOW_STARTED := "workflow.started".
Definition WORKFLOW_COMPLETED := "workflow.completed".
Definition WORKFLOW_FAILED := "workflow.failed".
Definition NODE_STARTED := "node.started".
Definition NODE_COMPLETED := "node.completed".
Definition NODE_FAILED := "node.failed".
Definition EVAL_COMPLETED := "eval.completed".
Definition LLM_REQUESTED := "llm.requested".
Definition LLM_RESPONDED := "llm.responded".
Definition TOOL_CALLED := "tool.called".
Definition TOOL_RESPONDED := "tool.responded".
Definition CUSTOM := "custom".
End EventTypes.

Module Events.
Import Js.

Inductive EventStatus := started | completed | failed.

Record NodeContext := {
  node_id : option string;
  node_name : string;
  node_type : string;
  node_index : option Z
}.

(** [TelemetryEventBase]: the fields every member of the union has. *)
Record TelemetryEvent := {
  event_id : string;
  event_type : string;
  timestamp : string;
  run_id : string;
  workflow_id : string;
  workflow_name : option string;
  execution_id : string;
  session_id : option string;
  node_context : option NodeContext;
  duration_ms : option Z;
  status : EventStatus;
  payload : option object;
  metadata : option object
}.

Definition has_type (t : string) (e : TelemetryEvent) : bool :=
  String.eqb (event_type e) t.

Record SlowestNode := { name : string; slowest_duration_ms : Z }.

Record LlmMetrics := {
  total_requests : Z;
  total_tokens : option Z;
  total_latency_ms : option Z
}.

Record EvalMetrics := {
  total_duration_ms : option Z;
  node_count : Z;
  failed_node_count : Z;
  slowest_node : option SlowestNode;
  avg_node_duration_ms : Z;
  llm_metrics : option LlmMetrics
}.

End Events.

(** ** events/factory.ts

    [eid] and [ts] stand for the [uuidv4()] and [new Date().toISOString()]
    that [createBaseEvent] reads. *)
Module Factory.
Import Js Events.

Record ExecutionContext := {
  ctx_execution_id : string;
  ctx_workflow_id : string;
  ctx_workflow_name : option string;
  ctx_run_id : option string;
  ctx_session_id : option string;
  ctx_metadata : option object
}.

Definition opt_str (x : option string) : value :=
  match x with Some s => VStr s | None => VUndefined end.

Definition opt_num (x : option Z) : value :=
  match x with Some n => VNum n | None => VUndefined end.

Definition opt_bool (x : option bool) : value :=
  match x with Some b => VBool b | None => VUndefined end.

Definition createBaseEvent (eid ts : string) (context : ExecutionContext)
    (eventType : string) (st : EventStatus) : TelemetryEvent :=
  {| event_id := eid;
     event_type := eventType;
     timestamp := ts;
     run_id := default (ctx_execution_id context)
                 (or_else (ctx_run_id context) (Some (ctx_execution_id context)));
     workflow_id := ctx_workflow_id context;
     workflow_name := ctx_workflow_name context;
     execution_id := ctx_execution_id context;
     session_id := ctx_session_id context;
     node_context := None;
     duration_ms := None;
     status := st;
     payload := None;
     metadata := ctx_metadata context |}.

(** [{...base, node_context, duration_ms, payload}]. *)
Definition with_fields (base : TelemetryEvent) (nc : option NodeContext)
    (d : option Z) (p : object) : TelemetryEvent :=
  {| event_id := event_id base;
     event_type := event_type base;
     timestamp := timestamp base;
     run_id := run_id base;
     workflow_id := workflow_id base;
     workflow_name := workflow_name base;
     execution_id := execution_id base;
     session_id := session_id base;
     node_context := nc;
     duration_ms := d;
     status := status base;
     payload := Some p;
     metadata := metadata base |}.

Definition createWorkflowStartedEvent (eid ts : string) (context : ExecutionContext)
    (mode retry_of : option string) (is_manual : option bool) : TelemetryEvent :=
  with_fields (createBaseEvent eid ts context EventTypes.WORKFLOW_STARTED started)
    None None
    [("mode", opt_str mode); ("retry_of", opt_str retry_of);
     ("is_manual", opt_bool is_manual)].

Definition createWorkflowCompletedEvent (eid ts : string) (context : ExecutionContext)
    (durationMs nodeCount : Z) (mode : option string) : TelemetryEvent :=
  with_fields (createBaseEvent eid ts context EventTypes.WORKFLOW_COMPLETED completed)
    None (Some durationMs)
    [("node_count", VNum nodeCount); ("mode", opt_str mode)].

Definition createWorkflowFailedEvent (eid ts : string) (context : ExecutionContext)
    (durationMs : Z) (message : string) (node type stack : option string)
  : TelemetryEvent :=
  with_fields (createBaseEvent eid ts context EventTypes.WORKFLOW_FAILED failed)
    None (Some durationMs)
    [("error_message", VStr message); ("error_node", opt_str node);
     ("error_type", opt_str type); ("stack_trace", opt_str stack)].

Definition createNodeStartedEvent (eid ts : string) (context : ExecutionContext)
    (nodeContext : NodeContext) (inputItemsCount : option Z) : TelemetryEvent :=
  with_fields (createBaseEvent eid ts context EventTypes.NODE_STARTED started)
    (Some nodeContext) None
    [("input_items_count", opt_num inputItemsCount)].

Definition createNodeCompletedEvent (eid ts : string) (context : ExecutionContext)
    (nodeContext : NodeContext) (durationMs : Z) (outputItemsCount : option Z)
  : TelemetryEvent :=
  with_fields (createBaseEvent eid ts context EventTypes.NODE_COMPLETED completed)
    (Some nodeContext) (Some durationMs)
    [("output_items_count", opt_num outputItemsCount)].

Definition createNodeFailedEvent (eid ts : string) (context : ExecutionContext)
    (nodeContext : NodeContext) (durationMs : Z) (message : string)
    (type : option string) : TelemetryEvent :=
  with_fields (createBaseEvent eid ts context EventTypes.NODE_FAILED failed)
    (Some nodeContext) (Some durationMs)
    [("error_message", VStr message); ("error_type", opt_str type)].

Definition createLLMRequestedEvent (eid ts : string) (context : ExecutionContext)
    (nodeContext : NodeContext) (provider model : option string)
    (prompt_tokens : option Z) : TelemetryEvent :=
  with_fields (createBaseEvent eid ts context EventTypes.LLM_REQUESTED started)
    (Some nodeContext) None
    [("provider", opt_str provider); ("model", opt_str model);
     ("prompt_tokens", opt_num prompt_tokens)].

Definition createLLMRespondedEvent (eid ts : string) (context : ExecutionContext)
    (nodeContext : NodeContext) (durationMs : Z) (provider model : option string)
    (completion_tokens total_tokens : option Z) : TelemetryEvent :=
  with_fields (createBaseEvent eid ts context EventTypes.LLM_RESPONDED completed)
    (Some nodeContext) (Some durationMs)
    [("provider", opt_str provider); ("model", opt_str model);
     ("completion_tokens", opt_num completion_tokens);
     ("total_tokens", opt_num total_tokens)].

Definition createCustomEvent (eid ts : string) (context : ExecutionContext)
    (name : string) (data : option object) (nodeContext : option NodeContext)
  : TelemetryEvent :=
  with_fields (createBaseEvent eid ts context EventTypes.CUSTOM completed)
    nodeContext None
    [("name", VStr name);
     ("data", match data with Some o => VObj o | None => VUndefined end)].

Definition slowest_value (x : option SlowestNode) : value :=
  match x with
  | Some s => VObj [("name", VStr (name s)); ("duration_ms", VNum (slowest_duration_ms s))]
  | None => VUndefined
  end.

Definition llm_value (m : LlmMetrics) : value :=
  VObj [("total_requests", VNum (total_requests m));
        ("total_tokens", opt_num (total_tokens m));
        ("total_latency_ms", opt_num (total_latency_ms m))].

Definition metrics_value (m : EvalMetrics) : value :=
  VObj ([("total_duration_ms", opt_num (total_duration_ms m));
         ("node_count", VNum (node_count m));
         ("failed_node_count", VNum (failed_node_count m));
         ("slowest_node", slowest_value (slowest_node m));
         ("avg_node_duration_ms", VNum (avg_node_duration_ms m))]
        ++ match llm_metrics m with
           | Some l => [("llm_metrics", llm_value l)]
           | None => []
           end).

Definition createEvalCompletedEvent (eid ts : string) (context : ExecutionContext)
    (score : Z) (labels reasons : list string) (metrics : EvalMetrics)
  : TelemetryEvent :=
  with_fields (createBaseEvent eid ts context EventTypes.EVAL_COMPLETED completed)
    None None
    [("score", VNum score);
     ("labels", VArr (List.map VStr labels));
     ("reasons", VArr (List.map VStr reasons));
     ("metrics", metrics_value metrics)].

End Factory.


(** ** transport/base.ts: redaction *)
Module Redaction.
Import Js.

Definition DEFAULT_REDACT_FIELDS : list string :=
  ["password"; "secret"; "token"; "api_key"; "apiKey"; "authorization"; "auth";
   "credentials"; "private_key"; "privateKey"].

Definition REDACTED : string := "[REDACTED]".

(** [fields.some(f => key.toLowerCase().includes(f.toLowerCase()))]. *)
Definition shouldRedact (fields : list string) (key : string) : bool :=
  existsb (fun f => includes (toLowerCase key) (toLowerCase f)) fields.

(** [Object.entries] of an array: its elements under their index keys. *)
Fixpoint index_entries (i : nat) (items : list value) : object :=
  match items with
  | [] => []
  | x :: items' => (index_key i, x) :: index_entries (S i) items'
  end.

(** [redactSensitiveData(obj, fields)] on a value tree: the object it
    returns.  The function is entered with a record, and, from the array
    branch, with any element that is an object, arrays included; an array
    is then read through [Object.entries] like any other object. *)
Fixpoint redactSensitiveData (fields : list string) (obj : value) {struct obj} : value :=
  let entry (key : string) (v : value) : value :=
    if shouldRedact fields key then VStr REDACTED
    else match v with
         | VObj _ => redactSensitiveData fields v
         | VArr items =>
             VArr (List.map (fun item => if is_object item
                                         then redactSensitiveData fields item
                                         else item) items)
         | _ => v
         end in
  match obj with
  | VObj props => VObj (List.map (fun kv => (kv.1, entry kv.1 kv.2)) props)
  | VArr items =>
      VObj ((fix go (i : nat) (xs : list value) : object :=
               match xs with
               | [] => []
               | x :: xs' => (index_key i, entry (index_key i) x) :: go (S i) xs'
               end) 0%nat items)
  | _ => VObj []
  end.

(** The pieces of [redactSensitiveData], by name: the callback of
    [value.map], the value a key is given, and [Object.entries]. *)
Definition redact_item (fields : list string) (item : value) : value :=
  if is_object item then redactSensitiveData fields item else item.

Definition redact_entry (fields : list string) (key : string) (v : value) : value :=
  if shouldRedact fields key then VStr REDACTED
  else match v with
       | VObj _ => redactSensitiveData fields v
       | VArr items => VArr (List.map (redact_item fields) items)
       | _ => v
       end.

Definition entries (v : value) : object :=
  match v with
  | VObj props => props
  | VArr items => index_entries 0 items
  | _ => []
  end.

(** [v[k]]: a property of an object, an element of an array under its
    index key. *)
Fixpoint lookup_key (o : object) (k : string) : option value :=
  match o with
  | [] => None
  | (k', v) :: o' => if String.eqb k' k then Some v else lookup_key o' k
  end.

Definition property (v : value) (k : string) : option value :=
  lookup_key (entries v) k.

(** [v[k1][k2]...]. *)
Fixpoint at_path (v : value) (path : list string) : option value :=
  match path with
  | [] => Some v
  | k :: path' => x ← property v k; at_path x path'
  end.

Definition is_marker (v : value) : bool :=
  match v with
  | VStr s => String.eqb s REDACTED
  | _ => false
  end.

(** Every key of [v] that matches a field, at any depth, holds the marker. *)
Fixpoint all_redacted (fields : list string) (v : value) : bool :=
  match v with
  | VObj props =>
      forallb (fun kv => (if shouldRedact fields kv.1 then is_marker kv.2 else true)
                         && all_redacted fields kv.2) props
  | VArr items => forallb (all_redacted fields) items
  | _ => true
  end.

(** The call on a record, as [prepareEvent] makes it. *)
Definition redact_object (fields : list string) (o : object) : object :=
  match redactSensitiveData fields (VObj o) with
  | VObj props => props
  | _ => []
  end.

End Redaction.

(** ** The object store, and [redactSensitiveData] on it

    JavaScript objects and arrays are mutable and passed by reference.  To
    say what [redactSensitiveData] does to the store, the function is also
    modelled over a heap of cells: a reference value is a primitive or the
    address of a cell, [{}] and [Array.prototype.map] allocate a cell, and
    [result[key] = v] updates one.  [fuel] bounds the depth of the
    recursion (the source recurses without a bound and does not return on a
    cyclic input). *)
Module Store.
Import Js Redaction.

Abbreviation addr := nat.

Inductive ref_value : Type :=
  | RUndefined
  | RNull
  | RBool (b : bool)
  | RNum (n : Z)
  | RStr (s : string)
  | RRef (a : addr).

Inductive cell : Type :=
  | CObj (props : list (string * ref_value))
  | CArr (items : list ref_value).

Abbreviation heap := (gmap addr cell).

(** A new cell, at an address the heap does not use. *)
Definition alloc (c : cell) (h : heap) : addr * heap :=
  let a := fresh (dom h) in (a, <[a := c]> h).

(** [Object.entries(obj)]. *)
Fixpoint index_entries (i : nat) (items : list ref_value) : list (string * ref_value) :=
  match items with
  | [] => []
  | x :: items' => (index_key i, x) :: index_entries (S i) items'
  end.

Definition entries (c : cell) : list (string * ref_value) :=
  match c with
  | CObj props => props
  | CArr items => index_entries 0 items
  end.

(** [props[key] = v]: in place for a key the object has, appended otherwise. *)
Fixpoint set (props : list (string * ref_value)) (key : string) (v : ref_value)
  : list (string * ref_value) :=
  match props with
  | [] => [(key, v)]
  | (k, x) :: props' =>
      if String.eqb k key then (k, v) :: props' else (k, x) :: set props' key v
  end.

(** [result[key] = v], for the object at [result]. *)
Definition set_prop (h : heap) (result : addr) (key : string) (v : ref_value) : heap :=
  match h !! result with
  | Some (CObj props) => <[result := CObj (set props key v)]> h
  | _ => h
  end.

(** The next element of the array [Array.prototype.map] is filling. *)
Definition push (h : heap) (arr : addr) (v : ref_value) : heap :=
  match h !! arr with
  | Some (CArr items) => <[arr := CArr (items ++ [v])]> h
  | _ => h
  end.

Section Redact.
Variable fields : list string.
(** The recursive call, one level down. *)
Variable recur : heap -> addr -> option (heap * addr).

(** The callback of [value.map]:
    [item && typeof item === 'object' ? redactSensitiveData(item) : item]. *)
Definition redact_item (h : heap) (item : ref_value) : option (heap * ref_value) :=
  match item with
  | RRef a => '(h', r) ← recur h a; Some (h', RRef r)
  | _ => Some (h, item)
  end.

Fixpoint map_items (arr : addr) (items : list ref_value) (h : heap) : option heap :=
  match items with
  | [] => Some h
  | item :: items' =>
      '(h', v) ← redact_item h item;
      map_items arr items' (push h' arr v)
  end.

(** The body of the loop over [Object.entries(obj)]. *)
Definition redact_entry (result : addr) (h : heap) (kv : string * ref_value)
  : option heap :=
  let '(key, value) := kv in
  if shouldRedact fields key then Some (set_prop h result key (RStr REDACTED))
  else
    match value with
    | RRef a =>
        match h !! a with
        | Some (CObj _) =>
            '(h', r) ← recur h a;
            Some (set_prop h' result key (RRef r))
        | Some (CArr items) =>
            let '(arr, h1) := alloc (CArr []) h in
            h2 ← map_items arr items h1;
            Some (set_prop h2 result key (RRef arr))
        | None => None
        end
    | _ => Some (set_prop h result key value)
    end.

Fixpoint for_entries (result : addr) (es : list (string * ref_value)) (h : heap)
  : option heap :=
  match es with
  | [] => Some h
  | kv :: es' => h' ← redact_entry result h kv; for_entries result es' h'
  end.

End Redact.

(** [redactSensitiveData(obj, fields)] for the object at [obj]: the heap it
    leaves and the address of the object it returns. *)
Fixpoint redactSensitiveData (fuel : nat) (fields : list string) (h : heap) (obj : addr)
  : option (heap * addr) :=
  match fuel with
  | O => None
  | S fuel' =>
      c ← h !! obj;
      let '(result, h0) := alloc (CObj []) h in
      h' ← for_entries fields (redactSensitiveData fuel' fields) result (entries c) h0;
      Some (h', result)
  end.

(** The tree a reference value stands for in a heap, read through the
    cells at the addresses [S] only.  The keys of an object are distinct,
    and none is ["__proto__"] (an assignment to that key does not define a
    property). *)
Definition plain_keys (props : list (string * ref_value)) : Prop :=
  NoDup (List.map fst props) /\ ~ In "__proto__" (List.map fst props).

Inductive repr (S : gset addr) (h : heap) : ref_value -> value -> Prop :=
  | repr_undefined : repr S h RUndefined VUndefined
  | repr_null : repr S h RNull VNull
  | repr_bool b : repr S h (RBool b) (VBool b)
  | repr_num n : repr S h (RNum n) (VNum n)
  | repr_str s : repr S h (RStr s) (VStr s)
  | repr_obj a props tprops :
      a ∈ S ->
      h !! a = Some (CObj props) ->
      plain_keys props ->
      Forall2 (fun kv tkv => kv.1 = tkv.1 /\ repr S h kv.2 tkv.2) props tprops ->
      repr S h (RRef a) (VObj tprops)
  | repr_arr a items titems :
      a ∈ S ->
      h !! a = Some (CArr items) ->
      Forall2 (repr S h) items titems ->
      repr S h (RRef a) (VArr titems).

(** Nesting depth of a tree. *)
Fixpoint depth (v : value) : nat :=
  match v with
  | VObj props => S (list_max (List.map (fun kv => depth kv.2) props))
  | VArr items => S (list_max (List.map depth items))
  | _ => O
  end.

End Store.

(** ** Promises

    A promise settles to an [outcome]; an [async] method over a state [S]
    is a [Task]: it may change the state before it settles, and an [await]
    on a rejected promise rejects the caller at that point ([bind]). *)
Module Async.

Inductive outcome (A : Type) : Type :=
  | Resolved (a : A)
  | Rejected (reason : string).
Arguments Resolved {A} a.
Arguments Rejected {A} reason.

Definition Task (S A : Type) : Type := S -> S * outcome A.

Definition resolve {S A : Type} (a : A) : Task S A := fun st => (st, Resolved a).
Definition reject {S A : Type} (reason : string) : Task S A := fun st => (st, Rejected reason).

Definition bind {S A B : Type} (m : Task S A) (k : A -> Task S B) : Task S B :=
  fun st =>
    match m st with
    | (st', Resolved a) => k a st'
    | (st', Rejected reason) => (st', Rejected reason)
    end.

(** [await m; k]. *)
Definition and_then {S A B : Type} (m : Task S A) (k : Task S B) : Task S B :=
  bind m (fun _ => k).

Declare Scope task_scope.
Delimit Scope task_scope with task.
Notation "m >> k" := (and_then m k) (at level 62, right associativity) : task_scope.

(** [p.catch(handler)] with a handler that returns normally. *)
Definition catch {A : Type} (r : outcome A) (handler : string -> A) : outcome A :=
  match r with
  | Resolved a => Resolved a
  | Rejected reason => Resolved (handler reason)
  end.

(** [Promise.all]: resolves with every value when every promise resolves,
    rejects with the first rejection otherwise. *)
Fixpoint all {A : Type} (rs : list (outcome A)) : outcome (list A) :=
  match rs with
  | [] => Resolved []
  | Resolved a :: rs' =>
      match all rs' with
      | Resolved l => Resolved (a :: l)
      | Rejected reason => Rejected reason
      end
  | Rejected reason :: _ => Rejected reason
  end.

End Async.

(** ** transport/base.ts: the [Transport] interface *)
Module TransportInterface.
Import Events Async.

(** The methods of the interface the callers in this file use, over the
    state [T] of an implementation. *)
Class Transport (T : Type) := {
  name : T -> string;
  send : TelemetryEvent -> Task T unit;
  sendBatch : list TelemetryEvent -> Task T unit;
  flush : Task T unit;
  close : Task T unit
}.

(** The two query methods of the interface. *)
Class Queryable (T : Type) := {
  queryByExecution : string -> Task T (list TelemetryEvent);
  queryByWorkflow : string -> Task T (list TelemetryEvent)
}.

End TransportInterface.


(** ** transport/base.ts: [BaseTransport] *)
Module BaseTransport.
Import Js Events Async TransportInterface Redaction.

(** A key of a configuration literal: absent, or present with a value that
    may be [undefined].  A spread copies the keys that are present. *)
Inductive property (A : Type) : Type :=
  | Absent
  | Present (v : option A).
Arguments Absent {A}.
Arguments Present {A} v.

(** [config.key]. *)
Definition read {A : Type} (p : property A) : option A :=
  match p with
  | Absent => None
  | Present v => v
  end.

(** The key in [{...a, ...b}]. *)
Definition over {A : Type} (a b : property A) : property A :=
  match b with
  | Absent => a
  | Present _ => b
  end.

Record TransportConfig := {
  buffered : property bool;
  bufferSize : property Z;
  flushIntervalMs : property Z;
  redactPayloads : property bool;
  redactFields : property (list string)
}.

Definition spread_config (a b : TransportConfig) : TransportConfig :=
  {| buffered := over (buffered a) (buffered b);
     bufferSize := over (bufferSize a) (bufferSize b);
     flushIntervalMs := over (flushIntervalMs a) (flushIntervalMs b);
     redactPayloads := over (redactPayloads a) (redactPayloads b);
     redactFields := over (redactFields a) (redactFields b) |}.

(** [{}]. *)
Definition no_config : TransportConfig :=
  {| buffered := Absent; bufferSize := Absent; flushIntervalMs := Absent;
     redactPayloads := Absent; redactFields := Absent |}.

(** The defaults the constructor spreads the caller's config over. *)
Definition defaults : TransportConfig :=
  {| buffered := Present (Some false);
     bufferSize := Present (Some 100);
     flushIntervalMs := Present (Some 5000);
     redactPayloads := Present (Some true);
     redactFields := Present (Some DEFAULT_REDACT_FIELDS) |}.

(** The abstract methods a concrete transport supplies, over its state [D]. *)
Class Destination (D : Type) := {
  dest_name : string;
  doSend : TelemetryEvent -> Task D unit;
  doSendBatch : list TelemetryEvent -> Task D unit;
  doClose : Task D unit
}.

(** The fields of a [BaseTransport], the destination's own state [dest],
    and [timers], the intervals the runtime currently has scheduled. *)
Record State (D : Type) := {
  config : TransportConfig;
  buffer : list TelemetryEvent;
  flushTimer : option nat;
  timers : gset nat;
  dest : D
}.
Arguments config {D} _.
Arguments buffer {D} _.
Arguments flushTimer {D} _.
Arguments timers {D} _.
Arguments dest {D} _.

Definition is_buffered (c : TransportConfig) : bool :=
  match read (buffered c) with Some b => b | None => false end.

Definition has_interval (c : TransportConfig) : bool :=
  match read (flushIntervalMs c) with Some n => negb (n =? 0) | None => false end.

(** [this.config.bufferSize || 100]. *)
Definition threshold (c : TransportConfig) : Z :=
  match read (bufferSize c) with
  | Some n => if n =? 0 then 100 else n
  | None => 100
  end.

Section Base.
Context {D : Type} {destination_D : Destination D}.

(** [constructor(config)], in a runtime whose scheduled intervals are
    [timers0], over a destination in state [d]. *)
Definition constructor (cfg : TransportConfig) (timers0 : gset nat) (d : D) : State D :=
  let cfg := spread_config defaults cfg in
  if is_buffered cfg && has_interval cfg then
    let id := fresh timers0 in
    {| config := cfg; buffer := []; flushTimer := Some id;
       timers := {[id]} ∪ timers0; dest := d |}
  else
    {| config := cfg; buffer := []; flushTimer := None; timers := timers0; dest := d |}.

Definition set_buffer (b : list TelemetryEvent) (st : State D) : State D :=
  {| config := config st; buffer := b; flushTimer := flushTimer st;
     timers := timers st; dest := dest st |}.

Definition clearInterval (id : nat) (st : State D) : State D :=
  {| config := config st; buffer := buffer st; flushTimer := flushTimer st;
     timers := timers st ∖ {[id]}; dest := dest st |}.

(** A call of an abstract method. *)
Definition on_dest {A : Type} (m : Task D A) : Task (State D) A :=
  fun st =>
    let '(d', r) := m (dest st) in
    ({| config := config st; buffer := buffer st; flushTimer := flushTimer st;
        timers := timers st; dest := d' |}, r).

Definition prepareEvent (c : TransportConfig) (event : TelemetryEvent) : TelemetryEvent :=
  match read (redactPayloads c) with
  | Some true =>
      let fields := default DEFAULT_REDACT_FIELDS (read (redactFields c)) in
      {| event_id := event_id event;
         event_type := event_type event;
         timestamp := timestamp event;
         run_id := run_id event;
         workflow_id := workflow_id event;
         workflow_name := workflow_name event;
         execution_id := execution_id event;
         session_id := session_id event;
         node_context := node_context event;
         duration_ms := duration_ms event;
         status := status event;
         payload := redact_object fields <$> payload event;
         metadata := redact_object fields <$> metadata event |}
  | _ => event
  end.

Definition flush : Task (State D) unit :=
  fun st =>
    match buffer st with
    | [] => (st, Resolved ())
    | toFlush => on_dest (doSendBatch toFlush) (set_buffer [] st)
    end.

Definition flush_if_full : Task (State D) unit :=
  fun st =>
    if threshold (config st) <=? Z.of_nat (length (buffer st))
    then flush st
    else (st, Resolved ()).

Definition send (event : TelemetryEvent) : Task (State D) unit :=
  fun st =>
    let prepared := prepareEvent (config st) event in
    if is_buffered (config st)
    then flush_if_full (set_buffer (buffer st ++ [prepared]) st)
    else on_dest (doSend prepared) st.

Definition sendBatch (events : list TelemetryEvent) : Task (State D) unit :=
  fun st =>
    let prepared := List.map (prepareEvent (config st)) events in
    if is_buffered (config st)
    then flush_if_full (set_buffer (buffer st ++ prepared) st)
    else on_dest (doSendBatch prepared) st.

Definition close : Task (State D) unit :=
  fun st =>
    let st := match flushTimer st with
              | Some id => clearInterval id st
              | None => st
              end in
    (flush >> on_dest doClose)%task st.

#[global] Instance base_transport : Transport (State D) :=
  {| TransportInterface.name := fun _ => dest_name;
     TransportInterface.send := send;
     TransportInterface.sendBatch := sendBatch;
     TransportInterface.flush := flush;
     TransportInterface.close := close |}.

End Base.
End BaseTransport.

(** ** transport/file.ts: [FileTransport] *)
Module FileTransport.
Import Js Events Async BaseTransport.

(** File contents and lines are sequences of characters. *)
Abbreviation text := (list ascii).

Definition newline : ascii := ascii_of_nat 10.

(** [JSON.stringify] and [JSON.parse] on events ([None]: [parse] throws). *)
Class JsonCodec := {
  stringify : TelemetryEvent -> text;
  parse : text -> option TelemetryEvent
}.

(** White space as [String.prototype.trim] sees it, on the ASCII range. *)
Definition is_space (c : ascii) : bool :=
  let n := nat_of_ascii c in
  ((9 <=? n) && (n <=? 13) || (n =? 32))%nat.

Fixpoint trimStart (s : text) : text :=
  match s with
  | [] => []
  | c :: s' => if is_space c then trimStart s' else s
  end.

Definition trim (s : text) : text := rev (trimStart (rev (trimStart s))).

(** [s.split('\n')]. *)
Fixpoint split (s : text) : list text :=
  match s with
  | [] => [[]]
  | c :: s' =>
      match split s' with
      | [] => [[c]]
      | l :: ls => if Ascii.eqb c newline then [] :: l :: ls else (c :: l) :: ls
      end
  end.

(** [lines.join('\n')]. *)
Fixpoint join_lines (ls : list text) : text :=
  match ls with
  | [] => []
  | [l] => l
  | l :: ls' => l ++ newline :: join_lines ls'
  end.

(** [line => line.trim()], as a filter. *)
Definition not_blank (l : text) : bool :=
  match trim l with
  | [] => false
  | _ => true
  end.

(** The file at [filePath] ([None]: it does not exist), whether the file
    system accepts writes to it, and the in-memory index. *)
Record FileState := {
  filePath : string;
  file : option text;
  writable : bool;
  inMemoryStore : list TelemetryEvent
}.

Section File.
Context {codec : JsonCodec}.

(** The lines of a file's content, parsed; malformed lines are skipped. *)
Definition parse_lines (content : text) : list TelemetryEvent :=
  omap parse (List.filter not_blank (split (trim content))).

(** [fs.promises.appendFile(path, data)]. *)
Definition appendFile (data : text) : Task FileState unit :=
  fun fs =>
    if writable fs
    then ({| filePath := filePath fs;
             file := Some (default [] (file fs) ++ data);
             writable := writable fs;
             inMemoryStore := inMemoryStore fs |}, Resolved ())
    else (fs, Rejected "EACCES").

(** The lock is per path and cooperative: in a run where each call
    settles before the next starts it is free at [acquire] and released in
    the [finally], so both branches reduce to the append. *)
Definition appendToFile (events : list TelemetryEvent) : Task FileState unit :=
  let lines := join_lines (List.map stringify events) ++ [newline] in
  appendFile lines.

Definition store (events : list TelemetryEvent) : Task FileState unit :=
  fun fs =>
    ({| filePath := filePath fs; file := file fs; writable := writable fs;
        inMemoryStore := inMemoryStore fs ++ events |}, Resolved ()).

Definition doSend (event : TelemetryEvent) : Task FileState unit :=
  (appendToFile [event] >> store [event])%task.

Definition doSendBatch (events : list TelemetryEvent) : Task FileState unit :=
  (appendToFile events >> store events)%task.

Definition doClose : Task FileState unit := resolve ().

Definition readFromFile (fs : FileState) : list TelemetryEvent :=
  match file fs with
  | None => []
  | Some content => parse_lines content
  end.

Definition queryByExecution (executionId : string) (fs : FileState) : list TelemetryEvent :=
  List.filter (fun e => String.eqb (execution_id e) executionId) (inMemoryStore fs).

Definition queryByWorkflow (workflowId : string) (fs : FileState) : list TelemetryEvent :=
  List.filter (fun e => String.eqb (workflow_id e) workflowId) (inMemoryStore fs).

(** JSON text of an object, as [JSON.stringify] prints it: one line that
    neither starts nor ends with white space. *)
Definition json_line (l : text) : bool :=
  forallb (fun c => negb (Ascii.eqb c newline)) l
  && match l with [] => false | c :: _ => negb (is_space c) end
  && match rev l with [] => false | c :: _ => negb (is_space c) end.

(** A well-formed event: [JSON.stringify] prints it on one line and
    [JSON.parse] reads the event back from that line. *)
Definition well_formed (e : TelemetryEvent) : Prop :=
  json_line (stringify e) = true /\ parse (stringify e) = Some e.

(** The two ways the base class writes to the destination. *)
Inductive write : Type :=
  | Send (event : TelemetryEvent)
  | SendBatch (events : list TelemetryEvent).

Definition events_of (w : write) : list TelemetryEvent :=
  match w with
  | Send event => [event]
  | SendBatch events => events
  end.

Definition run_write (w : write) (fs : FileState) : FileState :=
  match w with
  | Send event => (doSend event fs).1
  | SendBatch events => (doSendBatch events fs).1
  end.

(** The destination state the constructor builds for [path]: it loads the
    events of an existing file into the index. *)
Definition open_file (path : string) (existing : option text) (can_write : bool)
  : FileState :=
  {| filePath := path; file := existing; writable := can_write;
     inMemoryStore := match existing with
                      | Some content => parse_lines content
                      | None => []
                      end |}.

#[global] Instance file_destination : Destination FileState :=
  {| dest_name := "file";
     BaseTransport.doSend := doSend;
     BaseTransport.doSendBatch := doSendBatch;
     BaseTransport.doClose := doClose |}.

(** [new FileTransport(config)]. *)
Definition constructor (cfg : TransportConfig) (path : string)
    (existing : option text) (can_write : bool) (timers0 : gset nat)
  : State FileState :=
  BaseTransport.constructor cfg timers0 (open_file path existing can_write).

End File.

#[global] Instance file_queries : TransportInterface.Queryable (State FileState) :=
  {| TransportInterface.queryByExecution :=
       fun executionId st => (st, Resolved (queryByExecution executionId (dest st)));
     TransportInterface.queryByWorkflow :=
       fun workflowId st => (st, Resolved (queryByWorkflow workflowId (dest st))) |}.

(** [queryAll]: a copy of the index. *)
Definition queryAll (fs : FileState) : list TelemetryEvent := inMemoryStore fs.

(** [fs.promises.writeFile(path, data)]. *)
Definition writeFile (data : text) : Task FileState unit :=
  fun fs =>
    if writable fs
    then ({| filePath := filePath fs; file := Some data; writable := writable fs;
             inMemoryStore := inMemoryStore fs |}, Resolved ())
    else (fs, Rejected "EACCES").

(** [clear]: the index is emptied first, then the file, if there is one,
    is truncated. *)
Definition clear : Task FileState unit :=
  fun fs =>
    let fs := {| filePath := filePath fs; file := file fs; writable := writable fs;
                 inMemoryStore := [] |} in
    match file fs with
    | Some _ => writeFile [] fs
    | None => (fs, Resolved ())
    end.

End FileTransport.

(** ** transport/http.ts: [HttpTransport], the configuration it passes on *)
Module HttpTransport.
Import BaseTransport.

(** [x ?? d]. *)
Definition nullish {A : Type} (x : option A) (d : A) : A := default d x.

(** The argument of [super(...)]:
    [{...config, buffered: config.buffered ?? true,
      bufferSize: config.bufferSize ?? 50}]. *)
Definition super_config (cfg : TransportConfig) : TransportConfig :=
  spread_config cfg
    {| buffered := Present (Some (nullish (read (buffered cfg)) true));
       bufferSize := Present (Some (nullish (read (bufferSize cfg)) 50));
       flushIntervalMs := Absent;
       redactPayloads := Absent;
       redactFields := Absent |}.

(** [this.config] of a new [HttpTransport]. *)
Definition constructor_config (cfg : TransportConfig) : TransportConfig :=
  spread_config defaults (super_config cfg).

(** [HttpTransportConfig]: the base keys and the transport's own. *)
Record HttpTransportConfig := {
  base : TransportConfig;
  endpoint : string;
  headers : option (list (string * string));
  timeoutMs : option Z;
  retries : option Z;
  retryDelayMs : option Z
}.

(** The network the requests go to, over its state [N]: [makeRequest]
    settles once the response has ended, an error was raised or the
    request timed out.  [stringify_batch events] is
    [JSON.stringify({ events })]. *)
Class Network (N : Type) := {
  stringify_batch : list Events.TelemetryEvent -> list ascii;
  makeRequest : list ascii -> Async.Task N unit
}.

(** The fields of an [HttpTransport]; [eventCache] is a [Map], kept in
    insertion order of its keys.  [slept] lists the delays the transport
    has waited for, [console] what it wrote to [console.error]. *)
Record HttpState (N : Type) := {
  http_endpoint : string;
  http_headers : list (string * string);
  http_timeoutMs : Z;
  http_retries : Z;
  http_retryDelayMs : Z;
  eventCache : list (string * list Events.TelemetryEvent);
  net : N;
  slept : list Z;
  console : list string
}.
Arguments http_endpoint {N} _.
Arguments http_headers {N} _.
Arguments http_timeoutMs {N} _.
Arguments http_retries {N} _.
Arguments http_retryDelayMs {N} _.
Arguments eventCache {N} _.
Arguments net {N} _.
Arguments slept {N} _.
Arguments console {N} _.

(** [{ 'Content-Type': 'application/json', ...config.headers }]. *)
Fixpoint set_header (hs : list (string * string)) (k v : string)
  : list (string * string) :=
  match hs with
  | [] => [(k, v)]
  | (k', v') :: hs' =>
      if String.eqb k' k then (k', v) :: hs' else (k', v') :: set_header hs' k v
  end.

(** [map.get(key) || []], then [push], then [map.set(key, ...)]: a new key
    goes to the end, a known key keeps its place. *)
Fixpoint cache_push (cache : list (string * list Events.TelemetryEvent))
    (key : string) (event : Events.TelemetryEvent)
  : list (string * list Events.TelemetryEvent) :=
  match cache with
  | [] => [(key, [event])]
  | (k, events) :: cache' =>
      if String.eqb k key then (k, events ++ [event]) :: cache'
      else (k, events) :: cache_push cache' key event
  end.

(** [map.get(key)]. *)
Fixpoint cache_get (cache : list (string * list Events.TelemetryEvent)) (key : string)
  : option (list Events.TelemetryEvent) :=
  match cache with
  | [] => None
  | (k, events) :: cache' => if String.eqb k key then Some events else cache_get cache' key
  end.

Section Http.
Import Events Async.
Context {N : Type} {network_N : Network N}.

(** The private fields a new [HttpTransport] gets from its config, over a
    network in state [n]. *)
Definition open_http (cfg : HttpTransportConfig) (n : N) : HttpState N :=
  {| http_endpoint := endpoint cfg;
     http_headers := foldl (fun hs kv => set_header hs kv.1 kv.2)
                       [("Content-Type", "application/json")]
                       (default [] (headers cfg));
     http_timeoutMs := nullish (timeoutMs cfg) 10000;
     http_retries := nullish (retries cfg) 3;
     http_retryDelayMs := nullish (retryDelayMs cfg) 1000;
     eventCache := [];
     net := n;
     slept := [];
     console := [] |}.

Definition on_net {A : Type} (m : Task N A) : Task (HttpState N) A :=
  fun st =>
    let '(n', r) := m (net st) in
    ({| http_endpoint := http_endpoint st; http_headers := http_headers st;
        http_timeoutMs := http_timeoutMs st; http_retries := http_retries st;
        http_retryDelayMs := http_retryDelayMs st; eventCache := eventCache st;
        net := n'; slept := slept st; console := console st |}, r).

(** [delay(ms)]. *)
Definition delay (ms : Z) (st : HttpState N) : HttpState N :=
  {| http_endpoint := http_endpoint st; http_headers := http_headers st;
     http_timeoutMs := http_timeoutMs st; http_retries := http_retries st;
     http_retryDelayMs := http_retryDelayMs st; eventCache := eventCache st;
     net := net st; slept := slept st ++ [ms]; console := console st |}.

Definition console_error (line : string) (st : HttpState N) : HttpState N :=
  {| http_endpoint := http_endpoint st; http_headers := http_headers st;
     http_timeoutMs := http_timeoutMs st; http_retries := http_retries st;
     http_retryDelayMs := http_retryDelayMs st; eventCache := eventCache st;
     net := net st; slept := slept st; console := console st ++ [line] |}.

Definition cacheEvent (event : TelemetryEvent) (st : HttpState N) : HttpState N :=
  {| http_endpoint := http_endpoint st; http_headers := http_headers st;
     http_timeoutMs := http_timeoutMs st; http_retries := http_retries st;
     http_retryDelayMs := http_retryDelayMs st;
     eventCache := cache_push (eventCache st) (execution_id event) event;
     net := net st; slept := slept st; console := console st |}.

(** What [lastError] holds when it is thrown and printed: the message of
    the last error, [undefined] when no request was made. *)
Definition thrown (lastError : option string) : string :=
  default "undefined" lastError.

(** The loop of [sendToEndpoint], from iteration [attempt] on, with
    [remaining] iterations to go. *)
Fixpoint attempts (remaining : nat) (attempt : Z) (lastError : option string)
    (body : list ascii) : Task (HttpState N) unit :=
  fun st =>
    match remaining with
    | O =>
        (console_error ("[HttpTransport] Failed to send events after retries: "
                        +:+ thrown lastError) st,
         Rejected (thrown lastError))
    | S remaining' =>
        match on_net (makeRequest body) st with
        | (st, Resolved _) => (st, Resolved ())
        | (st, Rejected error) =>
            let st := if attempt <? http_retries st
                      then delay (http_retryDelayMs st * (attempt + 1)) st
                      else st in
            attempts remaining' (attempt + 1) (Some error) body st
        end
    end.

(** [for (let attempt = 0; attempt <= this.retries; attempt++)] runs
    [retries + 1] times, and not at all when [retries] is negative. *)
Definition sendToEndpoint (events : list TelemetryEvent) : Task (HttpState N) unit :=
  fun st => attempts (Z.to_nat (http_retries st + 1)) 0 None (stringify_batch events) st.

Definition doSend (event : TelemetryEvent) : Task (HttpState N) unit :=
  (sendToEndpoint [event] >> (fun st => (cacheEvent event st, Resolved ())))%task.

Definition doSendBatch (events : list TelemetryEvent) : Task (HttpState N) unit :=
  (sendToEndpoint events >>
   (fun st => (foldl (fun st e => cacheEvent e st) st events, Resolved ())))%task.

Definition doClose : Task (HttpState N) unit := resolve ().

Definition queryByExecution (executionId : string) (st : HttpState N)
  : list TelemetryEvent :=
  default [] (cache_get (eventCache st) executionId).

Definition queryByWorkflow (workflowId : string) (st : HttpState N)
  : list TelemetryEvent :=
  flat_map (fun entry => List.filter (fun e => String.eqb (workflow_id e) workflowId)
                           entry.2)
    (eventCache st).

#[global] Instance http_destination : Destination (HttpState N) :=
  {| dest_name := "http";
     BaseTransport.doSend := doSend;
     BaseTransport.doSendBatch := doSendBatch;
     BaseTransport.doClose := doClose |}.

(** [new HttpTransport(config)]. *)
Definition constructor (cfg : HttpTransportConfig) (timers0 : gset nat) (n : N)
  : State (HttpState N) :=
  BaseTransport.constructor (super_config (base cfg)) timers0 (open_http cfg n).

#[global] Instance http_queries : TransportInterface.Queryable (State (HttpState N)) :=
  {| TransportInterface.queryByExecution :=
       fun executionId st => (st, Resolved (queryByExecution executionId (dest st)));
     TransportInterface.queryByWorkflow :=
       fun workflowId st => (st, Resolved (queryByWorkflow workflowId (dest st))) |}.

End Http.

End HttpTransport.

(** ** transport/multi.ts: [MultiTransport] *)
Module MultiTransport.
Import Events Async TransportInterface.

(** The member transports, and what was written to [console.error]. *)
Record State (T : Type) := {
  transports : list T;
  console : list string
}.
Arguments transports {T} _.
Arguments console {T} _.

Section Multi.
Context {T : Type} {transport_T : Transport T}.

(** [this.transports.map(t => call(t).catch(err => console.error(...)))]
    followed by [await Promise.all(...)]: every member is called, in
    order; a rejection is logged by the member's handler. *)
Definition dispatch (call : Task T unit) (what : string) : Task (State T) unit :=
  fun st =>
    let results := List.map (fun t => (name t, call t)) (transports st) in
    let caught := List.map (fun r => catch (r.2.2) (fun _ => ())) results in
    let logged :=
      flat_map (fun r => match r.2.2 with
                         | Resolved _ => []
                         | Rejected reason =>
                             ["[MultiTransport] " +:+ r.1 +:+ what +:+ reason]
                         end) results in
    ({| transports := List.map (fun r => r.2.1) results;
        console := console st ++ logged |},
     match all caught with
     | Resolved _ => Resolved ()
     | Rejected reason => Rejected reason
     end).

Definition send (event : TelemetryEvent) : Task (State T) unit :=
  dispatch (TransportInterface.send event) " failed: ".

Definition sendBatch (events : list TelemetryEvent) : Task (State T) unit :=
  dispatch (TransportInterface.sendBatch events) " failed: ".

Definition flush : Task (State T) unit :=
  dispatch TransportInterface.flush " flush failed: ".

Definition close : Task (State T) unit :=
  dispatch TransportInterface.close " close failed: ".

#[global] Instance multi_transport : Transport (State T) :=
  {| TransportInterface.name := fun _ => "multi";
     TransportInterface.send := send;
     TransportInterface.sendBatch := sendBatch;
     TransportInterface.flush := flush;
     TransportInterface.close := close |}.

End Multi.

Section Queries.
Context {T : Type} {transport_T : Transport T} {queries_T : Queryable T}.

(** The loop of the two query methods: the members are asked in order,
    each awaited before the next, until one answers with events. *)
Fixpoint first_answer (query : Task T (list TelemetryEvent)) (ts : list T)
  : list T * outcome (list TelemetryEvent) :=
  match ts with
  | [] => ([], Resolved [])
  | t :: ts' =>
      match query t with
      | (t', Resolved []) =>
          let '(ts'', r) := first_answer query ts' in (t' :: ts'', r)
      | (t', Resolved events) => (t' :: ts', Resolved events)
      | (t', Rejected reason) => (t' :: ts', Rejected reason)
      end
  end.

Definition on_members {A : Type} (m : list T -> list T * outcome A) : Task (State T) A :=
  fun st =>
    let '(ts, r) := m (transports st) in
    ({| transports := ts; console := console st |}, r).

Definition queryByExecution (executionId : string) : Task (State T) (list TelemetryEvent) :=
  on_members (first_answer (TransportInterface.queryByExecution executionId)).

Definition queryByWorkflow (workflowId : string) : Task (State T) (list TelemetryEvent) :=
  on_members (first_answer (TransportInterface.queryByWorkflow workflowId)).

Definition addTransport (transport : T) (st : State T) : State T :=
  {| transports := transports st ++ [transport]; console := console st |}.

Definition removeTransport (name : string) (st : State T) : State T :=
  {| transports := List.filter (fun t => negb (String.eqb (TransportInterface.name t) name))
                     (transports st);
     console := console st |}.

Definition getTransports (st : State T) : list T := transports st.

#[global] Instance multi_queries : Queryable (State T) :=
  {| TransportInterface.queryByExecution := queryByExecution;
     TransportInterface.queryByWorkflow := queryByWorkflow |}.

End Queries.
End MultiTransport.

(** ** The calls a host makes on a transport *)
Module TransportApi.
Import Events Async BaseTransport.

Inductive transport_call : Type :=
  | CallSend (event : TelemetryEvent)
  | CallSendBatch (events : list TelemetryEvent)
  | CallFlush.

(** The events a call hands to the transport. *)
Definition handed (c : transport_call) : list TelemetryEvent :=
  match c with
  | CallSend event => [event]
  | CallSendBatch events => events
  | CallFlush => []
  end.

Section Run.
Context {D : Type} {destination_D : Destination D}.

(** The state a call leaves, settled or rejected. *)
Definition run_transport_call (c : transport_call) (st : State D) : State D :=
  match c with
  | CallSend event => (send event st).1
  | CallSendBatch events => (sendBatch events st).1
  | CallFlush => (flush st).1
  end.

Definition run_transport_calls (cs : list transport_call) (st : State D) : State D :=
  foldl (fun st c => run_transport_call c st) st cs.

End Run.

(** A network that answers from a script, one answer for each request, and
    keeps the bodies it receives; once the script is used up it refuses
    the connection. *)
Record scripted := {
  answers : list (outcome unit);
  received : list (list ascii)
}.

Definition scripted_network (encode : list TelemetryEvent -> list ascii)
  : HttpTransport.Network scripted :=
  {| HttpTransport.stringify_batch := encode;
     HttpTransport.makeRequest := fun body n =>
       match answers n with
       | answer :: rest =>
           ({| answers := rest; received := received n ++ [body] |}, answer)
       | [] =>
           ({| answers := []; received := received n ++ [body] |},
            Rejected "ECONNREFUSED")
       end |}.

End TransportApi.

(** ** JSON text of the values of the model

    [JSON.stringify] and [JSON.parse] are built-ins; the file transport is
    stated over any [JsonCodec].  This module gives one on the values the
    model has (integers for numbers, characters below 256), so that the
    transports can be run. *)
Module Json.
Import Js Events FileTransport.

Definition chars (s : string) : text := list_ascii_of_string s.

Definition dquote : ascii := ascii_of_nat 34.
Definition backslash : ascii := ascii_of_nat 92.

Definition hex_digit (n : nat) : ascii :=
  if (n <? 10)%nat then ascii_of_nat (48 + n) else ascii_of_nat (87 + n).

(** [QuoteJSONString]: the escapes of one character. *)
Definition escape (c : ascii) : text :=
  let n := nat_of_ascii c in
  if (n =? 34)%nat then [backslash; dquote]
  else if (n =? 92)%nat then [backslash; backslash]
  else if (n =? 8)%nat then backslash :: chars "b"
  else if (n =? 9)%nat then backslash :: chars "t"
  else if (n =? 10)%nat then backslash :: chars "n"
  else if (n =? 12)%nat then backslash :: chars "f"
  else if (n =? 13)%nat then backslash :: chars "r"
  else if (n <? 32)%nat
       then backslash :: chars "u00" ++ [hex_digit (n / 16); hex_digit (n mod 16)]
  else [c].

Definition quote (s : string) : text :=
  dquote :: flat_map escape (chars s) ++ [dquote].

Fixpoint commas (xs : list text) : text :=
  match xs with
  | [] => []
  | [x] => x
  | x :: xs' => x ++ chars "," ++ commas xs'
  end.

(** [JSON.stringify(v)]; [None] where it returns [undefined]. *)
Fixpoint stringify_value (v : value) : option text :=
  match v with
  | VUndefined => None
  | VNull => Some (chars "null")
  | VBool true => Some (chars "true")
  | VBool false => Some (chars "false")
  | VNum n => Some (chars (decimal n))
  | VStr s => Some (quote s)
  | VArr items =>
      Some (chars "[" ++
            commas (List.map (fun x => default (chars "null") (stringify_value x)) items)
            ++ chars "]")
  | VObj props =>
      Some (chars "{" ++
            commas (omap (fun kv => t ← stringify_value kv.2;
                                    Some (quote kv.1 ++ chars ":" ++ t)) props)
            ++ chars "}")
  end.

(** The object an event is, in the key order the factory gives it. *)
Definition status_value (s : EventStatus) : value :=
  VStr match s with
       | started => "started"
       | completed => "completed"
       | failed => "failed"
       end.

Definition opt (f : string -> value) (x : option string) : value :=
  match x with Some s => f s | None => VUndefined end.

Definition node_context_value (nc : NodeContext) : value :=
  VObj [("node_id", opt VStr (node_id nc));
        ("node_name", VStr (node_name nc));
        ("node_type", VStr (node_type nc));
        ("node_index", match node_index nc with Some i => VNum i | None => VUndefined end)].

Definition event_value (e : TelemetryEvent) : value :=
  VObj [("event_id", VStr (event_id e));
        ("event_type", VStr (event_type e));
        ("timestamp", VStr (timestamp e));
        ("run_id", VStr (run_id e));
        ("workflow_id", VStr (workflow_id e));
        ("workflow_name", opt VStr (workflow_name e));
        ("execution_id", VStr (execution_id e));
        ("session_id", opt VStr (session_id e));
        ("status", status_value (status e));
        ("metadata", match metadata e with Some m => VObj m | None => VUndefined end);
        ("node_context", match node_context e with
                         | Some nc => node_context_value nc
                         | None => VUndefined
                         end);
        ("duration_ms", match duration_ms e with Some d => VNum d | None => VUndefined end);
        ("payload", match payload e with Some p => VObj p | None => VUndefined end)].

(** *** Reading *)

Definition is_ws (c : ascii) : bool :=
  let n := nat_of_ascii c in
  ((n =? 32) || (n =? 9) || (n =? 10) || (n =? 13))%nat.

Fixpoint skip_ws (s : text) : text :=
  match s with
  | c :: s' => if is_ws c then skip_ws s' else s
  | [] => []
  end.

Fixpoint strip_prefix (p s : text) : option text :=
  match p, s with
  | [], _ => Some s
  | a :: p', b :: s' => if Ascii.eqb a b then strip_prefix p' s' else None
  | _ :: _, [] => None
  end.

Definition digit_of (c : ascii) : option Z :=
  let n := nat_of_ascii c in
  if ((48 <=? n) && (n <=? 57))%nat then Some (Z.of_nat (n - 48)) else None.

Definition hex_of (c : ascii) : option nat :=
  let n := nat_of_ascii c in
  if ((48 <=? n) && (n <=? 57))%nat then Some (n - 48)%nat
  else if ((97 <=? n) && (n <=? 102))%nat then Some (n - 87)%nat
  else if ((65 <=? n) && (n <=? 70))%nat then Some (n - 55)%nat
  else None.

(** The digits of a number, most significant first. *)
Fixpoint read_digits (acc : Z) (s : text) : Z * text :=
  match s with
  | c :: s' =>
      match digit_of c with
      | Some d => read_digits (10 * acc + d) s'
      | None => (acc, s)
      end
  | [] => (acc, [])
  end.

(** An integer; a fraction or an exponent is outside the model. *)
Definition read_number (s : text) : option (Z * text) :=
  let '(neg, s) := match strip_prefix (chars "-") s with
                   | Some s' => (true, s')
                   | None => (false, s)
                   end in
  match s with
  | c :: s' =>
      d ← digit_of c;
      let '(n, rest) := if d =? 0 then (0, s') else read_digits d s' in
      match rest with
      | c' :: _ =>
          if bool_decide (is_Some (digit_of c')) || Ascii.eqb c' "." || Ascii.eqb c' "e"
             || Ascii.eqb c' "E"
          then None else Some (if neg then - n else n, rest)
      | [] => Some (if neg then - n else n, rest)
      end
  | [] => None
  end.

(** The characters of a string literal, after its opening quote. *)
Fixpoint read_string (s : text) (acc : string) : option (string * text) :=
  match s with
  | [] => None
  | c :: s' =>
      if Ascii.eqb c dquote then Some (String.rev acc, s')
      else if Ascii.eqb c backslash then
        match s' with
        | e :: s'' =>
            let n := nat_of_ascii e in
            if (n =? 117)%nat then
              match s'' with
              | h1 :: h2 :: h3 :: h4 :: rest =>
                  a ← hex_of h1; b ← hex_of h2; c' ← hex_of h3; d ← hex_of h4;
                  if ((a =? 0) && (b =? 0))%nat
                  then read_string rest (String (ascii_of_nat (16 * c' + d)) acc)
                  else None
              | _ => None
              end
            else
              c' ← (if (n =? 34)%nat then Some dquote
                    else if (n =? 92)%nat then Some backslash
                    else if (n =? 47)%nat then Some (ascii_of_nat 47)
                    else if (n =? 98)%nat then Some (ascii_of_nat 8)
                    else if (n =? 102)%nat then Some (ascii_of_nat 12)
                    else if (n =? 110)%nat then Some (ascii_of_nat 10)
                    else if (n =? 114)%nat then Some (ascii_of_nat 13)
                    else if (n =? 116)%nat then Some (ascii_of_nat 9)
                    else None);
              read_string s'' (String c' acc)
        | [] => None
        end
      else if (nat_of_ascii c <? 32)%nat then None
      else read_string s' (String c acc)
  end.

(** Elements up to the closing bracket, given the reader of one value. *)
Fixpoint read_elements (read : text -> option (value * text)) (fuel : nat)
    (s : text) (acc : list value) : option (list value * text) :=
  match fuel with
  | O => None
  | S fuel' =>
      '(v, s) ← read s;
      match skip_ws s with
      | c :: s' =>
          if Ascii.eqb c "," then read_elements read fuel' s' (v :: acc)
          else if Ascii.eqb c "]" then Some (rev (v :: acc), s')
          else None
      | [] => None
      end
  end.

Fixpoint read_members (read : text -> option (value * text)) (fuel : nat)
    (s : text) (acc : list (string * value)) : option (list (string * value) * text) :=
  match fuel with
  | O => None
  | S fuel' =>
      match skip_ws s with
      | q :: s =>
          if Ascii.eqb q dquote then
            '(k, s) ← read_string s "";
            match skip_ws s with
            | c :: s =>
                if Ascii.eqb c ":" then
                  '(v, s) ← read s;
                  match skip_ws s with
                  | c :: s' =>
                      if Ascii.eqb c "," then read_members read fuel' s' (set acc k v)
                      else if Ascii.eqb c "}" then Some (set acc k v, s')
                      else None
                  | [] => None
                  end
                else None
            | [] => None
            end
          else None
      | [] => None
      end
  end.

Fixpoint read_value (fuel : nat) (s : text) : option (value * text) :=
  match fuel with
  | O => None
  | S fuel' =>
      match skip_ws s with
      | [] => None
      | c :: s' =>
          if Ascii.eqb c "{" then
            match skip_ws s' with
            | c' :: s'' =>
                if Ascii.eqb c' "}" then Some (VObj [], s'')
                else '(ps, r) ← read_members (read_value fuel') (length s') s' [];
                     Some (VObj ps, r)
            | [] => None
            end
          else if Ascii.eqb c "[" then
            match skip_ws s' with
            | c' :: s'' =>
                if Ascii.eqb c' "]" then Some (VArr [], s'')
                else '(xs, r) ← read_elements (read_value fuel') (length s') s' [];
                     Some (VArr xs, r)
            | [] => None
            end
          else if Ascii.eqb c dquote then
            '(str, r) ← read_string s' ""; Some (VStr str, r)
          else
            match strip_prefix (chars "true") (c :: s'),
                  strip_prefix (chars "false") (c :: s'),
                  strip_prefix (chars "null") (c :: s') with
            | Some r, _, _ => Some (VBool true, r)
            | _, Some r, _ => Some (VBool false, r)
            | _, _, Some r => Some (VNull, r)
            | _, _, _ => '(n, r) ← read_number (c :: s'); Some (VNum n, r)
            end
      end
  end.

(** [JSON.parse(s)]; [None] where it throws. *)
Definition parse_value (s : text) : option value :=
  '(v, rest) ← read_value (S (length s)) s;
  match skip_ws rest with
  | [] => Some v
  | _ => None
  end.

(** The event an object is read as. *)
Definition field (o : object) (k : string) : option value :=
  match get o k with
  | VUndefined => None
  | v => Some v
  end.

Definition as_string (v : value) : option string :=
  match v with VStr s => Some s | _ => None end.

Definition as_number (v : value) : option Z :=
  match v with VNum n => Some n | _ => None end.

Definition as_object (v : value) : option object :=
  match v with VObj o => Some o | _ => None end.

(** An optional field: absent, or of the expected kind. *)
Definition optional {A : Type} (f : value -> option A) (x : option value)
  : option (option A) :=
  match x with
  | None => Some None
  | Some v => a ← f v; Some (Some a)
  end.

Definition status_of (v : value) : option EventStatus :=
  s ← as_string v;
  if String.eqb s "started" then Some started
  else if String.eqb s "completed" then Some completed
  else if String.eqb s "failed" then Some failed
  else None.

Definition node_context_of (v : value) : option NodeContext :=
  o ← as_object v;
  nid ← optional as_string (field o "node_id");
  nname ← field o "node_name" ≫= as_string;
  ntype ← field o "node_type" ≫= as_string;
  nindex ← optional as_number (field o "node_index");
  Some {| node_id := nid; node_name := nname; node_type := ntype; node_index := nindex |}.

Definition event_of (v : value) : option TelemetryEvent :=
  o ← as_object v;
  eid ← field o "event_id" ≫= as_string;
  ety ← field o "event_type" ≫= as_string;
  ts ← field o "timestamp" ≫= as_string;
  rid ← field o "run_id" ≫= as_string;
  wid ← field o "workflow_id" ≫= as_string;
  wname ← optional as_string (field o "workflow_name");
  xid ← field o "execution_id" ≫= as_string;
  sid ← optional as_string (match field o "session_id" with
                            | Some VNull => None
                            | x => x
                            end);
  st ← field o "status" ≫= status_of;
  md ← optional as_object (field o "metadata");
  nc ← optional node_context_of (field o "node_context");
  d ← optional as_number (field o "duration_ms");
  p ← optional as_object (field o "payload");
  Some {| event_id := eid; event_type := ety; timestamp := ts; run_id := rid;
          workflow_id := wid; workflow_name := wname; execution_id := xid;
          session_id := sid; node_context := nc; duration_ms := d; status := st;
          payload := p; metadata := md |}.

Definition json_codec : JsonCodec :=
  {| stringify := fun e => default [] (stringify_value (event_value e));
     parse := fun s => parse_value s ≫= event_of |}.

End Json.
(** ** tracker.ts: [ExecutionTracker]

    [now] stands for the [Date.now()] an operation reads. *)
Module Tracker.
Import Js Events.

Record TimingEntry := {
  startTime : Z;
  nodeContext : option NodeContext;
  inputItemsCount : option Z
}.

Record ExecutionState := {
  executionId : string;
  workflowId : string;
  workflowName : string;
  sessionId : option string;
  exec_startTime : Z;
  nodeTimings : gmap string TimingEntry;
  completedNodes : list string;
  failedNodes : list string;
  exec_metadata : option object
}.

(** The private [executions] map. *)
Abbreviation executions := (gmap string ExecutionState).

Definition with_nodeTimings (f : gmap string TimingEntry -> gmap string TimingEntry)
    (s : ExecutionState) : ExecutionState :=
  {| executionId := executionId s; workflowId := workflowId s;
     workflowName := workflowName s; sessionId := sessionId s;
     exec_startTime := exec_startTime s; nodeTimings := f (nodeTimings s);
     completedNodes := completedNodes s; failedNodes := failedNodes s;
     exec_metadata := exec_metadata s |}.

Definition push_completed (n : string) (s : ExecutionState) : ExecutionState :=
  {| executionId := executionId s; workflowId := workflowId s;
     workflowName := workflowName s; sessionId := sessionId s;
     exec_startTime := exec_startTime s; nodeTimings := nodeTimings s;
     completedNodes := completedNodes s ++ [n]; failedNodes := failedNodes s;
     exec_metadata := exec_metadata s |}.

Definition push_failed (n : string) (s : ExecutionState) : ExecutionState :=
  {| executionId := executionId s; workflowId := workflowId s;
     workflowName := workflowName s; sessionId := sessionId s;
     exec_startTime := exec_startTime s; nodeTimings := nodeTimings s;
     completedNodes := completedNodes s; failedNodes := failedNodes s ++ [n];
     exec_metadata := exec_metadata s |}.

Definition startExecution (now : Z) (executionId workflowId workflowName : string)
    (sessionId : option string) (metadata : option object) (t : executions)
  : executions * ExecutionState :=
  let state := {| executionId := executionId; workflowId := workflowId;
                  workflowName := workflowName; sessionId := sessionId;
                  exec_startTime := now; nodeTimings := ∅;
                  completedNodes := []; failedNodes := [];
                  exec_metadata := metadata |} in
  (<[executionId := state]> t, state).

Definition getExecution (executionId : string) (t : executions) : option ExecutionState :=
  t !! executionId.

Definition startNode (now : Z) (executionId nodeName : string)
    (nodeContext : NodeContext) (inputItemsCount : option Z) (t : executions)
  : executions * option TimingEntry :=
  match t !! executionId with
  | None => (t, None)
  | Some state =>
      let entry := {| startTime := now; nodeContext := Some nodeContext;
                      inputItemsCount := inputItemsCount |} in
      (<[executionId := with_nodeTimings (insert nodeName entry) state]> t, Some entry)
  end.

Definition completeNode (now : Z) (executionId nodeName : string) (t : executions)
  : executions * Z :=
  match t !! executionId with
  | None => (t, 0)
  | Some state =>
      match nodeTimings state !! nodeName with
      | None => (t, 0)
      | Some timing =>
          let duration := now - startTime timing in
          (<[executionId := push_completed nodeName state]> t, duration)
      end
  end.

Definition failNode (now : Z) (executionId nodeName : string) (t : executions)
  : executions * Z :=
  match t !! executionId with
  | None => (t, 0)
  | Some state =>
      match nodeTimings state !! nodeName with
      | None => (t, 0)
      | Some timing =>
          let duration := now - startTime timing in
          (<[executionId := push_failed nodeName state]> t, duration)
      end
  end.

Definition getNodeTiming (executionId nodeName : string) (t : executions)
  : option TimingEntry :=
  state ← t !! executionId; nodeTimings state !! nodeName.

(** Returns [{ duration, nodeCount }]; the map is only read. *)
Definition completeExecution (now : Z) (executionId : string) (t : executions) : Z * Z :=
  match t !! executionId with
  | None => (0, 0)
  | Some state =>
      (now - exec_startTime state,
       Z.of_nat (length (completedNodes state)) + Z.of_nat (length (failedNodes state)))
  end.

Definition cleanupExecution (executionId : string) (t : executions) : executions :=
  delete executionId t.

End Tracker.

(** ** evaluator: [WorkflowEvaluator] *)
Module Evaluator.
Import Js Events.

Record EvaluatorConfig := {
  maxWorkflowDurationMs : Z;
  maxNodeDurationMs : Z;
  failedNodePenalty : Z;
  workflowFailureMaxScore : Z;
  slowWorkflowPenaltyPerSecond : Z;
  slowNodePenalty : Z;
  successBonus : Z
}.

Definition DEFAULT_CONFIG : EvaluatorConfig := {|
  maxWorkflowDurationMs := 60000;
  maxNodeDurationMs := 10000;
  failedNodePenalty := 15;
  workflowFailureMaxScore := 30;
  slowWorkflowPenaltyPerSecond := 2;
  slowNodePenalty := 5;
  successBonus := 10
|}.

Record EvaluationResult := {
  score : Z;
  labels : list string;
  reasons : list string;
  metrics : EvalMetrics
}.

(** The running [score], [labels] and [reasons] of [evaluate]. *)
Record Scoring := {
  cur_score : Z;
  cur_labels : list string;
  cur_reasons : list string
}.

Definition push_label (l : string) (s : Scoring) : Scoring :=
  {| cur_score := cur_score s; cur_labels := cur_labels s ++ [l];
     cur_reasons := cur_reasons s |}.

Definition push_reason (r : string) (s : Scoring) : Scoring :=
  {| cur_score := cur_score s; cur_labels := cur_labels s;
     cur_reasons := cur_reasons s ++ [r] |}.

Definition set_score (n : Z) (s : Scoring) : Scoring :=
  {| cur_score := n; cur_labels := cur_labels s; cur_reasons := cur_reasons s |}.

(** A [for ... of] loop whose body may throw. *)
Fixpoint for_of {A S : Type} (body : S -> A -> option S) (xs : list A) (s : S)
  : option S :=
  match xs with
  | [] => Some s
  | x :: xs' => s' ← body s x; for_of body xs' s'
  end.

(** [Math.round]: the nearest integer, halves towards +infinity. *)
Definition Math_round (q : Q) : Z := Qfloor (q + (1 # 2))%Q.

(** [nodeEvent.duration_ms > limit], false on [undefined]. *)
Definition duration_exceeds (limit : Z) (e : TelemetryEvent) : bool :=
  match duration_ms e with
  | Some d => limit <? d
  | None => false
  end.

(** Body of the "find slowest node" loop. *)
Definition slowest_step (acc : option SlowestNode) (e : TelemetryEvent)
  : option (option SlowestNode) :=
  match duration_ms e with
  | None => Some acc
  | Some d =>
      if match acc with
         | None => true
         | Some s => slowest_duration_ms s <? d
         end
      then nc ← node_context e;
           Some (Some {| name := node_name nc; slowest_duration_ms := d |})
      else Some acc
  end.

Definition seconds (ms : Z) : Q := (inject_Z ms / 1000)%Q.

Section Rules.
Context {fmt : NumberFormat}.
Variable config : EvaluatorConfig.

Definition show (n : Z) : string := number_toString (inject_Z n).

(** Rule 1: workflow failure caps the score. *)
Definition rule_workflow_failed (wf : option TelemetryEvent) (s : Scoring)
  : option Scoring :=
  match wf with
  | None => Some s
  | Some e =>
      p ← payload e;
      let s := set_score (Z.min (cur_score s) (workflowFailureMaxScore config)) s in
      let s := push_label "workflow_failed" s in
      let s := push_reason ("Workflow failed: " +:+ ToString (get p "error_message")) s in
      Some (if truthy (get p "error_node")
            then push_reason ("Error occurred in node: " +:+ ToString (get p "error_node")) s
            else s)
  end.

(** Rule 2: penalty per failed node. *)
Definition failed_node_line (s : Scoring) (e : TelemetryEvent) : option Scoring :=
  nc ← node_context e;
  p ← payload e;
  Some (push_reason ("  - " +:+ node_name nc +:+ ": " +:+ ToString (get p "error_message")) s).

Definition rule_node_failures (nodeFailedEvents : list TelemetryEvent) (s : Scoring)
  : option Scoring :=
  let failedNodeCount := Z.of_nat (length nodeFailedEvents) in
  if 0 <? failedNodeCount then
    let penalty := failedNodeCount * failedNodePenalty config in
    let s := set_score (cur_score s - penalty) s in
    let s := push_label "node_failures" s in
    let s := push_reason (show failedNodeCount +:+ " node(s) failed (-" +:+ show penalty +:+ " points)") s in
    for_of failed_node_line nodeFailedEvents s
  else Some s.

(** Rule 3: slow workflow penalty ([undefined > n] is false). *)
Definition rule_slow_execution (totalDurationMs : option Z) (s : Scoring) : Scoring :=
  match totalDurationMs with
  | Some total =>
      if maxWorkflowDurationMs config <? total then
        let overageSeconds := seconds (total - maxWorkflowDurationMs config) in
        let penalty :=
          Qfloor (overageSeconds * inject_Z (slowWorkflowPenaltyPerSecond config))%Q in
        let s := set_score (cur_score s - penalty) s in
        let s := push_label "slow_execution" s in
        push_reason ("Workflow exceeded time threshold: "
                     +:+ number_toFixed (seconds total) 2 +:+ "s > "
                     +:+ number_toString (seconds (maxWorkflowDurationMs config))
                     +:+ "s (-" +:+ show penalty +:+ " points)") s
      else s
  | None => s
  end.

(** Rule 4: slow node penalty. *)
Definition slow_node_line (s : Scoring) (e : TelemetryEvent) : option Scoring :=
  nc ← node_context e;
  d ← duration_ms e;
  Some (push_reason ("  - " +:+ node_name nc +:+ ": " +:+ number_toFixed (seconds d) 2 +:+ "s") s).

Definition rule_slow_nodes (slowNodes : list TelemetryEvent) (s : Scoring)
  : option Scoring :=
  let n := Z.of_nat (length slowNodes) in
  if 0 <? n then
    let penalty := n * slowNodePenalty config in
    let s := set_score (cur_score s - penalty) s in
    let s := push_label "slow_nodes" s in
    let s := push_reason (show n +:+ " node(s) exceeded time threshold (-" +:+ show penalty +:+ " points)") s in
    for_of slow_node_line slowNodes s
  else Some s.

(** Rule 5: success bonus. *)
Definition rule_clean_execution (wc : option TelemetryEvent)
    (failedNodeCount slowCount : Z) (s : Scoring) : Scoring :=
  if bool_decide (is_Some wc) && (failedNodeCount =? 0) && (slowCount =? 0) then
    let s := set_score (cur_score s + successBonus config) s in
    let s := push_label "clean_execution" s in
    push_reason ("Clean execution with no failures (+" +:+ show (successBonus config) +:+ " points)") s
  else s.

(** Body of the loop over the LLM responses: running token and latency
    totals.  [total_tokens] is a number where present (its declared type);
    any other truthy value is outside the typed fragment. *)
Definition llm_step (acc : Z * Z) (resp : TelemetryEvent) : option (Z * Z) :=
  p ← payload resp;
  totalTokens ←
    match get p "total_tokens" with
    | VNum n => Some (if n =? 0 then acc.1 else acc.1 + n)
    | v => if truthy v then None else Some acc.1
    end;
  let totalLatency :=
    match duration_ms resp with
    | Some d => if d =? 0 then acc.2 else acc.2 + d
    | None => acc.2
    end in
  Some (totalTokens, totalLatency).

Definition nonzero (n : Z) : option Z := if n =? 0 then None else Some n.

Definition llm_metrics_of (events : list TelemetryEvent) : option (option LlmMetrics) :=
  let llmEvents :=
    List.filter (fun e => has_type EventTypes.LLM_REQUESTED e
                          || has_type EventTypes.LLM_RESPONDED e) events in
  if (0 <? length llmEvents)%nat then
    let llmResponses := List.filter (has_type EventTypes.LLM_RESPONDED) events in
    '(totalTokens, totalLatency) ← for_of llm_step llmResponses (0, 0);
    Some (Some {| total_requests := Z.of_nat (length llmEvents) / 2;
                  total_tokens := nonzero totalTokens;
                  total_latency_ms := nonzero totalLatency |})
  else Some None.

(** [WorkflowEvaluator.evaluate]. *)
Definition evaluate (events : list TelemetryEvent) : option EvaluationResult :=
  let nodeStartEvents := List.filter (has_type EventTypes.NODE_STARTED) events in
  let nodeCompletedEvents := List.filter (has_type EventTypes.NODE_COMPLETED) events in
  let nodeFailedEvents := List.filter (has_type EventTypes.NODE_FAILED) events in
  let workflowCompletedEvent := List.find (has_type EventTypes.WORKFLOW_COMPLETED) events in
  let workflowFailedEvent := List.find (has_type EventTypes.WORKFLOW_FAILED) events in
  let nodeCount := Z.of_nat (length nodeStartEvents) in
  let failedNodeCount := Z.of_nat (length nodeFailedEvents) in
  let totalDurationMs :=
    match workflowCompletedEvent with
    | Some e => duration_ms e
    | None => match workflowFailedEvent with
              | Some e => duration_ms e
              | None => Some 0
              end
    end in
  let allNodeEndEvents := nodeCompletedEvents ++ nodeFailedEvents in
  slowestNode ← for_of slowest_step allNodeEndEvents None;
  let nodeDurations := omap duration_ms allNodeEndEvents in
  let avgNodeDurationMs : Q :=
    if (0 <? length nodeDurations)%nat
    then (inject_Z (foldl Z.add 0%Z nodeDurations)
          / inject_Z (Z.of_nat (length nodeDurations)))%Q
    else 0%Q in
  let s := {| cur_score := 100; cur_labels := []; cur_reasons := [] |} in
  s ← rule_workflow_failed workflowFailedEvent s;
  s ← rule_node_failures nodeFailedEvents s;
  let s := rule_slow_execution totalDurationMs s in
  let slowNodes := List.filter (duration_exceeds (maxNodeDurationMs config)) allNodeEndEvents in
  s ← rule_slow_nodes slowNodes s;
  let s := rule_clean_execution workflowCompletedEvent failedNodeCount
             (Z.of_nat (length slowNodes)) s in
  let score := Z.max 0 (Z.min 100 (cur_score s)) in
  llm ← llm_metrics_of events;
  Some {| score := score;
          labels := cur_labels s;
          reasons := cur_reasons s;
          metrics := {| total_duration_ms := totalDurationMs;
                        node_count := nodeCount;
                        failed_node_count := failedNodeCount;
                        slowest_node := slowestNode;
                        avg_node_duration_ms := Math_round avgNodeDurationMs;
                        llm_metrics := llm |} |}.

End Rules.

(** The shape the event union gives each kind of event ([NodeCompletedEvent]
    and [NodeFailedEvent] carry a [node_context], the failed events and the
    LLM response a [payload], [total_tokens] is a number): what [evaluate]
    dereferences without a check. *)
Definition well_typed_tokens (p : object) : bool :=
  match get p "total_tokens" with
  | VNum _ => true
  | v => negb (truthy v)
  end.

Definition well_shaped (e : TelemetryEvent) : bool :=
  (if has_type EventTypes.NODE_COMPLETED e
   then bool_decide (is_Some (node_context e)) else true)
  && (if has_type EventTypes.NODE_FAILED e
      then bool_decide (is_Some (node_context e)) && bool_decide (is_Some (payload e))
      else true)
  && (if has_type EventTypes.WORKFLOW_FAILED e
      then bool_decide (is_Some (payload e)) else true)
  && (if has_type EventTypes.LLM_RESPONDED e
      then match payload e with Some p => well_typed_tokens p | None => false end
      else true).

End Evaluator.
(** ** hook.ts: [TelemetryHook]

    [now] is the [Date.now()] the tracker reads during the callback; [eid]
    and [ts] are the id and timestamp of the event the callback builds
    ([eid'], [ts'] those of the evaluation event). *)
Module Hook.
Import Js Events Factory Async TransportInterface Tracker.

(** [this.config] after the defaults are merged in, as the callbacks read it. *)
Record TelemetryHookConfig := {
  enableEvaluation : bool;
  evaluatorConfig : Evaluator.EvaluatorConfig;
  defaultSessionId : option string;
  defaultMetadata : option object
}.

Record HookState (T : Type) := {
  tracker : executions;
  executionEvents : gmap string (list TelemetryEvent);
  transport : T
}.
Arguments tracker {T} _.
Arguments executionEvents {T} _.
Arguments transport {T} _.

Section Hook.
Context {fmt : NumberFormat} {T : Type} {transport_T : Transport T}.
Variable config : TelemetryHookConfig.

Definition set_tracker (t : executions) (st : HookState T) : HookState T :=
  {| tracker := t; executionEvents := executionEvents st; transport := transport st |}.

Definition set_executionEvents (m : gmap string (list TelemetryEvent))
    (st : HookState T) : HookState T :=
  {| tracker := tracker st; executionEvents := m; transport := transport st |}.

(** A call on [this.transport]. *)
Definition on_transport {A : Type} (m : Task T A) : Task (HookState T) A :=
  fun st =>
    let '(t', r) := m (transport st) in
    ({| tracker := tracker st; executionEvents := executionEvents st;
        transport := t' |}, r).

Definition getExecutionContext (executionId : string) (st : HookState T)
  : option ExecutionContext :=
  state ← getExecution executionId (tracker st);
  Some {| ctx_execution_id := Tracker.executionId state;
          ctx_workflow_id := workflowId state;
          ctx_workflow_name := Some (workflowName state);
          ctx_run_id := Some (Tracker.executionId state);
          ctx_session_id := or_else (sessionId state) (defaultSessionId config);
          ctx_metadata := Some (spread (default [] (defaultMetadata config))
                                       (default [] (exec_metadata state))) |}.

Definition sendEvent (event : TelemetryEvent) : Task (HookState T) unit :=
  fun st =>
    let events := default [] (executionEvents st !! execution_id event) in
    let st := set_executionEvents
                (<[execution_id event := events ++ [event]]> (executionEvents st)) st in
    on_transport (send event) st.

Definition runEvaluation (eid' ts' : string) (executionId : string)
    (context : ExecutionContext) : Task (HookState T) unit :=
  fun st =>
    let events := default [] (executionEvents st !! executionId) in
    match events with
    | [] => (st, Resolved ())
    | _ =>
        match Evaluator.evaluate (evaluatorConfig config) events with
        | None => (st, Rejected "TypeError")
        | Some result =>
            sendEvent (createEvalCompletedEvent eid' ts' context
                         (Evaluator.score result) (Evaluator.labels result)
                         (Evaluator.reasons result) (Evaluator.metrics result)) st
        end
    end.

Definition cleanup (executionId : string) (st : HookState T) : HookState T :=
  {| tracker := cleanupExecution executionId (tracker st);
     executionEvents := delete executionId (executionEvents st);
     transport := transport st |}.

Definition onWorkflowStart (now : Z) (eid ts : string)
    (executionId workflowId workflowName : string) (mode sessionId : option string)
    (isManual : option bool) (retryOf : option string) (metadata : option object)
  : Task (HookState T) unit :=
  fun st =>
    let st := set_tracker
                (startExecution now executionId workflowId workflowName sessionId
                   metadata (tracker st)).1 st in
    let st := set_executionEvents (<[executionId := []]> (executionEvents st)) st in
    match getExecutionContext executionId st with
    | None => (st, Rejected "TypeError")
    | Some context =>
        sendEvent (createWorkflowStartedEvent eid ts context mode retryOf isManual) st
    end.

Definition onWorkflowComplete (now : Z) (eid ts eid' ts' : string)
    (executionId : string) (mode : option string) : Task (HookState T) unit :=
  fun st =>
    match getExecutionContext executionId st with
    | None => (st, Resolved ())
    | Some context =>
        let '(duration, nodeCount) := completeExecution now executionId (tracker st) in
        (sendEvent (createWorkflowCompletedEvent eid ts context duration nodeCount mode) >>
         (if enableEvaluation config
          then runEvaluation eid' ts' executionId context
          else resolve ()) >>
         (fun st => (cleanup executionId st, Resolved ())))%task st
    end.

Definition onWorkflowFail (now : Z) (eid ts eid' ts' : string)
    (executionId : string) (message : string) (errorName errorStack : option string)
    (errorNode : option string) : Task (HookState T) unit :=
  fun st =>
    match getExecutionContext executionId st with
    | None => (st, Resolved ())
    | Some context =>
        let '(duration, _) := completeExecution now executionId (tracker st) in
        (sendEvent (createWorkflowFailedEvent eid ts context duration message
                      errorNode errorName errorStack) >>
         (if enableEvaluation config
          then runEvaluation eid' ts' executionId context
          else resolve ()) >>
         (fun st => (cleanup executionId st, Resolved ())))%task st
    end.

Definition onNodeStart (now : Z) (eid ts : string)
    (executionId nodeName nodeType : string) (nodeId : option string)
    (inputItemsCount : option Z) : Task (HookState T) unit :=
  fun st =>
    match getExecutionContext executionId st with
    | None => (st, Resolved ())
    | Some context =>
        let nodeContext := {| node_id := nodeId; node_name := nodeName;
                              node_type := nodeType; node_index := None |} in
        let st := set_tracker
                    (startNode now executionId nodeName nodeContext inputItemsCount
                       (tracker st)).1 st in
        sendEvent (createNodeStartedEvent eid ts context nodeContext inputItemsCount) st
    end.

Definition onNodeComplete (now : Z) (eid ts : string)
    (executionId nodeName nodeType : string) (nodeId : option string)
    (outputItemsCount : option Z) : Task (HookState T) unit :=
  fun st =>
    match getExecutionContext executionId st with
    | None => (st, Resolved ())
    | Some context =>
        let nodeContext := {| node_id := nodeId; node_name := nodeName;
                              node_type := nodeType; node_index := None |} in
        let '(t, duration) := completeNode now executionId nodeName (tracker st) in
        let st := set_tracker t st in
        sendEvent (createNodeCompletedEvent eid ts context nodeContext duration
                     outputItemsCount) st
    end.

Definition onNodeFail (now : Z) (eid ts : string)
    (executionId nodeName nodeType : string) (nodeId : option string)
    (message : string) (errorName : option string) : Task (HookState T) unit :=
  fun st =>
    match getExecutionContext executionId st with
    | None => (st, Resolved ())
    | Some context =>
        let nodeContext := {| node_id := nodeId; node_name := nodeName;
                              node_type := nodeType; node_index := None |} in
        let '(t, duration) := failNode now executionId nodeName (tracker st) in
        let st := set_tracker t st in
        sendEvent (createNodeFailedEvent eid ts context nodeContext duration
                     message errorName) st
    end.

(** [TelemetryHook.close]. *)
Definition close_hook : Task (HookState T) unit :=
  (on_transport flush >> on_transport close)%task.

End Hook.
End Hook.

(** ** n8n-external-hooks.ts: the hooks n8n calls

    [config] is [getConfig()] with the defaults of the hook merged in,
    [new_hook] the state of [new TelemetryHook(getConfig())]; [stack] is the
    stack trace the runtime gives to [new Error('Workflow failed')]. *)
Module ExternalHooks.
Import Js Events Async TransportInterface Tracker Hook.

(** An [Error]: what the hook reads of it. *)
Record JsError := {
  message : string;
  error_name : option string;
  error_stack : option string
}.

(** The module variable [hook], and what was written to [console.error]. *)
Record State (T : Type) := {
  hook : option (HookState T);
  console : list string
}.
Arguments hook {T} _.
Arguments console {T} _.

(** [x || d] on an optional string. *)
Definition or_default (x : option string) (d : string) : string :=
  default d (or_else x (Some d)).

Section Hooks.
Context {fmt : NumberFormat} {T : Type} {transport_T : Transport T}.
Variable config : TelemetryHookConfig.
Variable new_hook : HookState T.

Definition getHook (st : State T) : HookState T := default new_hook (hook st).

(** [try { await getHook().callback(...) } catch (error) { console.error(label, error) }]. *)
Definition guarded (label : string) (callback : Task (HookState T) unit)
  : Task (State T) unit :=
  fun st =>
    match callback (getHook st) with
    | (h, Resolved _) => ({| hook := Some h; console := console st |}, Resolved ())
    | (h, Rejected reason) =>
        ({| hook := Some h; console := console st ++ [label +:+ reason] |}, Resolved ())
    end.

Definition workflow_preExecute (now : Z) (eid ts : string)
    (workflow_id workflow_name : option string) (executionId mode : string)
    (retryOf : option string) : Task (State T) unit :=
  guarded "[Telemetry] Error in workflow.preExecute hook: "
    (onWorkflowStart config now eid ts executionId
       (or_default workflow_id "unknown") (or_default workflow_name "Unknown Workflow")
       (Some mode) None (Some (String.eqb mode "manual")) retryOf None).

Definition workflow_postExecute (now : Z) (eid ts eid' ts' : string) (stack : string)
    (executionId mode status : string) (error : option JsError)
  : Task (State T) unit :=
  if String.eqb status "success" then
    guarded "[Telemetry] Error in workflow.postExecute hook: "
      (onWorkflowComplete config now eid ts eid' ts' executionId (Some mode))
  else if String.eqb status "error" || String.eqb status "failed" then
    let error := default {| message := "Workflow failed"; error_name := Some "Error";
                            error_stack := Some stack |} error in
    guarded "[Telemetry] Error in workflow.postExecute hook: "
      (onWorkflowFail config now eid ts eid' ts' executionId (message error)
         (error_name error) (error_stack error) None)
  else resolve ().

(** [inputData?.main?.[0]?.length || 0], [items] being the length where
    there is one. *)
Definition items_count (items : option Z) : option Z := Some (default 0 items).

Definition node_preExecute (now : Z) (eid ts : string) (nodeName nodeType : string)
    (executionId : string) (node_id : option string) (input_items : option Z)
  : Task (State T) unit :=
  guarded "[Telemetry] Error in node.preExecute hook: "
    (onNodeStart config now eid ts executionId nodeName nodeType node_id
       (items_count input_items)).

Definition node_postExecute (now : Z) (eid ts : string) (nodeName nodeType : string)
    (executionId : string) (node_id : option string) (output_items : option Z)
    (error : option JsError) : Task (State T) unit :=
  match error with
  | Some error =>
      guarded "[Telemetry] Error in node.postExecute hook: "
        (onNodeFail config now eid ts executionId nodeName nodeType node_id
           (message error) (error_name error))
  | None =>
      guarded "[Telemetry] Error in node.postExecute hook: "
        (onNodeComplete config now eid ts executionId nodeName nodeType node_id
           (items_count output_items))
  end.

(** [shutdown]: no [try] here. *)
Definition shutdown : Task (State T) unit :=
  fun st =>
    match hook st with
    | None => (st, Resolved ())
    | Some h =>
        match close_hook h with
        | (h', Resolved _) => ({| hook := None; console := console st |}, Resolved ())
        | (h', Rejected reason) =>
            ({| hook := Some h'; console := console st |}, Rejected reason)
        end
    end.

End Hooks.
End ExternalHooks.

(** ** The calls a host makes on the tracker and on the hook *)
Module Api.
Import Js Events Async TransportInterface Tracker Hook.

(** A transport that keeps what it is sent, in memory. *)
Definition memory_transport : Transport (list TelemetryEvent) :=
  {| name := fun _ => "memory";
     send := fun e log => (log ++ [e], Resolved ());
     sendBatch := fun es log => (log ++ es, Resolved ());
     flush := fun log => (log, Resolved ());
     close := fun log => (log, Resolved ()) |}.

Inductive call : Type :=
  | StartExecution (now : Z) (executionId workflowId workflowName : string)
      (sessionId : option string) (metadata : option object)
  | StartNode (now : Z) (executionId nodeName : string) (nodeContext : NodeContext)
      (inputItemsCount : option Z)
  | CompleteNode (now : Z) (executionId nodeName : string)
  | FailNode (now : Z) (executionId nodeName : string)
  | CompleteExecution (now : Z) (executionId : string)
  | CleanupExecution (executionId : string)
  | OnWorkflowStart (now : Z) (eid ts : string)
      (executionId workflowId workflowName : string) (mode sessionId : option string)
      (isManual : option bool) (retryOf : option string) (metadata : option object)
  | OnWorkflowComplete (now : Z) (eid ts eid' ts' : string) (executionId : string)
      (mode : option string)
  | OnWorkflowFail (now : Z) (eid ts eid' ts' : string) (executionId : string)
      (message : string) (errorName errorStack errorNode : option string)
  | OnNodeStart (now : Z) (eid ts : string) (executionId nodeName nodeType : string)
      (nodeId : option string) (inputItemsCount : option Z)
  | OnNodeComplete (now : Z) (eid ts : string) (executionId nodeName nodeType : string)
      (nodeId : option string) (outputItemsCount : option Z)
  | OnNodeFail (now : Z) (eid ts : string) (executionId nodeName nodeType : string)
      (nodeId : option string) (message : string) (errorName : option string).

(** The execution id a call is keyed by. *)
Definition call_id (c : call) : string :=
  match c with
  | StartExecution _ id _ _ _ _ | StartNode _ id _ _ _ | CompleteNode _ id _
  | FailNode _ id _ | CompleteExecution _ id | CleanupExecution id
  | OnWorkflowStart _ _ _ id _ _ _ _ _ _ _ | OnWorkflowComplete _ _ _ _ _ id _
  | OnWorkflowFail _ _ _ _ _ id _ _ _ _ | OnNodeStart _ _ _ id _ _ _ _
  | OnNodeComplete _ _ _ id _ _ _ _ | OnNodeFail _ _ _ id _ _ _ _ _ => id
  end.

Section Run.
Context {fmt : NumberFormat} {T : Type} {transport_T : Transport T}.
Variable config : TelemetryHookConfig.

(** The state a call leaves, settled or rejected. *)
Definition run_call (c : call) (st : HookState T) : HookState T :=
  match c with
  | StartExecution now id wid wname sid md =>
      set_tracker (startExecution now id wid wname sid md (tracker st)).1 st
  | StartNode now id n nc cnt =>
      set_tracker (startNode now id n nc cnt (tracker st)).1 st
  | CompleteNode now id n => set_tracker (completeNode now id n (tracker st)).1 st
  | FailNode now id n => set_tracker (failNode now id n (tracker st)).1 st
  | CompleteExecution now id => st
  | CleanupExecution id => set_tracker (cleanupExecution id (tracker st)) st
  | OnWorkflowStart now eid ts id wid wname mode sid manual retry md =>
      (onWorkflowStart config now eid ts id wid wname mode sid manual retry md st).1
  | OnWorkflowComplete now eid ts eid' ts' id mode =>
      (onWorkflowComplete config now eid ts eid' ts' id mode st).1
  | OnWorkflowFail now eid ts eid' ts' id msg ename estack enode =>
      (onWorkflowFail config now eid ts eid' ts' id msg ename estack enode st).1
  | OnNodeStart now eid ts id n ty nid cnt =>
      (onNodeStart config now eid ts id n ty nid cnt st).1
  | OnNodeComplete now eid ts id n ty nid cnt =>
      (onNodeComplete config now eid ts id n ty nid cnt st).1
  | OnNodeFail now eid ts id n ty nid msg ename =>
      (onNodeFail config now eid ts id n ty nid msg ename st).1
  end.

Definition run_calls (cs : list call) (st : HookState T) : HookState T :=
  foldl (fun st c => run_call c st) st cs.

(** A fresh hook over a transport in state [t0]. *)
Definition initial (t0 : T) : HookState T :=
  {| tracker := ∅; executionEvents := ∅; transport := t0 |}.

End Run.

End Api.

(** ** Example data, to run the model on *)
Module Examples.
Import Js Events Factory Evaluator Async TransportInterface BaseTransport
  FileTransport Hook Api Store.

Definition ctx0 : ExecutionContext :=
  {| ctx_execution_id := "exec-1"; ctx_workflow_id := "wf-1";
     ctx_workflow_name := Some "Demo"; ctx_run_id := None;
     ctx_session_id := None; ctx_metadata := None |}.

Definition node0 (n : string) : NodeContext :=
  {| node_id := None; node_name := n; node_type := "n8n-nodes-base.function";
     node_index := None |}.

(** Scenario B of the specification: a node fails, then the workflow. *)
Definition scenario_B : list TelemetryEvent :=
  [ createWorkflowStartedEvent "id-1" "t1" ctx0 None None None;
    createNodeStartedEvent "id-2" "t2" ctx0 (node0 "Process Response") (Some 1);
    createNodeFailedEvent "id-3" "t3" ctx0 (node0 "Process Response") 30
      "Invalid JSON response" (Some "Error");
    createWorkflowFailedEvent "id-4" "t4" ctx0 250 "Invalid JSON response"
      (Some "Process Response") (Some "Error") None ].

(** A trace with two terminal failure events. *)
Definition two_failures : list TelemetryEvent :=
  [ createNodeFailedEvent "id-1" "t1" ctx0 (node0 "Fetch") 30 "timeout" None;
    createWorkflowFailedEvent "id-2" "t2" ctx0 250 "Upstream unavailable" None None None;
    createWorkflowFailedEvent "id-3" "t3" ctx0 260 "Invalid JSON response" None None None ].

Definition empty_result : EvaluationResult :=
  {| score := 100; labels := []; reasons := [];
     metrics := {| total_duration_ms := Some 0; node_count := 0;
                   failed_node_count := 0; slowest_node := None;
                   avg_node_duration_ms := 0; llm_metrics := None |} |}.

Definition default_hook_config : TelemetryHookConfig :=
  {| enableEvaluation := true;
     evaluatorConfig := Evaluator.DEFAULT_CONFIG;
     defaultSessionId := None;
     defaultMetadata := None |}.

(** Two executions whose callbacks interleave. *)
Definition interleaved : list call :=
  [ OnWorkflowStart 1000 "a1" "t1" "exec-A" "wf-1" "Import" None None None None None;
    OnWorkflowStart 1001 "b1" "t2" "exec-B" "wf-2" "Export" None None None None None;
    OnNodeStart 1002 "a2" "t3" "exec-A" "Fetch" "http" None (Some 1);
    OnNodeStart 1003 "b2" "t4" "exec-B" "Load" "sheet" None None;
    OnNodeComplete 1010 "a3" "t5" "exec-A" "Fetch" "http" None (Some 5) ].

(** Events with no [undefined] property: JSON text keeps all of them. *)
Definition ctx1 : ExecutionContext :=
  {| ctx_execution_id := "exec-7"; ctx_workflow_id := "wf-7";
     ctx_workflow_name := Some "Nightly import"; ctx_run_id := None;
     ctx_session_id := Some "session-3";
     ctx_metadata := Some [("team", VStr "data"); ("tags", VArr [VStr "etl"; VNum 2])] |}.

Definition node1 : NodeContext :=
  {| node_id := Some "n-1"; node_name := "Fetch rows"; node_type := "http";
     node_index := None |}.

Definition event_a : TelemetryEvent :=
  createNodeStartedEvent "ev-1" "2026-01-01T00:00:00.000Z" ctx1 node1 (Some 3).
Definition event_b : TelemetryEvent :=
  createNodeCompletedEvent "ev-2" "2026-01-01T00:00:00.150Z" ctx1 node1 150 (Some 10).
Definition event_c : TelemetryEvent :=
  createWorkflowCompletedEvent "ev-3" "2026-01-01T00:00:01.000Z" ctx1 1000 1 (Some "manual").

Definition writes : list write :=
  [Send event_a; SendBatch []; SendBatch [event_b; event_c]].

(** A buffering file transport over a path that cannot be written, with
    one event in its buffer. *)
Definition buffering : TransportConfig :=
  {| buffered := Present (Some true); bufferSize := Absent; flushIntervalMs := Absent;
     redactPayloads := Absent; redactFields := Absent |}.

Definition read_only_transport : State FileState :=
  (BaseTransport.send (destination_D := file_destination (codec := Json.json_codec))
     event_a
     (FileTransport.constructor (codec := Json.json_codec) buffering
        "./data/events.jsonl" None false ∅)).1.

(** A store that holds a record with a nested record and an array. *)
Definition store0 : heap :=
  list_to_map
    [ (0%nat, CObj [("user", RStr "ann"); ("Password", RStr "pw");
                    ("items", RRef 1); ("nested", RRef 2)]);
      (1%nat, CArr [RRef 3; RNum 7]);
      (2%nat, CObj [("apiKey", RStr "k"); ("ok", RBool true)]);
      (3%nat, CObj [("access_token", RStr "t"); ("n", RNum 1)]) ].

Definition tree0 : value :=
  VObj [("user", VStr "ann"); ("Password", VStr "pw");
        ("items", VArr [VObj [("access_token", VStr "t"); ("n", VNum 1)]; VNum 7]);
        ("nested", VObj [("apiKey", VStr "k"); ("ok", VBool true)])].

(** An array directly inside an array. *)
Definition matrix : value := VObj [("rows", VArr [VArr [VNum 5; VNum 6]])].

End Examples.

(** ** Invariants and auxiliary notions of the proofs *)
Module Notions.
Import Js Events Factory Evaluator Async TransportInterface Tracker Hook
  BaseTransport FileTransport Redaction Store.

(** The running labels and reasons only grow. *)
Definition extends (s s' : Scoring) : Prop :=
  (exists l, cur_labels s' = cur_labels s ++ l) /\
  (exists r, cur_reasons s' = cur_reasons s ++ r).

(** The event types [evaluate] looks for. *)
Definition scored (e : TelemetryEvent) : bool :=
  has_type EventTypes.NODE_STARTED e || has_type EventTypes.NODE_COMPLETED e
  || has_type EventTypes.NODE_FAILED e || has_type EventTypes.WORKFLOW_COMPLETED e
  || has_type EventTypes.WORKFLOW_FAILED e || has_type EventTypes.LLM_REQUESTED e
  || has_type EventTypes.LLM_RESPONDED e.

(** [allNodeEndEvents]. *)
Definition node_end_events (events : list TelemetryEvent) : list TelemetryEvent :=
  List.filter (has_type EventTypes.NODE_COMPLETED) events
  ++ List.filter (has_type EventTypes.NODE_FAILED) events.

(** [slowNodes]. *)
Definition slow_nodes (config : EvaluatorConfig) (events : list TelemetryEvent)
  : list TelemetryEvent :=
  List.filter (duration_exceeds (maxNodeDurationMs config)) (node_end_events events).

(** [totalDurationMs]. *)
Definition total_duration (events : list TelemetryEvent) : option Z :=
  match List.find (has_type EventTypes.WORKFLOW_COMPLETED) events with
  | Some e => duration_ms e
  | None => match List.find (has_type EventTypes.WORKFLOW_FAILED) events with
            | Some e => duration_ms e
            | None => Some 0
            end
  end.

(** [avgNodeDurationMs]. *)
Definition avg_duration (events : list TelemetryEvent) : Q :=
  let nodeDurations := omap duration_ms (node_end_events events) in
  if (0 <? length nodeDurations)%nat
  then (inject_Z (foldl Z.add 0%Z nodeDurations)
        / inject_Z (Z.of_nat (length nodeDurations)))%Q
  else 0%Q.

(** The penalty of rule 3, in integer arithmetic. *)
Definition overage_penalty (config : EvaluatorConfig) (total : option Z) : Z :=
  match total with
  | Some t =>
      if maxWorkflowDurationMs config <? t
      then (t - maxWorkflowDurationMs config) * slowWorkflowPenaltyPerSecond config / 1000
      else 0
  | None => 0
  end.

(** The condition of rule 5. *)
Definition clean (config : EvaluatorConfig) (events : list TelemetryEvent) : bool :=
  bool_decide (is_Some (List.find (has_type EventTypes.WORKFLOW_COMPLETED) events))
  && (Z.of_nat (length (List.filter (has_type EventTypes.NODE_FAILED) events)) =? 0)
  && (Z.of_nat (length (slow_nodes config events)) =? 0).

(** The score the five rules add up to, before it is clamped. *)
Definition raw_score (config : EvaluatorConfig) (events : list TelemetryEvent) : Z :=
  (match List.find (has_type EventTypes.WORKFLOW_FAILED) events with
   | Some _ => Z.min 100 (workflowFailureMaxScore config)
   | None => 100
   end)
  - Z.of_nat (length (List.filter (has_type EventTypes.NODE_FAILED) events))
    * failedNodePenalty config
  - overage_penalty config (total_duration events)
  - Z.of_nat (length (slow_nodes config events)) * slowNodePenalty config
  + (if clean config events then successBonus config else 0).

(** The labels, in the order of the rules that push them. *)
Definition rule_labels : list string :=
  ["workflow_failed"; "node_failures"; "slow_execution"; "slow_nodes"; "clean_execution"].

(** The labels the five rules push.  *)
Definition pushed_labels (config : EvaluatorConfig) (events : list TelemetryEvent)
  : list string :=
  (if bool_decide (is_Some (List.find (has_type EventTypes.WORKFLOW_FAILED) events))
   then ["workflow_failed"] else [])
  ++ (if 0 <? Z.of_nat (length (List.filter (has_type EventTypes.NODE_FAILED) events))
      then ["node_failures"] else [])
  ++ (match total_duration events with
      | Some t => if maxWorkflowDurationMs config <? t then ["slow_execution"] else []
      | None => []
      end)
  ++ (if 0 <? Z.of_nat (length (slow_nodes config events)) then ["slow_nodes"] else [])
  ++ (if clean config events then ["clean_execution"] else []).

(** Every entry of the tracker's map is stored under its own execution id. *)
Definition keyed (t : gmap string ExecutionState) : Prop :=
  forall id s, t !! id = Some s -> executionId s = id.

(** The nodes an execution counts as completed or failed have a timing
    entry: they were started. *)
Definition started_only (s : ExecutionState) : Prop :=
  forall n, In n (completedNodes s) \/ In n (failedNodes s) ->
            is_Some (nodeTimings s !! n).

(** The calls that set or drop the timing of node [n] of execution [id]:
    a start of that node, and a start or the end of the execution. *)
Definition restarts (id n : string) (c : Api.call) : bool :=
  match c with
  | Api.StartExecution _ id' _ _ _ _ | Api.CleanupExecution id'
  | Api.OnWorkflowStart _ _ _ id' _ _ _ _ _ _ _
  | Api.OnWorkflowComplete _ _ _ _ _ id' _
  | Api.OnWorkflowFail _ _ _ _ _ id' _ _ _ _ => String.eqb id' id
  | Api.StartNode _ id' n' _ _ | Api.OnNodeStart _ _ _ id' n' _ _ _ =>
      String.eqb id' id && String.eqb n' n
  | _ => false
  end.

(** Every event the hook has recorded has the shape of its type. *)
Definition shaped_buffers {T : Type} (st : HookState T) : Prop :=
  map_Forall (fun _ events => forallb well_shaped events = true) (executionEvents st).

Section HookNotions.
Context {fmt : NumberFormat} {T : Type} {transport_T : Transport T}.
Variable config : TelemetryHookConfig.

(** Two hook states agree on execution [id]. *)
Definition same_at (id : string) (st st' : HookState T) : Prop :=
  tracker st' !! id = tracker st !! id /\
  executionEvents st' !! id = executionEvents st !! id.

(** An asynchronous step that keeps the tracker's invariant. *)
Definition keeps_keyed {A : Type} (m : Task (HookState T) A) : Prop :=
  forall st, keyed (tracker st) -> keyed (tracker (m st).1).

(** An asynchronous step that leaves execution [id] alone. *)
Definition frames (id : string) {A : Type} (m : Task (HookState T) A) : Prop :=
  forall st, same_at id st (m st).1.

(** The body of the two terminal callbacks, after the terminal event is built. *)
Definition finish (eid' ts' id : string) (context : ExecutionContext)
    (event : TelemetryEvent) : Task (HookState T) unit :=
  (sendEvent event >>
   (if enableEvaluation config
    then runEvaluation config eid' ts' id context
    else resolve ()) >>
   (fun st => (cleanup id st, Resolved ())))%task.

End HookNotions.

(** Lines, each followed by a newline. *)
Definition unlines (ls : list text) : text :=
  flat_map (fun l => l ++ [newline]) ls.

(** The same text read backwards. *)
Definition rev_unlines (ls : list text) : text :=
  flat_map (fun l => newline :: rev l) ls.

Fixpoint drop_empty (ls : list text) : list text :=
  match ls with
  | [] :: ls' => drop_empty ls'
  | _ => ls
  end.

(** A line of the file: empty, or JSON text. *)
Definition line_ok (l : text) : Prop := l = [] \/ json_line l = true.

Section FileNotions.
Context {codec : JsonCodec}.

(** The lines one call appends. *)
Definition lines_of (events : list TelemetryEvent) : list text :=
  match events with
  | [] => [[]]
  | _ => List.map stringify events
  end.

End FileNotions.

(** No array sits directly inside an array. *)
Fixpoint flat_arrays (v : value) : bool :=
  match v with
  | VObj props => forallb (fun kv => flat_arrays kv.2) props
  | VArr items =>
      forallb (fun x => match x with VArr _ => false | _ => flat_arrays x end) items
  | _ => true
  end.

(** No key of an object, at any depth, matches a field. *)
Fixpoint no_match (fields : list string) (v : value) : bool :=
  match v with
  | VObj props =>
      forallb (fun kv => negb (shouldRedact fields kv.1) && no_match fields kv.2) props
  | VArr items => forallb (no_match fields) items
  | _ => true
  end.

(** The fields [prepareEvent] redacts with. *)
Definition redact_fields (c : TransportConfig) : list string :=
  default DEFAULT_REDACT_FIELDS (read (redactFields c)).

(** The delays of [k] retries: [d], [2 d], ..., [k d]. *)
Definition backoff (d : Z) (k : nat) : list Z :=
  List.map (fun i => d * Z.of_nat i) (seq 1 k).

(** What holds of a file transport between two calls, [seen] being the
    prepared events it has been handed so far and [loaded] the events the
    constructor found in the file. *)
Definition file_invariant (loaded seen : list TelemetryEvent)
    (st : State FileState) : Prop :=
  writable (dest st) = true /\
  (is_buffered (config st) = false -> buffer st = []) /\
  inMemoryStore (dest st) ++ buffer st = loaded ++ seen.

(** An HTTP transport over a scripted network after some requests: the
    script that is left, the bodies sent, the delays waited for and the
    lines logged in the meantime. *)
Definition after_requests (st : HttpTransport.HttpState TransportApi.scripted)
    (rest : list (outcome unit)) (bodies : list (list ascii)) (delays : list Z)
    (lines : list string) : HttpTransport.HttpState TransportApi.scripted :=
  {| HttpTransport.http_endpoint := HttpTransport.http_endpoint st;
     HttpTransport.http_headers := HttpTransport.http_headers st;
     HttpTransport.http_timeoutMs := HttpTransport.http_timeoutMs st;
     HttpTransport.http_retries := HttpTransport.http_retries st;
     HttpTransport.http_retryDelayMs := HttpTransport.http_retryDelayMs st;
     HttpTransport.eventCache := HttpTransport.eventCache st;
     HttpTransport.net :=
       {| TransportApi.answers := rest;
          TransportApi.received := TransportApi.received (HttpTransport.net st) ++ bodies |};
     HttpTransport.slept := HttpTransport.slept st ++ delays;
     HttpTransport.console := HttpTransport.console st ++ lines |}.

(** A promise that rejected. *)
Definition rejected {A : Type} (r : outcome A) : bool :=
  match r with
  | Rejected _ => true
  | Resolved _ => false
  end.

(** References, as opposed to primitives. *)
Definition is_ref (rv : ref_value) : bool :=
  match rv with RRef _ => true | _ => false end.

Section StoreNotions.
Variable fields : list string.

(** What the recursive call does on trees of depth at most [n]: it
    returns, every cell of the heap it is given is unchanged, and the
    object it returns is made of cells that did not exist before. *)
Definition recur_ok (n : nat) (recur : heap -> addr -> option (heap * addr)) : Prop :=
  forall (H : heap) a v,
    repr (dom H) H (RRef a) v -> (depth v <= n)%nat ->
    exists H' r, recur H a = Some (H', r) /\ H ⊆ H' /\
      repr (dom H' ∖ dom H) H' (RRef r) (Redaction.redactSensitiveData fields v).

(** The cells built since the heap was [B], the container [c] under
    construction apart. *)
Definition built (B Hc : heap) (c : addr) : gset addr := dom Hc ∖ dom B ∖ {[c]}.

Definition entry_rel (S : gset addr) (h : heap)
    (kv : string * ref_value) (tkv : string * value) : Prop :=
  kv.1 = tkv.1 /\ repr S h kv.2 tkv.2.

End StoreNotions.

End Notions.

(* ================================================================== *)
(** * Part II: properties                                              *)
(* ================================================================== *)

(** ** The evaluator *)
Module EvaluatorFacts.
Import Js Events Factory Evaluator Examples Notions.

Lemma extends_refl s : extends s s.
Proof. split; exists []; by rewrite app_nil_r. Qed.

Lemma extends_trans s1 s2 s3 : extends s1 s2 -> extends s2 s3 -> extends s1 s3.
Proof.
  intros [[l1 Hl1] [r1 Hr1]] [[l2 Hl2] [r2 Hr2]]. split.
  - exists (l1 ++ l2). by rewrite Hl2, Hl1, app_assoc.
  - exists (r1 ++ r2). by rewrite Hr2, Hr1, app_assoc.
Qed.

Lemma extends_push_label l s : extends s (push_label l s).
Proof. split; simpl; [by exists [l] | exists []; by rewrite app_nil_r]. Qed.

Lemma extends_push_reason r s : extends s (push_reason r s).
Proof. split; simpl; [exists []; by rewrite app_nil_r | by exists [r]]. Qed.

Lemma extends_set_score n s : extends s (set_score n s).
Proof. split; simpl; exists []; by rewrite app_nil_r. Qed.

Lemma extends_label s s' l : extends s s' -> In l (cur_labels s) -> In l (cur_labels s').
Proof. intros [[x ->] _] ?. apply in_or_app. by left. Qed.

Lemma extends_reason s s' r : extends s s' -> In r (cur_reasons s) -> In r (cur_reasons s').
Proof. intros [_ [x ->]] ?. apply in_or_app. by left. Qed.

Create HintDb scoring.
#[local] Hint Resolve extends_refl extends_push_label extends_push_reason
  extends_set_score : scoring.

(** Loops: totality and invariants. *)
Lemma for_of_is_Some {A S : Type} (body : S -> A -> option S) xs s :
  (forall s x, In x xs -> is_Some (body s x)) -> is_Some (for_of body xs s).
Proof.
  revert s. induction xs as [|x xs IH]; intros s Hb; simpl; [by eexists|].
  destruct (Hb s x) as [s' Hs']; [by left|].
  rewrite Hs'. simpl. apply IH. intros. apply Hb. by right.
Qed.

Lemma for_of_invariant {A S : Type} (P : S -> Prop) (body : S -> A -> option S) xs s s' :
  (forall s x s', In x xs -> P s -> body s x = Some s' -> P s') ->
  P s -> for_of body xs s = Some s' -> P s'.
Proof.
  revert s. induction xs as [|x xs IH]; intros s Hb Hs; simpl.
  - by intros [= <-].
  - destruct (body s x) as [s1|] eqn:E; simpl; [|done].
    apply IH; [|by eapply Hb; [left| |]].
    intros ? ? ? ?. apply Hb. by right.
Qed.

Section Facts.
Context {fmt : NumberFormat}.
Variable config : EvaluatorConfig.

Lemma failed_lines_spec events s s' :
  for_of failed_node_line events s = Some s' ->
  extends s s' /\ cur_score s' = cur_score s.
Proof.
  apply (for_of_invariant (fun t => extends s t /\ cur_score t = cur_score s));
    [|split; auto with scoring].
  intros t x t' _ [Ht Hsc]. unfold failed_node_line.
  destruct (node_context x); simpl; [|done].
  destruct (payload x); simpl; [|done]. intros [= <-]. split; [|done].
  eapply extends_trans; eauto with scoring.
Qed.

Lemma slow_lines_spec events s s' :
  for_of slow_node_line events s = Some s' ->
  extends s s' /\ cur_score s' = cur_score s.
Proof.
  apply (for_of_invariant (fun t => extends s t /\ cur_score t = cur_score s));
    [|split; auto with scoring].
  intros t x t' _ [Ht Hsc]. unfold slow_node_line.
  destruct (node_context x); simpl; [|done].
  destruct (duration_ms x); simpl; [|done]. intros [= <-]. split; [|done].
  eapply extends_trans; eauto with scoring.
Qed.

Lemma rule_node_failures_spec events s s' :
  rule_node_failures config events s = Some s' ->
  extends s s' /\
  cur_score s' = cur_score s - Z.of_nat (length events) * failedNodePenalty config /\
  (events <> [] -> In "node_failures" (cur_labels s')).
Proof.
  unfold rule_node_failures. destruct events as [|e events].
  - simpl. intros [= <-]. split; [|split]; auto with scoring; [lia|done].
  - set (es := e :: events). replace (0 <? Z.of_nat (length es)) with true
      by (symmetry; apply Z.ltb_lt; simpl; lia).
    intros Hl. apply failed_lines_spec in Hl as [Hext Hsc]. simpl in Hsc.
    split; [|split]; [| done |].
    + eapply extends_trans; [|exact Hext].
      eapply extends_trans; [apply extends_set_score|].
      eapply extends_trans; [apply extends_push_label|apply extends_push_reason].
    + intros _. eapply extends_label; [exact Hext|]. simpl.
      apply in_or_app. right. by left.
Qed.

Lemma overage_penalty_nonneg total :
  maxWorkflowDurationMs config < total -> 0 <= slowWorkflowPenaltyPerSecond config ->
  0 <= Qfloor (seconds (total - maxWorkflowDurationMs config)
               * inject_Z (slowWorkflowPenaltyPerSecond config))%Q.
Proof.
  intros Hlt Hp. change 0 with (Qfloor 0). apply Qfloor_resp_le.
  apply Qmult_le_0_compat.
  - unfold seconds. apply Qle_shift_div_l; [reflexivity|].
    rewrite Qmult_0_l. change 0%Q with (inject_Z 0). rewrite <- Zle_Qle. lia.
  - change 0%Q with (inject_Z 0). by rewrite <- Zle_Qle.
Qed.

Lemma rule_slow_execution_spec total s :
  0 <= slowWorkflowPenaltyPerSecond config ->
  extends s (rule_slow_execution config total s) /\
  cur_score (rule_slow_execution config total s) <= cur_score s.
Proof.
  intros Hp. unfold rule_slow_execution. destruct total as [total|]; [|split; auto with scoring; lia].
  destruct (Z.ltb_spec (maxWorkflowDurationMs config) total) as [Hlt|_];
    [|split; auto with scoring; lia].
  split.
  - eapply extends_trans; [apply extends_set_score|].
    eapply extends_trans; [apply extends_push_label|apply extends_push_reason].
  - cbn [cur_score set_score push_label push_reason].
    pose proof (overage_penalty_nonneg total Hlt Hp). lia.
Qed.

Lemma rule_slow_nodes_spec events s s' :
  rule_slow_nodes config events s = Some s' ->
  extends s s' /\
  cur_score s' = cur_score s - Z.of_nat (length events) * slowNodePenalty config.
Proof.
  unfold rule_slow_nodes. destruct (Z.ltb_spec 0 (Z.of_nat (length events))) as [Hlt|Hle].
  - intros Hl. apply slow_lines_spec in Hl as [Hext Hsc]. simpl in Hsc. split; [|done].
    eapply extends_trans; [|exact Hext].
    eapply extends_trans; [apply extends_set_score|].
    eapply extends_trans; [apply extends_push_label|apply extends_push_reason].
  - intros [= <-]. split; auto with scoring.
    destruct events; simpl in *; lia.
Qed.

Lemma rule_clean_execution_spec wc failed slow s :
  extends s (rule_clean_execution config wc failed slow s) /\
  (failed <> 0 -> rule_clean_execution config wc failed slow s = s).
Proof.
  unfold rule_clean_execution. split.
  - destruct (_ && _); auto with scoring.
    eapply extends_trans; [apply extends_set_score|].
    eapply extends_trans; [apply extends_push_label|apply extends_push_reason].
  - intros Hf. apply Z.eqb_neq in Hf. rewrite Hf. by rewrite andb_false_r.
Qed.

Lemma rule_workflow_failed_spec e p s s' :
  payload e = Some p ->
  rule_workflow_failed config (Some e) s = Some s' ->
  cur_score s' = Z.min (cur_score s) (workflowFailureMaxScore config) /\
  extends s s' /\
  In "workflow_failed" (cur_labels s') /\
  In ("Workflow failed: " +:+ ToString (get p "error_message")) (cur_reasons s').
Proof.
  intros Hp. unfold rule_workflow_failed. rewrite Hp. simpl.
  destruct (truthy (get p "error_node")); intros [= <-]; simpl;
    (split; [done|split; [|split]]); rewrite ?in_app_iff; simpl; auto.
  - split; simpl; [by eexists|].
    exists ["Workflow failed: " +:+ ToString (get p "error_message");
            "Error occurred in node: " +:+ ToString (get p "error_node")].
    by rewrite <- app_assoc.
  - split; simpl; by eexists.
Qed.

(** What the event shapes give to the dereferences of [evaluate]. *)
Lemma shaped_in events e :
  forallb well_shaped events = true -> In e events -> well_shaped e = true.
Proof. intros Hall. by apply forallb_forall. Qed.

Lemma shaped_node_end e :
  well_shaped e = true ->
  has_type EventTypes.NODE_COMPLETED e || has_type EventTypes.NODE_FAILED e = true ->
  is_Some (node_context e).
Proof.
  unfold well_shaped. intros Hs Ht.
  destruct (has_type EventTypes.NODE_COMPLETED e), (has_type EventTypes.NODE_FAILED e);
    try done; simpl in Hs;
    repeat match goal with
           | H : _ && _ = true |- _ => apply andb_prop in H as [? ?]
           | H : bool_decide _ = true |- _ => apply bool_decide_eq_true in H
           end; done.
Qed.

Lemma shaped_node_failed e :
  well_shaped e = true -> has_type EventTypes.NODE_FAILED e = true ->
  is_Some (payload e).
Proof.
  unfold well_shaped. intros Hs Ht. rewrite Ht in Hs.
  repeat match goal with
         | H : _ && _ = true |- _ => apply andb_prop in H as [? ?]
         | H : bool_decide _ = true |- _ => apply bool_decide_eq_true in H
         end; done.
Qed.

Lemma shaped_workflow_failed e :
  well_shaped e = true -> has_type EventTypes.WORKFLOW_FAILED e = true ->
  is_Some (payload e).
Proof.
  unfold well_shaped. intros Hs Ht. rewrite Ht in Hs.
  repeat match goal with
         | H : _ && _ = true |- _ => apply andb_prop in H as [? ?]
         | H : bool_decide _ = true |- _ => apply bool_decide_eq_true in H
         end; done.
Qed.

Lemma shaped_llm_responded e :
  well_shaped e = true -> has_type EventTypes.LLM_RESPONDED e = true ->
  exists p, payload e = Some p /\ well_typed_tokens p = true.
Proof.
  unfold well_shaped. intros Hs Ht. rewrite Ht in Hs.
  apply andb_prop in Hs as [_ Hs]. destruct (payload e) as [p|]; [|done]. eauto.
Qed.

Lemma in_node_end events e :
  In e (List.filter (has_type EventTypes.NODE_COMPLETED) events
        ++ List.filter (has_type EventTypes.NODE_FAILED) events) ->
  In e events /\
  has_type EventTypes.NODE_COMPLETED e || has_type EventTypes.NODE_FAILED e = true.
Proof.
  rewrite in_app_iff, !filter_In. intros [[? ->]|[? ->]]; split; auto.
  by rewrite orb_true_r.
Qed.

(** Each step of [evaluate] returns on well-shaped events. *)
Lemma slowest_total events acc :
  forallb well_shaped events = true ->
  is_Some (for_of slowest_step
             (List.filter (has_type EventTypes.NODE_COMPLETED) events
              ++ List.filter (has_type EventTypes.NODE_FAILED) events) acc).
Proof.
  intros Hall. apply for_of_is_Some. intros a e [Hin Ht]%in_node_end.
  destruct (shaped_node_end e) as [nc Hnc]; [by eapply shaped_in| done |].
  unfold slowest_step. rewrite Hnc.
  destruct (duration_ms e); [|by eexists]. simpl. destruct a as [sn|].
  - destruct (_ <? _); by eexists.
  - by eexists.
Qed.

Lemma rule_workflow_failed_total events s :
  forallb well_shaped events = true ->
  is_Some (rule_workflow_failed config
             (List.find (has_type EventTypes.WORKFLOW_FAILED) events) s).
Proof.
  intros Hall. destruct (List.find _ events) as [e|] eqn:E; [|by eexists].
  apply find_some in E as [Hin Ht].
  destruct (shaped_workflow_failed e) as [p Hp]; [by eapply shaped_in| done |].
  simpl. rewrite Hp. simpl. by eexists.
Qed.

Lemma rule_node_failures_total events s :
  forallb well_shaped events = true ->
  is_Some (rule_node_failures config
             (List.filter (has_type EventTypes.NODE_FAILED) events) s).
Proof.
  intros Hall. unfold rule_node_failures. destruct (_ <? _); [|by eexists].
  apply for_of_is_Some. intros a e [Hin Ht]%filter_In.
  pose proof (shaped_in _ _ Hall Hin) as Hs.
  destruct (shaped_node_end e) as [nc Hnc]; [done| by rewrite Ht, orb_true_r |].
  destruct (shaped_node_failed e) as [p Hp]; [done..|].
  unfold failed_node_line. rewrite Hnc, Hp. by eexists.
Qed.

Lemma rule_slow_nodes_total events limit s :
  forallb well_shaped events = true ->
  is_Some (rule_slow_nodes config
             (List.filter (duration_exceeds limit)
                (List.filter (has_type EventTypes.NODE_COMPLETED) events
                 ++ List.filter (has_type EventTypes.NODE_FAILED) events)) s).
Proof.
  intros Hall. unfold rule_slow_nodes. destruct (_ <? _); [|by eexists].
  apply for_of_is_Some. intros a e [[Hin Ht]%in_node_end Hd]%filter_In.
  destruct (shaped_node_end e) as [nc Hnc]; [by eapply shaped_in| done |].
  unfold slow_node_line, duration_exceeds in *. rewrite Hnc.
  destruct (duration_ms e); [by eexists|done].
Qed.

Lemma llm_metrics_total events :
  forallb well_shaped events = true -> is_Some (llm_metrics_of events).
Proof.
  intros Hall. unfold llm_metrics_of. destruct (_ <? _)%nat; [|by eexists].
  destruct (for_of_is_Some llm_step
              (List.filter (has_type EventTypes.LLM_RESPONDED) events) (0, 0))
    as [[t l] Htl]; [|rewrite Htl; by eexists].
  intros a e [Hin Ht]%filter_In.
  destruct (shaped_llm_responded e) as (p & Hp & Htok); [by eapply shaped_in| done |].
  unfold llm_step. rewrite Hp. simpl. unfold well_typed_tokens in Htok.
  destruct (get p "total_tokens") as [| |b|n|str|?|?]; simpl in *;
    try done; try by eexists.
  - destruct b; [done|by eexists].
  - destruct (String.eqb str ""); [by eexists|done].
Qed.

(** [evaluate] written as its steps. *)
Lemma evaluate_steps events r :
  evaluate config events = Some r ->
  let failedEvents := List.filter (has_type EventTypes.NODE_FAILED) events in
  let endEvents := List.filter (has_type EventTypes.NODE_COMPLETED) events ++ failedEvents in
  let slowNodes := List.filter (duration_exceeds (maxNodeDurationMs config)) endEvents in
  exists total s1 s2 s4,
    rule_workflow_failed config (List.find (has_type EventTypes.WORKFLOW_FAILED) events)
      {| cur_score := 100; cur_labels := []; cur_reasons := [] |} = Some s1 /\
    rule_node_failures config failedEvents s1 = Some s2 /\
    rule_slow_nodes config slowNodes (rule_slow_execution config total s2) = Some s4 /\
    let s5 := rule_clean_execution config
                (List.find (has_type EventTypes.WORKFLOW_COMPLETED) events)
                (Z.of_nat (length failedEvents)) (Z.of_nat (length slowNodes)) s4 in
    score r = Z.max 0 (Z.min 100 (cur_score s5)) /\
    labels r = cur_labels s5 /\ reasons r = cur_reasons s5.
Proof.
  unfold evaluate. intros Hev.
  destruct (for_of slowest_step _ None) as [slowest|]; simpl in Hev; [|done].
  destruct (rule_workflow_failed _ _ _) as [s1|] eqn:E1; simpl in Hev; [|done].
  destruct (rule_node_failures _ _ _) as [s2|] eqn:E2; simpl in Hev; [|done].
  destruct (rule_slow_nodes _ _ _) as [s4|] eqn:E4; simpl in Hev; [|done].
  destruct (llm_metrics_of events) as [llm|]; simpl in Hev; [|done].
  injection Hev as <-. simpl. eauto 10.
Qed.

Lemma evaluate_total events :
  forallb well_shaped events = true -> is_Some (evaluate config events).
Proof.
  intros Hall. unfold evaluate.
  destruct (slowest_total events None Hall) as [slowest ->]. simpl.
  destruct (rule_workflow_failed_total events
              {| cur_score := 100; cur_labels := []; cur_reasons := [] |} Hall)
    as [s1 ->]. simpl.
  destruct (rule_node_failures_total events s1 Hall) as [s2 ->]. simpl.
  match goal with
  | |- context [rule_slow_nodes config ?l ?s] =>
      destruct (rule_slow_nodes_total events (maxNodeDurationMs config) s Hall) as [s4 ->]
  end. simpl.
  destruct (llm_metrics_total events Hall) as [llm ->]. simpl. by eexists.
Qed.

Lemma evaluate_clamped events r :
  evaluate config events = Some r -> 0 <= score r <= 100.
Proof. intros (? & ? & ? & ? & _ & _ & _ & -> & _)%evaluate_steps. lia. Qed.

End Facts.






End EvaluatorFacts.

(** ** The tracker and the hook *)
Module HookFacts.
Import Js Events Factory Async TransportInterface Tracker Hook Api Examples Notions.

Lemma keyed_empty : keyed ∅.
Proof. intros id s. by rewrite lookup_empty. Qed.

Lemma keyed_insert t id s : keyed t -> executionId s = id -> keyed (<[id := s]> t).
Proof.
  intros Ht Hs id' s'. destruct (decide (id = id')) as [<-|Hne].
  - rewrite lookup_insert_eq. by intros [= <-].
  - rewrite lookup_insert_ne by done. apply Ht.
Qed.

Lemma keyed_delete t id : keyed t -> keyed (delete id t).
Proof.
  intros Ht id' s'. destruct (decide (id = id')) as [<-|Hne].
  - by rewrite lookup_delete_eq.
  - rewrite lookup_delete_ne by done. apply Ht.
Qed.

(** The tracker's operations: the invariant, and the frame. *)
Lemma startExecution_keyed now id wid wname sid md t :
  keyed t -> keyed (startExecution now id wid wname sid md t).1.
Proof. intros. by apply keyed_insert. Qed.

Lemma startNode_keyed now id n nc cnt t : keyed t -> keyed (startNode now id n nc cnt t).1.
Proof.
  intros Ht. unfold startNode. destruct (t !! id) as [s|] eqn:E; simpl; [|done].
  apply keyed_insert; [done|]. simpl. by apply Ht.
Qed.

Lemma completeNode_keyed now id n t : keyed t -> keyed (completeNode now id n t).1.
Proof.
  intros Ht. unfold completeNode. destruct (t !! id) as [s|] eqn:E; simpl; [|done].
  destruct (nodeTimings s !! n); simpl; [|done].
  apply keyed_insert; [done|]. simpl. by apply Ht.
Qed.

Lemma failNode_keyed now id n t : keyed t -> keyed (failNode now id n t).1.
Proof.
  intros Ht. unfold failNode. destruct (t !! id) as [s|] eqn:E; simpl; [|done].
  destruct (nodeTimings s !! n); simpl; [|done].
  apply keyed_insert; [done|]. simpl. by apply Ht.
Qed.

Lemma startExecution_frame now id wid wname sid md t id' :
  id <> id' -> (startExecution now id wid wname sid md t).1 !! id' = t !! id'.
Proof. intros. by apply lookup_insert_ne. Qed.

Lemma startNode_frame now id n nc cnt t id' :
  id <> id' -> (startNode now id n nc cnt t).1 !! id' = t !! id'.
Proof.
  intros. unfold startNode. destruct (t !! id); simpl; [|done]. by apply lookup_insert_ne.
Qed.

Lemma completeNode_frame now id n t id' :
  id <> id' -> (completeNode now id n t).1 !! id' = t !! id'.
Proof.
  intros. unfold completeNode. destruct (t !! id) as [s|]; simpl; [|done].
  destruct (nodeTimings s !! n); simpl; [|done]. by apply lookup_insert_ne.
Qed.

Lemma failNode_frame now id n t id' :
  id <> id' -> (failNode now id n t).1 !! id' = t !! id'.
Proof.
  intros. unfold failNode. destruct (t !! id) as [s|]; simpl; [|done].
  destruct (nodeTimings s !! n); simpl; [|done]. by apply lookup_insert_ne.
Qed.

Lemma cleanupExecution_frame id t id' :
  id <> id' -> cleanupExecution id t !! id' = t !! id'.
Proof. intros. by apply lookup_delete_ne. Qed.

Section Facts.
Context {fmt : NumberFormat} {T : Type} {transport_T : Transport T}.
Variable config : TelemetryHookConfig.

Lemma same_at_refl id (st : HookState T) : same_at id st st.
Proof. by split. Qed.

Lemma same_at_trans id (st1 st2 st3 : HookState T) :
  same_at id st1 st2 -> same_at id st2 st3 -> same_at id st1 st3.
Proof. intros [? ?] [? ?]. split; congruence. Qed.

Lemma keeps_and_then {A B : Type} (m : Task (HookState T) A) (k : Task (HookState T) B) :
  keeps_keyed m -> keeps_keyed k -> keeps_keyed (m >> k)%task.
Proof.
  intros Hm Hk st Hst. unfold and_then, bind. specialize (Hm st Hst).
  destruct (m st) as [st1 [a|reason]]; [|done]. by apply Hk.
Qed.

Lemma frames_and_then id {A B : Type} (m : Task (HookState T) A) (k : Task (HookState T) B) :
  frames id m -> frames id k -> frames id (m >> k)%task.
Proof.
  intros Hm Hk st. unfold and_then, bind. specialize (Hm st).
  destruct (m st) as [st1 [a|reason]]; [|done].
  eapply same_at_trans; [exact Hm|apply Hk].
Qed.

Lemma keeps_resolve {A : Type} (a : A) : keeps_keyed (resolve a : Task (HookState T) A).
Proof. by intros st. Qed.

Lemma frames_resolve id {A : Type} (a : A) : frames id (resolve a : Task (HookState T) A).
Proof. intros st. apply same_at_refl. Qed.

Lemma keeps_sendEvent event : keeps_keyed (sendEvent event).
Proof.
  intros st Hst. unfold sendEvent, on_transport. simpl.
  by destruct (send event (transport st)).
Qed.

Lemma frames_sendEvent id event : execution_id event <> id -> frames id (sendEvent event).
Proof.
  intros Hne st. unfold sendEvent, on_transport. simpl.
  destruct (send event (transport st)) as [t' r]. simpl.
  split; simpl; [done|]. by apply lookup_insert_ne.
Qed.

Lemma keeps_runEvaluation eid' ts' id1 context :
  keeps_keyed (runEvaluation config eid' ts' id1 context).
Proof.
  intros st Hst. unfold runEvaluation.
  destruct (default [] (executionEvents st !! id1)); [done|].
  destruct (Evaluator.evaluate _ _); [|done]. by apply keeps_sendEvent.
Qed.

Lemma frames_runEvaluation id eid' ts' id1 context :
  ctx_execution_id context <> id -> frames id (runEvaluation config eid' ts' id1 context).
Proof.
  intros Hne st. unfold runEvaluation.
  destruct (default [] (executionEvents st !! id1)); [apply same_at_refl|].
  destruct (Evaluator.evaluate _ _); [|apply same_at_refl].
  by apply frames_sendEvent.
Qed.

Lemma keeps_cleanup id1 :
  keeps_keyed (fun st : HookState T => (cleanup id1 st, Resolved ())).
Proof. intros st Hst. simpl. by apply keyed_delete. Qed.

Lemma frames_cleanup id id1 :
  id1 <> id -> frames id (fun st : HookState T => (cleanup id1 st, Resolved ())).
Proof. intros Hne st. split; simpl; by apply lookup_delete_ne. Qed.

Lemma context_execution_id id (st : HookState T) context :
  keyed (tracker st) -> getExecutionContext config id st = Some context ->
  ctx_execution_id context = id.
Proof.
  intros Hk. unfold getExecutionContext, getExecution.
  destruct (tracker st !! id) as [s|] eqn:E; simpl; [|done].
  intros [= <-]. simpl. by apply Hk.
Qed.

Lemma keeps_finish eid' ts' id context event : keeps_keyed (finish config eid' ts' id context event).
Proof.
  apply keeps_and_then; [apply keeps_sendEvent|].
  apply keeps_and_then; [|apply keeps_cleanup].
  destruct (enableEvaluation config); [apply keeps_runEvaluation|apply keeps_resolve].
Qed.

Lemma frames_finish id' eid' ts' id context event :
  id <> id' -> ctx_execution_id context = id -> execution_id event = id ->
  frames id' (finish config eid' ts' id context event).
Proof.
  intros Hne Hc He.
  apply frames_and_then; [apply frames_sendEvent; congruence|].
  apply frames_and_then; [|by apply frames_cleanup].
  destruct (enableEvaluation config);
    [apply frames_runEvaluation; congruence|apply frames_resolve].
Qed.

(** Every call keeps the invariant. *)
Lemma run_call_keyed c (st : HookState T) :
  keyed (tracker st) -> keyed (tracker (run_call config c st)).
Proof.
  intros Hk.
  destruct c as
    [ now id wid wname sid md
    | now id n nc cnt
    | now id n
    | now id n
    | now id
    | id
    | now eid ts id wid wname mode sid manual retry md
    | now eid ts eid' ts' id mode
    | now eid ts eid' ts' id msg ename estack enode
    | now eid ts id n ty nid cnt
    | now eid ts id n ty nid cnt
    | now eid ts id n ty nid msg ename ]; simpl.
  - by apply startExecution_keyed.
  - by apply startNode_keyed.
  - by apply completeNode_keyed.
  - by apply failNode_keyed.
  - done.
  - by apply keyed_delete.
  - unfold onWorkflowStart.
    set (st1 := set_executionEvents _ (set_tracker _ st)).
    assert (Hk1 : keyed (tracker st1)) by (by apply startExecution_keyed).
    destruct (getExecutionContext config id st1); [|done].
    by apply keeps_sendEvent.
  - unfold onWorkflowComplete.
    destruct (getExecutionContext config id st) as [context|]; [|done].
    destruct (completeExecution now id (tracker st)) as [duration nodeCount].
    by apply (keeps_finish eid' ts' id context).
  - unfold onWorkflowFail.
    destruct (getExecutionContext config id st) as [context|]; [|done].
    destruct (completeExecution now id (tracker st)) as [duration nodeCount].
    by apply (keeps_finish eid' ts' id context).
  - unfold onNodeStart.
    destruct (getExecutionContext config id st) as [context|]; [|done].
    apply keeps_sendEvent. by apply startNode_keyed.
  - unfold onNodeComplete.
    destruct (getExecutionContext config id st) as [context|]; [|done].
    pose proof (completeNode_keyed now id n (tracker st) Hk) as Hkk.
    destruct (completeNode now id n (tracker st)) as [t duration].
    by apply keeps_sendEvent.
  - unfold onNodeFail.
    destruct (getExecutionContext config id st) as [context|]; [|done].
    pose proof (failNode_keyed now id n (tracker st) Hk) as Hkk.
    destruct (failNode now id n (tracker st)) as [t duration].
    by apply keeps_sendEvent.
Qed.

Lemma run_calls_keyed cs (t0 : T) : keyed (tracker (run_calls config cs (initial t0))).
Proof.
  unfold run_calls. induction cs as [|c cs IH] using rev_ind; [apply keyed_empty|].
  rewrite foldl_app. simpl. by apply run_call_keyed.
Qed.

(** One call frames every other execution. *)
Lemma run_call_frame c (st : HookState T) id' :
  keyed (tracker st) -> call_id c <> id' -> same_at id' st (run_call config c st).
Proof.
  intros Hk Hne.
  destruct c as
    [ now id wid wname sid md
    | now id n nc cnt
    | now id n
    | now id n
    | now id
    | id
    | now eid ts id wid wname mode sid manual retry md
    | now eid ts eid' ts' id mode
    | now eid ts eid' ts' id msg ename estack enode
    | now eid ts id n ty nid cnt
    | now eid ts id n ty nid cnt
    | now eid ts id n ty nid msg ename ]; simpl in Hne |- *.
  - split; [by apply startExecution_frame|done].
  - split; [by apply startNode_frame|done].
  - split; [by apply completeNode_frame|done].
  - split; [by apply failNode_frame|done].
  - apply same_at_refl.
  - split; [by apply cleanupExecution_frame|done].
  - unfold onWorkflowStart.
    set (st1 := set_executionEvents _ (set_tracker _ st)).
    assert (Hk1 : keyed (tracker st1)) by (by apply startExecution_keyed).
    assert (Hs1 : same_at id' st st1).
    { split; simpl; by apply lookup_insert_ne. }
    destruct (getExecutionContext config id st1) as [context|] eqn:E; [|done].
    eapply same_at_trans; [exact Hs1|]. apply frames_sendEvent. simpl.
    by rewrite (context_execution_id _ _ _ Hk1 E).
  - unfold onWorkflowComplete.
    destruct (getExecutionContext config id st) as [context|] eqn:E;
      [|apply same_at_refl].
    pose proof (context_execution_id _ _ _ Hk E) as Hc.
    destruct (completeExecution now id (tracker st)) as [duration nodeCount].
    by apply (frames_finish id' eid' ts' id context).
  - unfold onWorkflowFail.
    destruct (getExecutionContext config id st) as [context|] eqn:E;
      [|apply same_at_refl].
    pose proof (context_execution_id _ _ _ Hk E) as Hc.
    destruct (completeExecution now id (tracker st)) as [duration nodeCount].
    by apply (frames_finish id' eid' ts' id context).
  - unfold onNodeStart.
    destruct (getExecutionContext config id st) as [context|] eqn:E;
      [|apply same_at_refl].
    pose proof (context_execution_id _ _ _ Hk E) as Hc.
    eapply same_at_trans; [|apply frames_sendEvent; simpl; congruence].
    split; [by apply startNode_frame|done].
  - unfold onNodeComplete.
    destruct (getExecutionContext config id st) as [context|] eqn:E;
      [|apply same_at_refl].
    pose proof (context_execution_id _ _ _ Hk E) as Hc.
    pose proof (completeNode_frame now id n (tracker st) id' Hne) as Hf.
    destruct (completeNode now id n (tracker st)) as [t duration].
    eapply same_at_trans; [|apply frames_sendEvent; simpl; congruence].
    by split.
  - unfold onNodeFail.
    destruct (getExecutionContext config id st) as [context|] eqn:E;
      [|apply same_at_refl].
    pose proof (context_execution_id _ _ _ Hk E) as Hc.
    pose proof (failNode_frame now id n (tracker st) id' Hne) as Hf.
    destruct (failNode now id n (tracker st)) as [t duration].
    eapply same_at_trans; [|apply frames_sendEvent; simpl; congruence].
    by split.
Qed.

(** An execution the trace never started is unknown to the tracker, and so
    is one that was cleaned up. *)
Lemma never_started_unknown cs (t0 : T) id :
  Forall (fun c => call_id c <> id) cs ->
  tracker (run_calls config cs (initial t0)) !! id = None.
Proof.
  unfold run_calls. induction cs as [|c cs IH] using rev_ind; intros Hall.
  - apply lookup_empty.
  - apply Forall_app in Hall as [Hcs Hc]. apply Forall_inv in Hc.
    rewrite foldl_app. simpl.
    destruct (run_call_frame c (foldl (fun st c => run_call config c st) (initial t0) cs) id)
      as [-> _]; [apply run_calls_keyed|done|by apply IH].
Qed.

Lemma cleaned_up_unknown (st : HookState T) id : tracker (cleanup id st) !! id = None.
Proof. apply lookup_delete_eq. Qed.

End Facts.

(** C5. For an execution id the tracker does not hold (never started, or
    cleaned up), [completeNode] and [failNode] return 0, [completeExecution]
    returns duration 0 and node count 0, [startNode] records nothing, and
    the hook's node and terminal workflow callbacks resolve without sending
    an event and without changing any state. *)
Theorem unknown_execution_noop {fmt : NumberFormat} {T : Type}
    {transport_T : Transport T} (config : TelemetryHookConfig)
    (st : HookState T) (id : string) :
  tracker st !! id = None ->
  (forall now n, completeNode now id n (tracker st) = (tracker st, 0)) /\
  (forall now n, failNode now id n (tracker st) = (tracker st, 0)) /\
  (forall now, completeExecution now id (tracker st) = (0, 0)) /\
  (forall now n nc cnt, startNode now id n nc cnt (tracker st) = (tracker st, None)) /\
  (forall now eid ts n ty nid cnt,
     onNodeStart config now eid ts id n ty nid cnt st = (st, Resolved ())) /\
  (forall now eid ts n ty nid cnt,
     onNodeComplete config now eid ts id n ty nid cnt st = (st, Resolved ())) /\
  (forall now eid ts n ty nid msg ename,
     onNodeFail config now eid ts id n ty nid msg ename st = (st, Resolved ())) /\
  (forall now eid ts eid' ts' mode,
     onWorkflowComplete config now eid ts eid' ts' id mode st = (st, Resolved ())) /\
  (forall now eid ts eid' ts' msg ename estack enode,
     onWorkflowFail config now eid ts eid' ts' id msg ename estack enode st
     = (st, Resolved ())).
Proof.
  intros Hid.
  assert (Hctx : getExecutionContext config id st = None).
  { unfold getExecutionContext, getExecution. by rewrite Hid. }
  repeat split; intros;
    unfold completeNode, failNode, completeExecution, startNode, onNodeStart,
      onNodeComplete, onNodeFail, onWorkflowComplete, onWorkflowFail;
    rewrite ?Hid, ?Hctx; reflexivity.
Qed.

Lemma unknown_execution_noop_witness :
  let st : HookState (list TelemetryEvent) :=
    cleanup "exec-A"
      (run_calls (fmt := exact_format) (transport_T := memory_transport)
         default_hook_config interleaved (initial [])) in
  (forall now n, completeNode now "exec-A" n (tracker st) = (tracker st, 0)) /\
  (forall now n, failNode now "exec-A" n (tracker st) = (tracker st, 0)) /\
  (forall now, completeExecution now "exec-A" (tracker st) = (0, 0)) /\
  (forall now n nc cnt, startNode now "exec-A" n nc cnt (tracker st) = (tracker st, None)) /\
  (forall now eid ts n ty nid cnt,
     onNodeStart (transport_T := memory_transport)
       default_hook_config now eid ts "exec-A" n ty nid cnt st = (st, Resolved ())) /\
  (forall now eid ts n ty nid cnt,
     onNodeComplete (transport_T := memory_transport)
       default_hook_config now eid ts "exec-A" n ty nid cnt st = (st, Resolved ())) /\
  (forall now eid ts n ty nid msg ename,
     onNodeFail (transport_T := memory_transport)
       default_hook_config now eid ts "exec-A" n ty nid msg ename st = (st, Resolved ())) /\
  (forall now eid ts eid' ts' mode,
     onWorkflowComplete (fmt := exact_format) (transport_T := memory_transport)
       default_hook_config now eid ts eid' ts' "exec-A" mode st = (st, Resolved ())) /\
  (forall now eid ts eid' ts' msg ename estack enode,
     onWorkflowFail (fmt := exact_format) (transport_T := memory_transport)
       default_hook_config now eid ts eid' ts' "exec-A" msg ename estack enode st
     = (st, Resolved ())).
Proof.
  apply (unknown_execution_noop (fmt := exact_format) (transport_T := memory_transport)).
  apply lookup_delete_eq.
Defined.

(** C7. In every state the hook reaches, an operation of the tracker or a
    callback of the hook that is keyed by one execution id leaves the
    tracker's [ExecutionState] and the event buffer of every other execution
    id unchanged, whatever the transport does. *)
Theorem execution_isolation {fmt : NumberFormat} {T : Type}
    {transport_T : Transport T} (config : TelemetryHookConfig) (t0 : T)
    (calls : list call) (c : call) (id : string) :
  call_id c <> id ->
  tracker (run_call config c (run_calls config calls (initial t0))) !! id
  = tracker (run_calls config calls (initial t0)) !! id /\
  executionEvents (run_call config c (run_calls config calls (initial t0))) !! id
  = executionEvents (run_calls config calls (initial t0)) !! id.
Proof.
  intros Hne. apply run_call_frame; [apply run_calls_keyed|done].
Qed.

Lemma execution_isolation_witness :
  tracker (run_call (fmt := exact_format) (transport_T := memory_transport)
             default_hook_config
             (OnWorkflowComplete 1020 "a4" "t6" "a5" "t7" "exec-A" None)
             (run_calls (fmt := exact_format) (transport_T := memory_transport)
                default_hook_config interleaved (initial []))) !! "exec-B"
  = tracker (run_calls (fmt := exact_format) (transport_T := memory_transport)
               default_hook_config interleaved (initial [])) !! "exec-B" /\
  executionEvents
    (run_call (fmt := exact_format) (transport_T := memory_transport)
       default_hook_config
       (OnWorkflowComplete 1020 "a4" "t6" "a5" "t7" "exec-A" None)
       (run_calls (fmt := exact_format) (transport_T := memory_transport)
          default_hook_config interleaved (initial []))) !! "exec-B"
  = executionEvents
      (run_calls (fmt := exact_format) (transport_T := memory_transport)
         default_hook_config interleaved (initial [])) !! "exec-B".
Proof.
  apply (execution_isolation (fmt := exact_format) (transport_T := memory_transport)).
  discriminate.
Defined.

End HookFacts.

(** ** The transports *)
Module TransportFacts.
Import Js Events Async TransportInterface BaseTransport Examples Notions.

Section Base.
Context {D : Type} {destination_D : Destination D}.

Lemma flush_empty (st : State D) : buffer st = [] -> flush st = (st, Resolved ()).
Proof. unfold flush. by intros ->. Qed.

(** What [flush] hands to the destination: the whole buffer, as one batch. *)
Lemma flush_nonempty (st : State D) :
  buffer st <> [] ->
  flush st = on_dest (doSendBatch (buffer st)) (set_buffer [] st).
Proof. unfold flush. by destruct (buffer st). Qed.

Lemma flush_buffer (st : State D) : buffer (flush st).1 = [].
Proof.
  unfold flush. destruct (buffer st) as [|e es] eqn:E; [done|].
  unfold on_dest. simpl. by destruct (doSendBatch _ _).
Qed.

Lemma flush_timers (st : State D) : timers (flush st).1 = timers st.
Proof.
  unfold flush. destruct (buffer st) as [|e es]; [done|].
  unfold on_dest. simpl. by destruct (doSendBatch _ _).
Qed.

Lemma on_dest_timers {A : Type} (m : Task D A) (st : State D) :
  timers (on_dest m st).1 = timers st.
Proof. unfold on_dest. by destruct (m (dest st)). Qed.

Lemma on_dest_buffer {A : Type} (m : Task D A) (st : State D) :
  buffer (on_dest m st).1 = buffer st.
Proof. unfold on_dest. by destruct (m (dest st)). Qed.

End Base.

(** C10. [flush] empties the buffer before it attempts delivery: when
    [doSendBatch] then rejects, the rejection reaches the caller, the
    buffer no longer holds the events, and a later [flush] or [close] hands
    nothing to [doSendBatch] any more. *)
Theorem flush_failure_loses_buffer {D : Type} {destination_D : Destination D}
    (st : State D) (d' : D) (reason : string) :
  buffer st <> [] ->
  doSendBatch (buffer st) (dest st) = (d', Rejected reason) ->
  (flush st).2 = Rejected reason /\
  buffer (flush st).1 = [] /\
  dest (flush st).1 = d' /\
  flush (flush st).1 = ((flush st).1, Resolved ()) /\
  dest (close (flush st).1).1 = (doClose d').1 /\
  (close (flush st).1).2 = (doClose d').2.
Proof.
  intros Hne Hsend. rewrite (flush_nonempty st Hne).
  unfold on_dest. simpl. rewrite Hsend. simpl.
  split; [done|]. split; [done|]. split; [done|]. split; [done|].
  unfold close, and_then, bind, flush, on_dest. simpl.
  destruct (flushTimer st); simpl; by destruct (doClose d').
Qed.

Lemma flush_failure_loses_buffer_witness :
  (flush (destination_D := FileTransport.file_destination (codec := Json.json_codec))
     read_only_transport).2 = Rejected "EACCES" /\
  buffer (flush (destination_D := FileTransport.file_destination (codec := Json.json_codec))
            read_only_transport).1 = [] /\
  dest (flush (destination_D := FileTransport.file_destination (codec := Json.json_codec))
          read_only_transport).1 = dest read_only_transport /\
  flush (destination_D := FileTransport.file_destination (codec := Json.json_codec))
    (flush (destination_D := FileTransport.file_destination (codec := Json.json_codec))
       read_only_transport).1
  = ((flush (destination_D := FileTransport.file_destination (codec := Json.json_codec))
        read_only_transport).1, Resolved ()) /\
  dest (close (destination_D := FileTransport.file_destination (codec := Json.json_codec))
          (flush (destination_D := FileTransport.file_destination (codec := Json.json_codec))
             read_only_transport).1).1
  = (doClose (Destination := FileTransport.file_destination (codec := Json.json_codec))
       (dest read_only_transport)).1 /\
  (close (destination_D := FileTransport.file_destination (codec := Json.json_codec))
     (flush (destination_D := FileTransport.file_destination (codec := Json.json_codec))
        read_only_transport).1).2
  = (doClose (Destination := FileTransport.file_destination (codec := Json.json_codec))
       (dest read_only_transport)).2.
Proof.
  apply (flush_failure_loses_buffer
           (destination_D := FileTransport.file_destination (codec := Json.json_codec))
           read_only_transport (dest read_only_transport) "EACCES").
  - vm_compute. discriminate.
  - vm_compute. reflexivity.
Defined.

(** C8. [close] clears the flush timer, then flushes what the buffer
    holds, then releases the destination: the buffered events reach
    [doSendBatch] before [doClose] runs; when the flush fails, the failure
    is the outcome of [close] and [doClose] does not run; on either path the
    buffer is empty and the timer is no longer scheduled. *)
Theorem close_flushes_then_releases {D : Type} {destination_D : Destination D}
    (st : State D) :
  let sent := match buffer st with
              | [] => (dest st, Resolved ())
              | toFlush => doSendBatch toFlush (dest st)
              end in
  buffer (close st).1 = [] /\
  (forall id, flushTimer st = Some id -> id ∉ timers (close st).1) /\
  match sent.2 with
  | Rejected reason => (close st).2 = Rejected reason /\ dest (close st).1 = sent.1
  | Resolved _ => (close st).2 = (doClose sent.1).2 /\
                  dest (close st).1 = (doClose sent.1).1
  end.
Proof.
  assert (Hcleared : forall id (s : gset nat), id ∉ s ∖ {[id]}).
  { intros id s [_ Hn]%elem_of_difference. apply Hn. by apply elem_of_singleton. }
  unfold close, and_then, bind, flush, on_dest.
  destruct (flushTimer st) as [id|] eqn:Ht; simpl;
    destruct (buffer st) as [|e es] eqn:Hb; simpl;
    try destruct (doSendBatch (e :: es) (dest st)) as [d1 [[]|reason]]; simpl;
    try destruct (doClose _) as [d2 r2]; simpl;
    (split; [done|split; [|done]]); intros id'; try done;
    intros [= <-]; apply Hcleared.
Qed.

(** C9, as amended.  The HTTP transport buffers by default, and its default
    buffer size, 50, is lower than the 100 a file transport gets from the
    base class. *)
Theorem http_default_buffering :
  is_buffered (HttpTransport.constructor_config no_config) = true /\
  read (bufferSize (HttpTransport.constructor_config no_config)) = Some 50 /\
  threshold (HttpTransport.constructor_config no_config) = 50 /\
  is_buffered (spread_config defaults no_config) = false /\
  read (bufferSize (spread_config defaults no_config)) = Some 100 /\
  threshold (spread_config defaults no_config) = 100 /\
  threshold (HttpTransport.constructor_config no_config)
  < threshold (spread_config defaults no_config).
Proof. repeat split. Qed.

(** C9 as stated fails: the HTTP default is not the higher one. *)
Lemma http_default_buffering_counterexample :
  exists http file,
    read (bufferSize (HttpTransport.constructor_config no_config)) = Some http /\
    read (bufferSize (spread_config defaults no_config)) = Some file /\
    ~ (file < http).
Proof. exists 50, 100. repeat split. lia. Qed.

Section Multi.
Context {T : Type} {transport_T : Transport T}.

Lemma all_caught (rs : list (outcome unit)) :
  exists l, all (List.map (fun r => catch r (fun _ => ())) rs) = Resolved l.
Proof.
  induction rs as [|r rs [l IH]]; simpl; [by eexists|].
  destruct r as [a|reason]; simpl; rewrite IH; by eexists.
Qed.

Lemma dispatch_absorbs (call : Task T unit) (what : string) (st : MultiTransport.State T) :
  (MultiTransport.dispatch call what st).2 = Resolved () /\
  MultiTransport.transports (MultiTransport.dispatch call what st).1
  = List.map (fun t => (call t).1) (MultiTransport.transports st).
Proof.
  unfold MultiTransport.dispatch. simpl. rewrite !map_map. simpl. split.
  - destruct (all_caught (List.map (fun t => (call t).2) (MultiTransport.transports st)))
      as [l Hl].
    rewrite map_map in Hl. by rewrite Hl.
  - done.
Qed.

End Multi.

(** C6. Whatever the members do, [MultiTransport.send] (and [sendBatch])
    resolves, and every member has been sent the event: its state is the one
    its own [send] leaves, also when the [send] of another member, or its
    own, rejects. *)
Theorem multi_send_absorbs_failures {T : Type} {transport_T : Transport T}
    (st : MultiTransport.State T) (event : TelemetryEvent)
    (events : list TelemetryEvent) :
  ((MultiTransport.send event st).2 = Resolved () /\
   forall i t, MultiTransport.transports st !! i = Some t ->
     MultiTransport.transports (MultiTransport.send event st).1 !! i
     = Some (TransportInterface.send event t).1) /\
  ((MultiTransport.sendBatch events st).2 = Resolved () /\
   forall i t, MultiTransport.transports st !! i = Some t ->
     MultiTransport.transports (MultiTransport.sendBatch events st).1 !! i
     = Some (TransportInterface.sendBatch events t).1).
Proof.
  unfold MultiTransport.send, MultiTransport.sendBatch. split.
  - destruct (dispatch_absorbs (TransportInterface.send event) " failed: " st) as [-> ->].
    split; [done|]. intros i t Hi. by rewrite list_lookup_fmap, Hi.
  - destruct (dispatch_absorbs (TransportInterface.sendBatch events) " failed: " st) as [-> ->].
    split; [done|]. intros i t Hi. by rewrite list_lookup_fmap, Hi.
Qed.

(** A file transport that cannot write, beside one that can: the event
    reaches the second, the failure of the first is logged, and [send]
    resolves. *)
Example multi_send_with_failing_member :
  let codec := Json.json_codec in
  let broken := FileTransport.constructor no_config "./a.jsonl" None false ∅ in
  let sound := FileTransport.constructor no_config "./b.jsonl" None true ∅ in
  let after := MultiTransport.send event_a
                 {| MultiTransport.transports := [broken; sound];
                    MultiTransport.console := [] |} in
  after.2 = Resolved () /\
  List.map (fun t => FileTransport.readFromFile (dest t))
    (MultiTransport.transports after.1) = [[]; [event_a]] /\
  MultiTransport.console after.1 = ["[MultiTransport] file failed: EACCES"].
Proof. vm_compute. by repeat split. Qed.

(** Closing a buffering transport whose destination rejects the batch: the
    timer is gone, the buffer is empty, the rejection is the outcome. *)
Example close_on_failing_destination :
  let after := close (destination_D := FileTransport.file_destination
                                        (codec := Json.json_codec))
                 read_only_transport in
  flushTimer read_only_transport = Some 0%nat /\
  0%nat ∈ timers read_only_transport /\
  after.2 = Rejected "EACCES" /\
  timers after.1 = ∅ /\
  buffer after.1 = [].
Proof.
  split; [reflexivity|]. split; [compute_done|].
  split; [reflexivity|]. split; [|reflexivity].
  apply set_eq. intros x. split; [|by intros ?%not_elem_of_empty].
  unfold close. simpl. intros [Hx Hn]%elem_of_difference.
  apply elem_of_union in Hx as [Hx|Hx]; [done|by apply not_elem_of_empty in Hx].
Qed.

End TransportFacts.

(** ** The file transport: what is written is what is read *)
Module FileFacts.
Import Js Events Async BaseTransport FileTransport Examples Notions.

Lemma newline_is_space : is_space newline = true.
Proof. reflexivity. Qed.

Lemma json_line_head l :
  json_line l = true -> exists c r, l = c :: r /\ is_space c = false.
Proof.
  unfold json_line. intros [[_ H]%andb_prop _]%andb_prop.
  destruct l as [|c r]; [done|]. exists c, r. split; [done|]. by apply negb_true_iff.
Qed.

Lemma json_line_last l :
  json_line l = true -> exists c r, rev l = c :: r /\ is_space c = false.
Proof.
  unfold json_line. intros [_ H]%andb_prop.
  destruct (rev l) as [|c r]; [done|]. exists c, r. split; [done|]. by apply negb_true_iff.
Qed.

Lemma json_line_single l : json_line l = true -> ~ In newline l.
Proof.
  unfold json_line. intros [[H _]%andb_prop _]%andb_prop Hin.
  rewrite forallb_forall in H. specialize (H _ Hin).
  by rewrite Ascii.eqb_refl in H.
Qed.

Lemma line_ok_single l : line_ok l -> ~ In newline l.
Proof. intros [->|H]; [by intros []|by apply json_line_single]. Qed.

(** [trim] on the lines of the file. *)
Lemma json_line_trim l : json_line l = true -> trim l = l.
Proof.
  intros H. unfold trim.
  destruct (json_line_head l H) as (c & r & -> & Hc). simpl. rewrite Hc.
  destruct (json_line_last _ H) as (c' & r' & E & Hc'). rewrite E. simpl.
  rewrite Hc'. rewrite <- E. apply rev_involutive.
Qed.

Lemma not_blank_json l : json_line l = true -> not_blank l = true.
Proof.
  intros H. unfold not_blank. rewrite (json_line_trim l H).
  by destruct (json_line_head l H) as (c & r & -> & _).
Qed.

Lemma trimStart_unlines ls :
  Forall line_ok ls -> trimStart (unlines ls) = unlines (drop_empty ls).
Proof.
  induction 1 as [|l ls [->|Hl] _ IH]; [done| |].
  - exact IH.
  - destruct (json_line_head l Hl) as (c & r & -> & Hc). simpl. by rewrite Hc.
Qed.

Lemma rev_unlines_spec ls : rev (unlines ls) = rev_unlines (rev ls).
Proof.
  unfold unlines, rev_unlines. induction ls as [|l ls IH]; [done|].
  simpl. rewrite rev_app_distr, IH, flat_map_app. simpl.
  rewrite rev_app_distr. simpl. by rewrite app_nil_r.
Qed.

Lemma rev_rev_unlines ls : rev (rev_unlines ls) = unlines (rev ls).
Proof.
  rewrite <- (rev_involutive ls) at 1. rewrite <- rev_unlines_spec.
  apply rev_involutive.
Qed.

Lemma trimStart_rev_unlines ls :
  Forall line_ok ls ->
  trimStart (rev_unlines ls)
  = match drop_empty ls with
    | [] => []
    | l :: ls' => rev l ++ rev_unlines ls'
    end.
Proof.
  induction 1 as [|l ls [->|Hl] _ IH]; [done| |].
  - exact IH.
  - destruct (json_line_last l Hl) as (c & r & E & Hc).
    change (rev_unlines (l :: ls)) with (newline :: rev l ++ rev_unlines ls).
    change (trimStart (newline :: rev l ++ rev_unlines ls))
      with (trimStart (rev l ++ rev_unlines ls)).
    replace (drop_empty (l :: ls)) with (l :: ls) by (by destruct l).
    rewrite E. simpl. by rewrite Hc.
Qed.

Lemma unlines_snoc ls l : unlines ls ++ l = join_lines (ls ++ [l]).
Proof.
  induction ls as [|l' ls IH]; [done|].
  change (unlines (l' :: ls)) with ((l' ++ [newline]) ++ unlines ls).
  rewrite <- !app_assoc, IH. simpl. by destruct (ls ++ [l]) eqn:E; [destruct ls|].
Qed.

Lemma drop_empty_ok ls : Forall line_ok ls -> Forall line_ok (drop_empty ls).
Proof.
  induction 1 as [|l ls Hl H IH]; [constructor|].
  destruct l; [done|by constructor].
Qed.

(** [trim] takes the empty lines off both ends of the file. *)
Lemma trim_unlines ls :
  Forall line_ok ls ->
  trim (unlines ls) = join_lines (rev (drop_empty (rev (drop_empty ls)))).
Proof.
  intros Hok. unfold trim. rewrite trimStart_unlines by done.
  rewrite rev_unlines_spec.
  rewrite trimStart_rev_unlines by (apply Forall_rev; by apply drop_empty_ok).
  destruct (drop_empty (rev (drop_empty ls))) as [|l ls']; [done|].
  rewrite rev_app_distr, rev_involutive, rev_rev_unlines. simpl.
  apply unlines_snoc.
Qed.

(** [split] on joined lines. *)
Lemma split_not_nil s : split s <> [].
Proof.
  destruct s as [|c s]; [done|]. simpl.
  destruct (split s); [done|]. by destruct (Ascii.eqb c newline).
Qed.

Lemma split_single l : ~ In newline l -> split l = [l].
Proof.
  induction l as [|c l IH]; [done|]. intros Hn. simpl.
  rewrite IH by (intros ?; apply Hn; by right).
  destruct (Ascii.eqb_spec c newline) as [->|_]; [|done].
  exfalso. apply Hn. by left.
Qed.

Lemma split_app_newline l s :
  ~ In newline l -> split (l ++ newline :: s) = l :: split s.
Proof.
  induction l as [|c l IH]; intros Hn.
  - change (split ([] ++ newline :: s))
      with (match split s with
            | [] => [[newline]]
            | l :: ls => if Ascii.eqb newline newline then [] :: l :: ls
                         else (newline :: l) :: ls
            end).
    destruct (split s) eqn:E; [by destruct (split_not_nil s)|done].
  - simpl. rewrite IH by (intros ?; apply Hn; by right).
    destruct (Ascii.eqb_spec c newline) as [->|_]; [|done].
    exfalso. apply Hn. by left.
Qed.

Lemma split_join_lines ls :
  ls <> [] -> Forall (fun l => ~ In newline l) ls -> split (join_lines ls) = ls.
Proof.
  intros Hne Hall. induction Hall as [|l ls Hl Hall IH]; [done|].
  destruct ls as [|l' ls]; [by apply split_single|].
  change (join_lines (l :: l' :: ls)) with (l ++ newline :: join_lines (l' :: ls)).
  rewrite split_app_newline by done. by rewrite IH.
Qed.

Lemma join_unlines ls : ls <> [] -> join_lines ls ++ [newline] = unlines ls.
Proof.
  intros Hne. induction ls as [|l ls IH]; [done|].
  destruct ls as [|l' ls]; [unfold unlines; simpl; by rewrite app_nil_r|].
  change (join_lines (l :: l' :: ls)) with (l ++ newline :: join_lines (l' :: ls)).
  rewrite <- app_assoc. cbn [app]. rewrite IH by done.
  unfold unlines. cbn [flat_map]. by rewrite <- !app_assoc.
Qed.

(** Blank lines do not count. *)
Lemma filter_drop_empty ls :
  List.filter not_blank (drop_empty ls) = List.filter not_blank ls.
Proof. induction ls as [|[|c l] ls IH]; done. Qed.

Lemma filter_rev {A : Type} (f : A -> bool) (l : list A) :
  List.filter f (rev l) = rev (List.filter f l).
Proof.
  induction l as [|x l IH]; [done|]. simpl. rewrite List.filter_app, IH. simpl.
  destruct (f x); [done|by rewrite app_nil_r].
Qed.

Lemma filter_strip ls :
  List.filter not_blank (rev (drop_empty (rev (drop_empty ls))))
  = List.filter not_blank ls.
Proof.
  rewrite filter_rev, filter_drop_empty, filter_rev, rev_involutive.
  apply filter_drop_empty.
Qed.

(** The lines that are read back from a file of well-formed lines. *)
Lemma read_lines ls :
  Forall line_ok ls ->
  List.filter not_blank (split (trim (unlines ls))) = List.filter not_blank ls.
Proof.
  intros Hok. rewrite trim_unlines by done.
  set (m := rev (drop_empty (rev (drop_empty ls)))).
  assert (Hm : Forall line_ok m).
  { apply Forall_rev, drop_empty_ok, Forall_rev. by apply drop_empty_ok. }
  destruct (decide (m = [])) as [Hnil|Hne].
  - rewrite <- (filter_strip ls). fold m. by rewrite Hnil.
  - rewrite split_join_lines; [apply filter_strip|done|].
    eapply Forall_impl; [exact Hm|]. apply line_ok_single.
Qed.

Section Codec.
Context {codec : JsonCodec}.

Lemma chunk_unlines events :
  join_lines (List.map stringify events) ++ [newline] = unlines (lines_of events).
Proof.
  destruct events as [|e events]; [done|].
  unfold lines_of. apply join_unlines. done.
Qed.

Lemma lines_of_ok events :
  Forall well_formed events -> Forall line_ok (lines_of events).
Proof.
  intros Hwf. destruct events as [|e events]; [repeat constructor|].
  unfold lines_of. apply Forall_map. eapply Forall_impl; [exact Hwf|].
  intros x [Hx _]. by right.
Qed.

Lemma lines_of_filter events :
  Forall well_formed events ->
  List.filter not_blank (lines_of events) = List.map stringify events.
Proof.
  intros Hwf. destruct events as [|e events]; [done|].
  unfold lines_of. induction Hwf as [|x xs [Hx _] _ IH]; [done|].
  simpl. by rewrite (not_blank_json _ Hx), IH.
Qed.

Lemma parse_stringify events :
  Forall well_formed events -> omap parse (List.map stringify events) = events.
Proof.
  induction 1 as [|x xs [_ Hx] _ IH]; [done|].
  change (omap parse (List.map stringify (x :: xs)))
    with (match parse (stringify x) with
          | Some y => y :: omap parse (List.map stringify xs)
          | None => omap parse (List.map stringify xs)
          end).
  by rewrite Hx, IH.
Qed.

(** The file after a sequence of writes. *)
Lemma doSendBatch_file events fs :
  writable fs = true ->
  file (doSendBatch events fs).1
  = Some (default [] (file fs) ++ unlines (lines_of events)) /\
  writable (doSendBatch events fs).1 = true.
Proof.
  intros Hw. unfold doSendBatch, and_then, bind, appendToFile, appendFile.
  rewrite chunk_unlines, Hw. by split.
Qed.

Lemma run_write_file w fs :
  writable fs = true ->
  file (run_write w fs)
  = Some (default [] (file fs) ++ unlines (lines_of (events_of w))) /\
  writable (run_write w fs) = true.
Proof. intros Hw. destruct w as [e|es]; by apply doSendBatch_file. Qed.

Lemma run_writes_file ws fs :
  writable fs = true ->
  file (foldl (fun fs w => run_write w fs) fs ws)
  = match ws with
    | [] => file fs
    | _ => Some (default [] (file fs) ++ unlines (flat_map (fun w => lines_of (events_of w)) ws))
    end.
Proof.
  revert fs. induction ws as [|w ws IH]; intros fs Hw; [done|].
  simpl. destruct (run_write_file w fs Hw) as [Hf Hw'].
  rewrite IH by done. rewrite Hf. simpl.
  destruct ws as [|w' ws]; simpl.
  - by rewrite app_nil_r.
  - f_equal. unfold unlines. by rewrite !flat_map_app, <- !app_assoc.
Qed.

Lemma written_lines_ok ws :
  Forall (fun w => Forall well_formed (events_of w)) ws ->
  Forall line_ok (flat_map (fun w => lines_of (events_of w)) ws).
Proof.
  induction 1 as [|x xs Hx _ IH]; [constructor|].
  simpl. apply Forall_app. split; [by apply lines_of_ok|done].
Qed.

Lemma parse_written_lines ws :
  Forall (fun w => Forall well_formed (events_of w)) ws ->
  parse_lines (unlines (flat_map (fun w => lines_of (events_of w)) ws))
  = flat_map events_of ws.
Proof.
  intros Hwf. unfold parse_lines. rewrite read_lines by (by apply written_lines_ok).
  induction Hwf as [|x xs Hx _ IH]; [done|].
  simpl. rewrite List.filter_app, omap_app, IH.
  by rewrite (lines_of_filter _ Hx), (parse_stringify _ Hx).
Qed.

End Codec.

(** C3. Writing well-formed events through [doSend] and [doSendBatch] to a
    file that starts empty (or does not exist yet) and reading the file back
    with [readFromFile] yields the same events, in write order. *)
Theorem file_round_trip {codec : JsonCodec} (path : string)
    (existing : option text) (ws : list write) :
  existing = None \/ existing = Some [] ->
  Forall (fun w => Forall well_formed (events_of w)) ws ->
  readFromFile (foldl (fun fs w => run_write w fs) (open_file path existing true) ws)
  = flat_map events_of ws.
Proof.
  intros Hempty Hwf. unfold readFromFile.
  rewrite run_writes_file by done.
  assert (Hfile : default [] (file (open_file path existing true)) = []).
  { by destruct Hempty as [-> | ->]. }
  destruct ws as [|w ws].
  - by destruct Hempty as [-> | ->].
  - rewrite Hfile. by apply parse_written_lines.
Qed.

Lemma file_round_trip_witness :
  readFromFile (codec := Json.json_codec)
    (foldl (fun fs w => run_write (codec := Json.json_codec) w fs)
       (open_file (codec := Json.json_codec) "./data/events.jsonl" None true) writes)
  = flat_map events_of writes.
Proof.
  apply (file_round_trip (codec := Json.json_codec) "./data/events.jsonl" None writes).
  - by left.
  - repeat constructor; vm_compute; reflexivity.
Defined.

End FileFacts.

(** ** Redaction *)
Module RedactionFacts.
Import Js Redaction.

(** [redactSensitiveData] visits the entries of its argument. *)
Lemma redact_unfold fields v :
  is_object v = true ->
  redactSensitiveData fields v
  = VObj (List.map (fun kv => (kv.1, redact_entry fields kv.1 kv.2)) (entries v)).
Proof.
  destruct v as [| | | | |items|props]; try done; intros _.
  simpl. f_equal. generalize 0%nat. induction items as [|x items IH]; intros i; [done|].
  simpl. f_equal. apply IH.
Qed.

(** The children of a tree are less deep than the tree. *)
Lemma list_max_In (l : list nat) (n : nat) : In n l -> (n <= list_max l)%nat.
Proof.
  intros Hin. pose proof (proj1 (list_max_le l (list_max l)) (le_n _)) as Hall.
  rewrite List.Forall_forall in Hall. by apply Hall.
Qed.

Lemma index_entries_In i items k x :
  In (k, x) (index_entries i items) -> In x items.
Proof.
  revert i. induction items as [|y items IH]; intros i; [done|].
  intros [[= _ <-]|Hin]; [by left|right; by eapply IH].
Qed.

Lemma entries_depth v k x : In (k, x) (entries v) -> (Store.depth x < Store.depth v)%nat.
Proof.
  destruct v as [| | | | |items|props]; try done; simpl; intros Hin.
  - apply index_entries_In in Hin. apply Nat.lt_succ_r, list_max_In.
    apply in_map_iff. by exists x.
  - apply Nat.lt_succ_r, list_max_In. apply in_map_iff. by exists (k, x).
Qed.

Lemma items_depth items x : In x items -> (Store.depth x < Store.depth (VArr items))%nat.
Proof.
  intros Hin. simpl. apply Nat.lt_succ_r, list_max_In. apply in_map_iff. by exists x.
Qed.

Lemma scalar_redacted fields v : is_object v = false -> all_redacted fields v = true.
Proof. by destruct v. Qed.

(** In the result, a key that matches a field holds the marker, at every depth. *)
Lemma redact_all_redacted fields v :
  all_redacted fields (redactSensitiveData fields v) = true.
Proof.
  remember (Store.depth v) as n eqn:Hn. revert v Hn.
  induction n as [n IH] using lt_wf_ind. intros v ->.
  destruct (is_object v) eqn:Hobj; [|by destruct v].
  rewrite redact_unfold by done. simpl. apply forallb_forall.
  intros [k y] [[k' x] [[= <- <-] Hin]]%in_map_iff. simpl.
  pose proof (entries_depth v k' x Hin) as Hd.
  unfold redact_entry. destruct (shouldRedact fields k'); [done|]. simpl.
  destruct x as [| | | | |items|props]; try done.
  - simpl. apply forallb_forall. intros z [y [<- Hy]]%in_map_iff.
    unfold redact_item. destruct (is_object y) eqn:E; [|by apply scalar_redacted].
    eapply IH; [|reflexivity]. pose proof (items_depth items y Hy). lia.
  - by eapply IH.
Qed.

(** Reading a property of the result. *)
Lemma lookup_key_map (f : string -> value -> value) (o : object) k :
  lookup_key (List.map (fun kv => (kv.1, f kv.1 kv.2)) o) k = f k <$> lookup_key o k.
Proof.
  induction o as [|[k' x] o IH]; [done|]. simpl.
  destruct (String.eqb_spec k' k) as [->|_]; [done|apply IH].
Qed.

Lemma lookup_key_In o k x : lookup_key o k = Some x -> In (k, x) o.
Proof.
  induction o as [|[k' y] o IH]; [done|]. simpl.
  destruct (String.eqb_spec k' k) as [->|_]; [intros [= ->]; by left|].
  intros. right. by apply IH.
Qed.

Lemma index_entries_map (f : value -> value) i items :
  index_entries i (List.map f items)
  = List.map (fun kv => (kv.1, f kv.2)) (index_entries i items).
Proof.
  revert i. induction items as [|x items IH]; intros i; [done|].
  simpl. f_equal. apply IH.
Qed.

Lemma at_path_scalar v path x :
  is_object v = false -> at_path v path = Some x -> path = [] /\ x = v.
Proof.
  intros Hv. destruct path as [|k path]; [by intros [= <-]|].
  simpl. unfold property. by destruct v.
Qed.

(** A scalar that is reached through keys none of which matches a field
    is found unchanged, under the same keys, in the result. *)
Lemma redact_keeps_scalars fields v path x :
  is_object v = true ->
  at_path v path = Some x -> is_object x = false ->
  Forall (fun k => shouldRedact fields k = false) path ->
  at_path (redactSensitiveData fields v) path = Some x.
Proof.
  remember (Store.depth v) as n eqn:Hn. revert v path Hn.
  induction n as [n IH] using lt_wf_ind. intros v path -> Hobj Hat Hx Hpath.
  destruct path as [|k path]; [injection Hat as <-; congruence|].
  simpl in Hat. destruct (property v k) as [child|] eqn:Hk; [|done]. simpl in Hat.
  apply Forall_cons in Hpath as [Hkf Hpath].
  pose proof (entries_depth v k child (lookup_key_In _ _ _ Hk)) as Hd.
  rewrite redact_unfold by done. simpl. unfold property. simpl.
  rewrite lookup_key_map. unfold property in Hk. rewrite Hk. simpl.
  unfold redact_entry. rewrite Hkf.
  destruct child as [| | | | |items|props]; try done.
  - destruct path as [|j path]; [by injection Hat as <-|].
    simpl in Hat |- *. unfold property in Hat |- *. simpl in Hat |- *.
    rewrite index_entries_map.
    rewrite (lookup_key_map (fun _ => redact_item fields)).
    destruct (lookup_key (index_entries 0 items) j) as [y|] eqn:Hj; [|done].
    simpl in Hat |- *. apply Forall_cons in Hpath as [_ Hpath].
    unfold redact_item. destruct (is_object y) eqn:Hy; [|done].
    eapply IH; [|reflexivity|done..].
    apply lookup_key_In, index_entries_In in Hj.
    pose proof (items_depth items y Hj). lia.
  - by eapply IH.
Qed.

End RedactionFacts.

(** ** Redaction on the object store *)
Module StoreFacts.
Import Js Redaction Store Examples Notions.

(** Induction on a representation, with the hypothesis for the children. *)
Lemma repr_ind' (S : gset addr) (h : heap) (P : ref_value -> value -> Prop) :
  P RUndefined VUndefined -> P RNull VNull ->
  (forall b, P (RBool b) (VBool b)) ->
  (forall n, P (RNum n) (VNum n)) ->
  (forall s, P (RStr s) (VStr s)) ->
  (forall a props tprops,
     a ∈ S -> h !! a = Some (CObj props) -> plain_keys props ->
     Forall2 (fun kv tkv => kv.1 = tkv.1 /\ repr S h kv.2 tkv.2 /\ P kv.2 tkv.2)
       props tprops ->
     P (RRef a) (VObj tprops)) ->
  (forall a items titems,
     a ∈ S -> h !! a = Some (CArr items) ->
     Forall2 (fun x t => repr S h x t /\ P x t) items titems ->
     P (RRef a) (VArr titems)) ->
  forall rv v, repr S h rv v -> P rv v.
Proof.
  intros Hu Hn Hb Hz Hs Hobj Harr. fix IH 3.
  intros rv v [ | | b | n | s | a props tprops Ha Hl Hk Hf | a items titems Ha Hl Hf];
    [done..| |].
  - apply (Hobj a props tprops Ha Hl Hk). clear Hl Hk.
    revert props tprops Hf. fix IHl 3.
    intros props tprops [|kv tkv props' tprops' [Hkey Hr] Hf']; constructor.
    + split; [done|]. split; [done|]. by apply IH.
    + by apply IHl.
  - apply (Harr a items titems Ha Hl). clear Hl.
    revert items titems Hf. fix IHl 3.
    intros items titems [|x t items' titems' Hr Hf']; constructor.
    + split; [done|]. by apply IH.
    + by apply IHl.
Qed.

(** A representation only depends on the cells it reads. *)
Lemma repr_mono (S S' : gset addr) (h h' : heap) rv v :
  repr S h rv v -> S ⊆ S' ->
  (forall a c, a ∈ S -> h !! a = Some c -> h' !! a = Some c) ->
  repr S' h' rv v.
Proof.
  intros Hr HS Hagree. induction Hr as
    [ | | b | n | s | a props tprops Ha Hl Hk Hf | a items titems Ha Hl Hf ]
    using repr_ind'; try by constructor.
  - apply repr_obj with props; [by apply HS|by apply Hagree|done|].
    eapply Forall2_impl; [exact Hf|]. by intros kv tkv (? & _ & ?).
  - apply repr_arr with items; [by apply HS|by apply Hagree|].
    eapply Forall2_impl; [exact Hf|]. by intros x t [_ ?].
Qed.

Lemma repr_weaken (h h' : heap) rv v :
  repr (dom h) h rv v -> h ⊆ h' -> repr (dom h') h' rv v.
Proof.
  intros Hr Hsub. eapply repr_mono; [exact Hr|by apply subseteq_dom|].
  intros a c _ Hc. by eapply lookup_weaken.
Qed.

(** A primitive stands for itself, in any heap. *)
Lemma repr_primitive S h S' h' rv v :
  is_ref rv = false -> repr S h rv v -> repr S' h' rv v /\ is_object v = false.
Proof. intros Hp Hr. inversion Hr; subst; try done; by split; constructor. Qed.

(** Index keys are distinct, and none is ["__proto__"]. *)
Lemma index_key_inj i j : index_key i = index_key j -> i = j.
Proof.
  unfold index_key. intros E. apply Unsigned.to_uint_inj.
  apply (f_equal NilEmpty.uint_of_string) in E. rewrite !NilEmpty.usu in E. congruence.
Qed.

Lemma index_key_not_proto i : index_key i <> "__proto__".
Proof.
  unfold index_key. intros E. apply (f_equal NilEmpty.uint_of_string) in E.
  rewrite NilEmpty.usu in E. discriminate E.
Qed.

Lemma index_entries_keys i items k :
  In k (List.map fst (Store.index_entries i items)) ->
  exists j, k = index_key j /\ (i <= j)%nat.
Proof.
  revert i. induction items as [|x items IH]; intros i; [done|].
  intros [<-|Hin]; [by exists i|].
  destruct (IH _ Hin) as (j & -> & Hj). exists j. split; [done|lia].
Qed.

Lemma index_entries_plain i items : plain_keys (Store.index_entries i items).
Proof.
  split.
  - revert i. induction items as [|x items IH]; intros i; simpl; constructor; [|apply IH].
    intros (j & E & Hj)%list_elem_of_In%index_entries_keys.
    apply index_key_inj in E. lia.
  - intros (j & E & _)%index_entries_keys. by eapply index_key_not_proto.
Qed.

Lemma index_entries_repr S h i items titems :
  Forall2 (repr S h) items titems ->
  Forall2 (fun kv tkv => kv.1 = tkv.1 /\ repr S h kv.2 tkv.2)
    (Store.index_entries i items) (Redaction.index_entries i titems).
Proof.
  intros Hf. revert i. induction Hf as [|x t items titems Hx _ IH]; intros i;
    [constructor|].
  constructor; [by split|apply IH].
Qed.

(** What a reference stands for: an object or an array, read through its
    entries. *)
Lemma repr_ref S h a v :
  repr S h (RRef a) v ->
  exists c, a ∈ S /\ h !! a = Some c /\ is_object v = true /\
    plain_keys (Store.entries c) /\
    Forall2 (fun kv tkv => kv.1 = tkv.1 /\ repr S h kv.2 tkv.2)
      (Store.entries c) (Redaction.entries v) /\
    match c with
    | CObj _ => exists tprops, v = VObj tprops
    | CArr items => exists titems, v = VArr titems /\ Forall2 (repr S h) items titems
    end.
Proof.
  intros Hr. inversion Hr as [ | | | | | a' props tprops Ha Hl Hk Hf
                             | a' items titems Ha Hl Hf ]; subst.
  - exists (CObj props). split; [done|]. split; [done|]. split; [done|].
    split; [done|]. split; [done|]. by eexists.
  - exists (CArr items). split; [done|]. split; [done|]. split; [done|].
    split; [apply index_entries_plain|]. split; [by apply index_entries_repr|].
    by eexists.
Qed.

(** An assignment to a key the object does not have yet appends it. *)
Lemma set_fresh_key props key v :
  ~ In key (List.map fst props) -> Store.set props key v = props ++ [(key, v)].
Proof.
  induction props as [|[k x] props IH]; [done|]. simpl. intros Hn.
  destruct (String.eqb_spec k key) as [->|_]; [exfalso; apply Hn; by left|].
  f_equal. apply IH. intros ?. apply Hn. by right.
Qed.

Lemma set_prop_fresh_key (h : heap) result props key v :
  h !! result = Some (CObj props) -> ~ In key (List.map fst props) ->
  set_prop h result key v = <[result := CObj (props ++ [(key, v)])]> h.
Proof. intros Hl Hn. unfold set_prop. by rewrite Hl, set_fresh_key. Qed.

Lemma push_spec (h : heap) arr items v :
  h !! arr = Some (CArr items) -> push h arr v = <[arr := CArr (items ++ [v])]> h.
Proof. intros Hl. unfold push. by rewrite Hl. Qed.

Section Refinement.
Variable fields : list string.

Lemma built_insert (B Hc Hc' : heap) c x rv v :
  repr (built B Hc c) Hc rv v -> Hc ⊆ Hc' ->
  repr (built B (<[c := x]> Hc') c) (<[c := x]> Hc') rv v.
Proof.
  intros Hr Hsub. eapply repr_mono; [exact Hr| |].
  - intros a. unfold built. rewrite dom_insert_L. apply subseteq_dom in Hsub.
    rewrite !elem_of_difference, elem_of_union. intros [[? ?] ?]. auto.
  - intros a y Ha Hl. unfold built in Ha.
    apply elem_of_difference in Ha as [_ Ha]. rewrite elem_of_singleton in Ha.
    rewrite lookup_insert_ne by done. by eapply lookup_weaken.
Qed.

Lemma new_built (B Hc Hc' : heap) c x rv v :
  repr (dom Hc' ∖ dom Hc) Hc' rv v -> B ⊆ Hc -> c ∈ dom Hc ->
  repr (built B (<[c := x]> Hc') c) (<[c := x]> Hc') rv v.
Proof.
  intros Hr Hsub Hc0. eapply repr_mono; [exact Hr| |].
  - intros a. unfold built. rewrite dom_insert_L. apply subseteq_dom in Hsub.
    rewrite !elem_of_difference, elem_of_union, elem_of_singleton.
    intros [? Ha]. split; [split; [by right|auto]|]. by intros ->.
  - intros a y Ha Hl. apply elem_of_difference in Ha as [_ Ha].
    rewrite lookup_insert_ne by (by intros ->). done.
Qed.

Lemma redact_item_spec n recur (B Hc : heap) item t :
  recur_ok fields n recur -> B ⊆ Hc -> repr (dom B) B item t -> (depth t <= n)%nat ->
  exists Hc' v, redact_item recur Hc item = Some (Hc', v) /\ Hc ⊆ Hc' /\
    repr (dom Hc' ∖ dom Hc) Hc' v (Redaction.redact_item fields t).
Proof.
  intros Hrec Hsub Hr Hd. destruct item as [| | b | z | s | a].
  6: { pose proof (repr_weaken _ _ _ _ Hr Hsub) as Hr'.
       destruct (repr_ref _ _ _ _ Hr) as (c & _ & _ & Hobj & _).
       destruct (Hrec Hc a t Hr' Hd) as (Hc' & r & E & Hsub' & Hres).
       exists Hc', (RRef r). simpl. rewrite E. simpl.
       unfold Redaction.redact_item. by rewrite Hobj. }
  all: exists Hc; eexists; split; [reflexivity|]; split; [done|];
    edestruct (repr_primitive (dom B) B (dom Hc ∖ dom Hc) Hc) as [Hp Ho];
    [|exact Hr|]; [reflexivity|];
    unfold Redaction.redact_item; by rewrite Ho.
Qed.

Lemma map_items_spec n recur (B : heap) arr items titems :
  recur_ok fields n recur -> arr ∉ dom B ->
  Forall2 (repr (dom B) B) items titems ->
  Forall (fun t => (depth t <= n)%nat) titems ->
  forall (Hc : heap) idone tdone,
    B ⊆ Hc -> Hc !! arr = Some (CArr idone) ->
    Forall2 (repr (built B Hc arr) Hc) idone tdone ->
    exists Hf inew,
      map_items recur arr items Hc = Some Hf /\ B ⊆ Hf /\
      Hf !! arr = Some (CArr (idone ++ inew)) /\
      Forall2 (repr (built B Hf arr) Hf) (idone ++ inew)
        (tdone ++ List.map (Redaction.redact_item fields) titems).
Proof.
  intros Hrec Harr Hitems. induction Hitems as [|item t items titems Hr _ IH];
    intros Hdepth Hc idone tdone Hsub Hl Hdone.
  - exists Hc, []. simpl. rewrite !app_nil_r. by repeat split.
  - apply Forall_cons in Hdepth as [Hd Hdepth].
    destruct (redact_item_spec n recur B Hc item t Hrec Hsub Hr Hd)
      as (Hc1 & v & E & Hsub1 & Hv).
    assert (Hl1 : Hc1 !! arr = Some (CArr idone)) by (by eapply lookup_weaken).
    assert (Harr' : arr ∈ dom Hc) by (apply elem_of_dom; by eexists).
    destruct (IH Hdepth (<[arr := CArr (idone ++ [v])]> Hc1) (idone ++ [v])
                (tdone ++ [Redaction.redact_item fields t]))
      as (Hf & inew & Ef & Hsubf & Hlf & Hallf).
    + apply insert_subseteq_r; [by apply not_elem_of_dom|by etrans].
    + apply lookup_insert_eq.
    + apply Forall2_app.
      * eapply Forall2_impl; [exact Hdone|]. intros x y Hxy. by eapply built_insert.
      * constructor; [|constructor]. by eapply new_built.
    + exists Hf, (v :: inew). simpl. rewrite E. simpl. rewrite (push_spec _ _ _ _ Hl1).
      rewrite <- app_assoc in Hlf.
      rewrite <- (app_assoc idone), <- (app_assoc tdone) in Hallf. split; [exact Ef|]. split; [done|]. split; [exact Hlf|exact Hallf].
Qed.

(** The value one entry is given, and the cells built for it. *)
Lemma entry_value_spec n recur (B Hc : heap) result key value tv :
  recur_ok fields n recur -> B ⊆ Hc ->
  repr (dom B) B value tv -> (depth tv <= n)%nat ->
  exists Hc1 v',
    redact_entry fields recur result Hc (key, value)
    = Some (set_prop Hc1 result key v') /\
    Hc ⊆ Hc1 /\
    repr (dom Hc1 ∖ dom Hc) Hc1 v' (Redaction.redact_entry fields key tv).
Proof.
  intros Hrec Hsub Hr Hd. unfold redact_entry, Redaction.redact_entry.
  destruct (shouldRedact fields key).
  { exists Hc, (RStr REDACTED). split; [done|]. split; [done|constructor]. }
  destruct value as [| | b | z | s | a].
  6: { destruct (repr_ref _ _ _ _ Hr) as (c & _ & Hl & Hobj & _ & _ & Hshape).
       rewrite (lookup_weaken _ _ _ _ Hl Hsub).
       pose proof (repr_weaken _ _ _ _ Hr Hsub) as Hr'.
       destruct c as [props|items].
       - destruct Hshape as [tprops ->].
         destruct (Hrec Hc a _ Hr' Hd) as (Hc1 & r & E & Hsub1 & Hres).
         exists Hc1, (RRef r). rewrite E. by split.
       - destruct Hshape as (titems & -> & Hitems).
         unfold alloc.
         assert (Hfresh : fresh (dom Hc) ∉ dom Hc) by apply is_fresh.
         set (arr := fresh (dom Hc)) in *.
         destruct (map_items_spec n recur Hc arr items titems Hrec Hfresh)
           with (Hc := <[arr := CArr []]> Hc) (idone := @nil ref_value)
                (tdone := @nil value)
           as (Hf & inew & E & Hsubf & Hlf & Hallf).
         + eapply Forall2_impl; [exact Hitems|]. intros x t Hx.
           by eapply repr_weaken.
         + apply List.Forall_forall. intros t Ht.
           pose proof (RedactionFacts.items_depth titems t Ht). lia.
         + apply insert_subseteq. by apply not_elem_of_dom.
         + apply lookup_insert_eq.
         + constructor.
         + exists Hf, (RRef arr). rewrite E. simpl. split; [done|]. split; [done|].
           apply repr_arr with inew.
           * apply elem_of_difference. split; [|done]. apply elem_of_dom. by eexists.
           * done.
           * eapply Forall2_impl; [exact Hallf|]. intros x t Hx.
             eapply repr_mono; [exact Hx| |done].
             intros a'. unfold built. rewrite !elem_of_difference. by intros [? _]. }
  all: exists Hc; eexists; split; [reflexivity|]; split; [done|];
    edestruct (repr_primitive (dom B) B (dom Hc ∖ dom Hc) Hc) as [Hp Ho];
    [|exact Hr|]; [reflexivity|]; by destruct tv.
Qed.

Lemma for_entries_spec n recur (B : heap) result es tes :
  recur_ok fields n recur -> result ∉ dom B ->
  Forall2 (entry_rel (dom B) B) es tes ->
  Forall (fun tkv => (depth tkv.2 <= n)%nat) tes ->
  forall (Hc : heap) done tdone,
    B ⊆ Hc -> Hc !! result = Some (CObj done) ->
    Forall2 (entry_rel (built B Hc result) Hc) done tdone ->
    NoDup (List.map fst done ++ List.map fst es) ->
    exists Hf new,
      for_entries fields recur result es Hc = Some Hf /\ B ⊆ Hf /\
      Hf !! result = Some (CObj (done ++ new)) /\
      Forall2 (entry_rel (built B Hf result) Hf) (done ++ new)
        (tdone ++ List.map (fun kv => (kv.1, Redaction.redact_entry fields kv.1 kv.2)) tes).
Proof.
  intros Hrec Hres Hes. induction Hes as [|[key value] [tkey tv] es tes [Hk Hr] _ IH];
    intros Hdepth Hc done tdone Hsub Hl Hdone Hnodup.
  - exists Hc, []. simpl. rewrite !app_nil_r. by repeat split.
  - simpl in Hk, Hr. subst tkey. apply Forall_cons in Hdepth as [Hd Hdepth]. simpl in Hd.
    destruct (entry_value_spec n recur B Hc result key value tv Hrec Hsub Hr Hd)
      as (Hc1 & v' & E & Hsub1 & Hv).
    assert (Hl1 : Hc1 !! result = Some (CObj done)) by (by eapply lookup_weaken).
    assert (Hin : result ∈ dom Hc) by (apply elem_of_dom; by eexists).
    assert (Hkey : ~ In key (List.map fst done)).
    { intros Hi%list_elem_of_In. apply NoDup_app in Hnodup as (_ & Hdisj & _).
      apply (Hdisj key Hi). simpl. left. }
    rewrite (set_prop_fresh_key _ _ _ _ _ Hl1 Hkey) in E.
    destruct (IH Hdepth (<[result := CObj (done ++ [(key, v')])]> Hc1)
                (done ++ [(key, v')])
                (tdone ++ [(key, Redaction.redact_entry fields key tv)]))
      as (Hf & new & Ef & Hsubf & Hlf & Hallf).
    + apply insert_subseteq_r; [by apply not_elem_of_dom|by etrans].
    + apply lookup_insert_eq.
    + apply Forall2_app.
      * eapply Forall2_impl; [exact Hdone|]. intros x y [Hxy Hx].
        split; [done|]. by eapply built_insert.
      * constructor; [|constructor]. split; [done|]. by eapply new_built.
    + rewrite map_app, <- app_assoc. exact Hnodup.
    + exists Hf, ((key, v') :: new).
      change (for_entries fields recur result ((key, value) :: es) Hc)
        with (redact_entry fields recur result Hc (key, value)
              ≫= for_entries fields recur result es).
      rewrite E. simpl.
      rewrite <- app_assoc in Hlf.
      rewrite <- (app_assoc done), <- (app_assoc tdone) in Hallf.
      split; [exact Ef|]. split; [done|]. split; [exact Hlf|exact Hallf].
Qed.

Lemma entry_rel_keys S h es tes :
  Forall2 (entry_rel S h) es tes -> List.map fst es = List.map fst tes.
Proof. induction 1 as [|kv tkv es tes [Hk _] _ IH]; [done|]. simpl. by f_equal. Qed.

Lemma mapped_keys (f : string -> value -> value) (o : object) :
  List.map fst (List.map (fun kv => (kv.1, f kv.1 kv.2)) o) = List.map fst o.
Proof. induction o as [|kv o IH]; [done|]. simpl. by f_equal. Qed.

(** [redactSensitiveData] on the heap computes the tree function, in new cells. *)
Lemma redact_refines n : recur_ok fields n (redactSensitiveData n fields).
Proof.
  induction n as [|n IH]; intros H a v Hr Hd;
    destruct (repr_ref _ _ _ _ Hr) as (c & Ha & Hl & Hobj & Hplain & Hentries & _).
  - destruct v; simpl in Hobj, Hd; try done; lia.
  - assert (Hfresh : fresh (dom H) ∉ dom H) by apply is_fresh.
    cbn [redactSensitiveData]. rewrite Hl. simpl. unfold alloc.
    set (result := fresh (dom H)) in *.
    destruct (for_entries_spec n (redactSensitiveData n fields) H result
                (Store.entries c) (Redaction.entries v) IH Hfresh Hentries)
      with (Hc := <[result := CObj []]> H) (done := @nil (string * ref_value))
           (tdone := @nil (string * value))
      as (Hf & new & E & Hsub & Hlf & Hall).
    + apply List.Forall_forall. intros [k x] Hin.
      pose proof (RedactionFacts.entries_depth v k x Hin). simpl. lia.
    + apply insert_subseteq. by apply not_elem_of_dom.
    + apply lookup_insert_eq.
    + constructor.
    + by destruct Hplain.
    + simpl in Hlf, Hall. exists Hf, result. rewrite E. simpl.
      split; [done|]. split; [done|].
      rewrite RedactionFacts.redact_unfold by done.
      apply repr_obj with new.
      * apply elem_of_difference. split; [|done]. apply elem_of_dom. by eexists.
      * done.
      * unfold plain_keys.
        rewrite (entry_rel_keys _ _ _ _ Hall), mapped_keys.
        by rewrite <- (entry_rel_keys _ _ _ _ Hentries).
      * eapply Forall2_impl; [exact Hall|]. intros kv tkv [Hk Hx]. split; [done|].
        eapply repr_mono; [exact Hx| |done].
        intros a'. unfold built. rewrite !elem_of_difference. by intros [? _].
Qed.

End Refinement.


Lemma store0_holds_tree0 : repr (dom store0) store0 (RRef 0) tree0.
Proof.
  assert (Hdom : forall a c, store0 !! a = Some c -> a ∈ dom store0).
  { intros a c Hc. apply elem_of_dom. by eexists. }
  assert (Hkeys : forall props : list (string * ref_value),
            NoDup (List.map fst props) ->
            Forall (fun k => k <> "__proto__") (List.map fst props) ->
            plain_keys props).
  { intros props Hn Hp. split; [done|]. intros Hin.
    rewrite List.Forall_forall in Hp. by apply (Hp _ Hin). }
  eapply repr_obj; [by eapply Hdom|reflexivity| |].
  { apply Hkeys; [compute_done|by repeat constructor]. }
  repeat constructor; simpl.
  - eapply repr_arr; [by eapply Hdom|reflexivity|].
    repeat constructor.
    eapply repr_obj; [by eapply Hdom|reflexivity| |by repeat constructor].
    apply Hkeys; [compute_done|by repeat constructor].
  - eapply repr_obj; [by eapply Hdom|reflexivity| |by repeat constructor].
    apply Hkeys; [compute_done|by repeat constructor].
Defined.


(** The store function on the example, run: the record is rebuilt at a new
    address, the cells of the input are as they were. *)
Example redact_store0 :
  exists h' r,
    Store.redactSensitiveData 3 DEFAULT_REDACT_FIELDS store0 0%nat = Some (h', r) /\
    r = 4%nat /\
    h' !! 0%nat = store0 !! 0%nat /\
    h' !! 4%nat = Some (CObj [("user", RStr "ann"); ("Password", RStr "[REDACTED]");
                              ("items", RRef 5); ("nested", RRef 7)]) /\
    h' !! 5%nat = Some (CArr [RRef 6; RNum 7]) /\
    h' !! 6%nat = Some (CObj [("access_token", RStr "[REDACTED]"); ("n", RNum 1)]) /\
    h' !! 7%nat = Some (CObj [("apiKey", RStr "[REDACTED]"); ("ok", RBool true)]).
Proof. eexists _, _. split; [vm_compute; reflexivity|]. by vm_compute. Qed.

(** An array that is an element of an array is entered like a record: it
    comes back as an object whose keys are the indices. *)
Example redact_matrix :
  Redaction.redactSensitiveData DEFAULT_REDACT_FIELDS matrix
  = VObj [("rows", VArr [VObj [("0", VNum 5); ("1", VNum 6)]])].
Proof. reflexivity. Qed.

End StoreFacts.

(** ** The evaluator: what the rules add up to *)
Module ScoringFacts.
Import Js Events Factory Evaluator Examples Notions EvaluatorFacts.

Lemma filter_implied {A : Type} (p q : A -> bool) (l : list A) :
  (forall x, p x = true -> q x = true) ->
  List.filter p (List.filter q l) = List.filter p l.
Proof.
  intros Hpq. induction l as [|x l IH]; simpl; [done|].
  destruct (q x) eqn:Hq; simpl.
  - destruct (p x); by rewrite IH.
  - destruct (p x) eqn:Hp; [|done]. apply Hpq in Hp. congruence.
Qed.

Lemma find_implied {A : Type} (p q : A -> bool) (l : list A) :
  (forall x, p x = true -> q x = true) ->
  List.find p (List.filter q l) = List.find p l.
Proof.
  intros Hpq. induction l as [|x l IH]; simpl; [done|].
  destruct (q x) eqn:Hq; simpl.
  - by destruct (p x).
  - destruct (p x) eqn:Hp; [|done]. apply Hpq in Hp. congruence.
Qed.

Lemma overage_floor (x p : Z) :
  Qfloor (seconds x * inject_Z p)%Q = x * p / 1000.
Proof.
  unfold seconds, Qdiv, Qmult, Qinv, inject_Z, Qfloor. simpl.
  by rewrite Z.mul_1_r.
Qed.

Section Facts.
Context {fmt : NumberFormat}.
Variable config : EvaluatorConfig.

(** The loops that list nodes touch the reasons only. *)
Lemma failed_lines_keep events s s' :
  for_of failed_node_line events s = Some s' ->
  cur_score s' = cur_score s /\ cur_labels s' = cur_labels s.
Proof.
  apply (for_of_invariant
           (fun t => cur_score t = cur_score s /\ cur_labels t = cur_labels s)); [|done].
  intros t x t' _ [Hsc Hl]. unfold failed_node_line.
  destruct (node_context x); simpl; [|done].
  destruct (payload x); simpl; [|done]. by intros [= <-].
Qed.

Lemma slow_lines_keep events s s' :
  for_of slow_node_line events s = Some s' ->
  cur_score s' = cur_score s /\ cur_labels s' = cur_labels s.
Proof.
  apply (for_of_invariant
           (fun t => cur_score t = cur_score s /\ cur_labels t = cur_labels s)); [|done].
  intros t x t' _ [Hsc Hl]. unfold slow_node_line.
  destruct (node_context x); simpl; [|done].
  destruct (duration_ms x); simpl; [|done]. by intros [= <-].
Qed.

Lemma rule_workflow_failed_exact wf s s' :
  rule_workflow_failed config wf s = Some s' ->
  cur_score s' = match wf with
                 | Some _ => Z.min (cur_score s) (workflowFailureMaxScore config)
                 | None => cur_score s
                 end /\
  cur_labels s' = cur_labels s
                  ++ (if bool_decide (is_Some wf) then ["workflow_failed"] else []).
Proof.
  unfold rule_workflow_failed. destruct wf as [e|]; simpl.
  - destruct (payload e) as [p|]; simpl; [|done].
    destruct (truthy _); by intros [= <-].
  - intros [= <-]. by rewrite app_nil_r.
Qed.

Lemma rule_node_failures_exact events s s' :
  rule_node_failures config events s = Some s' ->
  cur_score s' = cur_score s - Z.of_nat (length events) * failedNodePenalty config /\
  cur_labels s' = cur_labels s
                  ++ (if 0 <? Z.of_nat (length events) then ["node_failures"] else []).
Proof.
  unfold rule_node_failures. destruct (Z.ltb_spec 0 (Z.of_nat (length events))) as [Hlt|Hle].
  - intros [Hsc Hl]%failed_lines_keep. by rewrite Hsc, Hl.
  - intros [= <-]. rewrite app_nil_r. split; [|done].
    destruct events; simpl in *; lia.
Qed.

Lemma rule_slow_execution_exact total s :
  cur_score (rule_slow_execution config total s)
  = cur_score s - overage_penalty config total /\
  cur_labels (rule_slow_execution config total s)
  = cur_labels s ++ match total with
                    | Some t => if maxWorkflowDurationMs config <? t
                                then ["slow_execution"] else []
                    | None => []
                    end.
Proof.
  unfold rule_slow_execution, overage_penalty. destruct total as [t|].
  - destruct (_ <? t); cbn [cur_score cur_labels set_score push_label push_reason].
    + by rewrite overage_floor.
    + rewrite app_nil_r. split; [lia|done].
  - rewrite app_nil_r. split; [lia|done].
Qed.

Lemma rule_slow_nodes_exact events s s' :
  rule_slow_nodes config events s = Some s' ->
  cur_score s' = cur_score s - Z.of_nat (length events) * slowNodePenalty config /\
  cur_labels s' = cur_labels s
                  ++ (if 0 <? Z.of_nat (length events) then ["slow_nodes"] else []).
Proof.
  unfold rule_slow_nodes. destruct (Z.ltb_spec 0 (Z.of_nat (length events))) as [Hlt|Hle].
  - intros [Hsc Hl]%slow_lines_keep. by rewrite Hsc, Hl.
  - intros [= <-]. rewrite app_nil_r. split; [|done].
    destruct events; simpl in *; lia.
Qed.

Lemma rule_clean_execution_exact wc failed slow s :
  let applies := bool_decide (is_Some wc) && (failed =? 0) && (slow =? 0) in
  cur_score (rule_clean_execution config wc failed slow s)
  = cur_score s + (if applies then successBonus config else 0) /\
  cur_labels (rule_clean_execution config wc failed slow s)
  = cur_labels s ++ (if applies then ["clean_execution"] else []).
Proof.
  unfold rule_clean_execution. destruct (_ && _); simpl; [done|].
  rewrite app_nil_r. split; [lia|done].
Qed.

(** The result of [evaluate]: the clamped sum of the rules, their labels,
    and the metrics. *)
Lemma evaluate_exact events r :
  evaluate config events = Some r ->
  score r = Z.max 0 (Z.min 100 (raw_score config events)) /\
  labels r = pushed_labels config events /\
  for_of slowest_step (node_end_events events) None = Some (slowest_node (metrics r)) /\
  avg_node_duration_ms (metrics r) = Math_round (avg_duration events).
Proof.
  unfold evaluate. fold (node_end_events events). fold (slow_nodes config events).
  fold (total_duration events).
  intros Hev.
  destruct (for_of slowest_step _ None) as [slowest|]; simpl in Hev; [|done].
  destruct (rule_workflow_failed _ _ _) as [s1|] eqn:E1; simpl in Hev; [|done].
  destruct (rule_node_failures _ _ _) as [s2|] eqn:E2; simpl in Hev; [|done].
  destruct (rule_slow_nodes _ _ _) as [s4|] eqn:E4; simpl in Hev; [|done].
  destruct (llm_metrics_of events) as [llm|]; simpl in Hev; [|done].
  injection Hev as <-. cbn [score labels metrics slowest_node avg_node_duration_ms].
  apply rule_workflow_failed_exact in E1 as [Hs1 Hl1].
  apply rule_node_failures_exact in E2 as [Hs2 Hl2].
  apply rule_slow_nodes_exact in E4 as [Hs4 Hl4].
  destruct (rule_slow_execution_exact (total_duration events) s2) as [Hs3 Hl3].
  match goal with
  | |- context [rule_clean_execution config ?wc ?f ?sl s4] =>
      destruct (rule_clean_execution_exact wc f sl s4) as [Hs5 Hl5]
  end.
  cbv zeta in Hs5, Hl5. fold (clean config events) in Hs5, Hl5.
  split; [|split; [|done]].
  - rewrite Hs5, Hs4, Hs3, Hs2, Hs1. unfold raw_score. cbn [cur_score].
    by destruct (List.find (has_type EventTypes.WORKFLOW_FAILED) events).
  - rewrite Hl5, Hl4, Hl3, Hl2, Hl1. unfold pushed_labels. cbn [cur_labels].
    by rewrite <- !app_assoc.
Qed.

End Facts.

Lemma scored_type t e :
  In t [EventTypes.NODE_STARTED; EventTypes.NODE_COMPLETED; EventTypes.NODE_FAILED;
        EventTypes.WORKFLOW_COMPLETED; EventTypes.WORKFLOW_FAILED;
        EventTypes.LLM_REQUESTED; EventTypes.LLM_RESPONDED] ->
  has_type t e = true -> scored e = true.
Proof.
  unfold scored. simpl. intros Ht He.
  repeat destruct Ht as [<-|Ht]; try (rewrite He; by rewrite ?orb_true_r). done.
Qed.

(** [evaluate] looks at node, terminal workflow and LLM events only:
    events of any other type (workflow.started, eval.completed, tool
    events, custom events) leave the whole result as it is. *)
Theorem evaluate_ignores_other_events {fmt : NumberFormat} (config : EvaluatorConfig)
    (events : list TelemetryEvent) :
  evaluate config (List.filter scored events) = evaluate config events.
Proof.
  assert (Hkeep : forall t,
            In t [EventTypes.NODE_STARTED; EventTypes.NODE_COMPLETED;
                  EventTypes.NODE_FAILED; EventTypes.WORKFLOW_COMPLETED;
                  EventTypes.WORKFLOW_FAILED; EventTypes.LLM_REQUESTED;
                  EventTypes.LLM_RESPONDED] ->
            List.filter (has_type t) (List.filter scored events)
            = List.filter (has_type t) events /\
            List.find (has_type t) (List.filter scored events)
            = List.find (has_type t) events).
  { intros t Ht. split; [apply filter_implied | apply find_implied];
      intros e; by apply scored_type. }
  assert (Hllm : List.filter (fun e => has_type EventTypes.LLM_REQUESTED e
                                       || has_type EventTypes.LLM_RESPONDED e)
                   (List.filter scored events)
                 = List.filter (fun e => has_type EventTypes.LLM_REQUESTED e
                                         || has_type EventTypes.LLM_RESPONDED e) events).
  { apply filter_implied. intros e [H|H]%orb_prop;
      (eapply scored_type; [|exact H]); simpl; tauto. }
  unfold evaluate, llm_metrics_of. rewrite Hllm.
  destruct (Hkeep EventTypes.NODE_STARTED) as [-> _]; [simpl; tauto|].
  destruct (Hkeep EventTypes.NODE_COMPLETED) as [-> _]; [simpl; tauto|].
  destruct (Hkeep EventTypes.NODE_FAILED) as [-> _]; [simpl; tauto|].
  destruct (Hkeep EventTypes.WORKFLOW_COMPLETED) as [_ ->]; [simpl; tauto|].
  destruct (Hkeep EventTypes.WORKFLOW_FAILED) as [_ ->]; [simpl; tauto|].
  destruct (Hkeep EventTypes.LLM_RESPONDED) as [-> _]; [simpl; tauto|].
  reflexivity.
Qed.

Lemma find_is_Some {A : Type} (p : A -> bool) (l : list A) :
  is_Some (List.find p l) <-> exists x, In x l /\ p x = true.
Proof.
  split.
  - intros [x Hx]. apply find_some in Hx. eauto.
  - intros (x & Hin & Hp). destruct (List.find p l) eqn:E; [by eexists|].
    by rewrite (find_none _ _ E x Hin) in Hp.
Qed.

Lemma filter_nonempty {A : Type} (p : A -> bool) (l : list A) :
  (0 <? Z.of_nat (length (List.filter p l))) = true <-> exists x, In x l /\ p x = true.
Proof.
  rewrite Z.ltb_lt. split.
  - destruct (List.filter p l) as [|x l'] eqn:E; simpl; [lia|]. intros _.
    exists x. apply filter_In. rewrite E. by left.
  - intros (x & Hin). apply filter_In in Hin.
    destruct (List.filter p l); simpl in *; [done|lia].
Qed.

Lemma pushed_labels_sublist config events :
  sublist (pushed_labels config events) rule_labels.
Proof.
  unfold pushed_labels, rule_labels.
  change ["workflow_failed"; "node_failures"; "slow_execution"; "slow_nodes";
          "clean_execution"]
    with (["workflow_failed"] ++ ["node_failures"] ++ ["slow_execution"]
          ++ ["slow_nodes"] ++ ["clean_execution"]).
  repeat apply sublist_app;
    repeat match goal with
           | |- context [if ?b then _ else _] => destruct b
           | |- context [match ?x with Some _ => _ | None => _ end] => destruct x
           end; try reflexivity; apply sublist_nil_l.
Qed.

(** The labels come in the order of the rules and none comes twice;
    "workflow_failed" and "node_failures" are there exactly when the
    sequence holds an event of that kind; "clean_execution" never comes
    with "node_failures" or "slow_nodes". *)
Theorem labels_follow_the_rules {fmt : NumberFormat} (config : EvaluatorConfig)
    (events : list TelemetryEvent) :
  forallb well_shaped events = true ->
  exists r, evaluate config events = Some r /\
    sublist (labels r) rule_labels /\
    (In "workflow_failed" (labels r) <->
     exists e, In e events /\ has_type EventTypes.WORKFLOW_FAILED e = true) /\
    (In "node_failures" (labels r) <->
     exists e, In e events /\ has_type EventTypes.NODE_FAILED e = true) /\
    (In "clean_execution" (labels r) ->
     ~ In "node_failures" (labels r) /\ ~ In "slow_nodes" (labels r)).
Proof.
  intros Hall. destruct (evaluate_total config events Hall) as [r Hr].
  exists r. split; [done|].
  apply evaluate_exact in Hr as (_ & -> & _).
  split; [apply pushed_labels_sublist|].
  unfold pushed_labels, clean.
  rewrite <- find_is_Some, <- filter_nonempty.
  destruct (List.find (has_type EventTypes.WORKFLOW_FAILED) events) as [wf|];
    destruct (0 <? Z.of_nat (length (List.filter (has_type EventTypes.NODE_FAILED) events)))
      eqn:Hf;
    destruct (0 <? Z.of_nat (length (slow_nodes config events))) eqn:Hs;
    destruct (bool_decide (is_Some (List.find (has_type EventTypes.WORKFLOW_COMPLETED) events)));
    destruct (total_duration events) as [t|]; try destruct (_ <? t);
    try (apply Z.ltb_lt in Hf); try (apply Z.ltb_ge in Hf);
    try (apply Z.ltb_lt in Hs); try (apply Z.ltb_ge in Hs);
    repeat match goal with
           | |- context [?x =? 0] => destruct (Z.eqb_spec x 0); try lia
           end;
    simpl; (split; [|split]); try split; try tauto;
    intros; try (by eexists); try (exfalso; by destruct_and?; destruct_or?);
    try match goal with H : is_Some None |- _ => by destruct H end;
    intuition congruence.
Qed.

Lemma labels_follow_the_rules_witness :
  exists r, evaluate (fmt := exact_format) DEFAULT_CONFIG scenario_B = Some r /\
    sublist (labels r) rule_labels /\
    (In "workflow_failed" (labels r) <->
     exists e, In e scenario_B /\ has_type EventTypes.WORKFLOW_FAILED e = true) /\
    (In "node_failures" (labels r) <->
     exists e, In e scenario_B /\ has_type EventTypes.NODE_FAILED e = true) /\
    (In "clean_execution" (labels r) ->
     ~ In "node_failures" (labels r) /\ ~ In "slow_nodes" (labels r)).
Proof.
  apply (labels_follow_the_rules (fmt := exact_format) DEFAULT_CONFIG scenario_B).
  reflexivity.
Defined.

Lemma overage_penalty_pos config total :
  0 <= slowWorkflowPenaltyPerSecond config -> 0 <= overage_penalty config total.
Proof.
  intros Hp. unfold overage_penalty. destruct total as [t|]; [|done].
  destruct (Z.ltb_spec (maxWorkflowDurationMs config) t); [|done].
  apply Z.div_pos; nia.
Qed.

Lemma find_none_iff {A : Type} (p : A -> bool) (l : list A) :
  List.find p l = None <-> forall x, In x l -> p x = false.
Proof.
  split; [apply find_none|]. intros Hall.
  destruct (List.find p l) as [x|] eqn:E; [|done].
  apply find_some in E as [Hin Hp]. by rewrite (Hall x Hin) in Hp.
Qed.



(** The bound 40 is reached: a sequence with both terminal events gets the
    cap and the bonus. *)
Example failed_and_completed :
  let events := [ createWorkflowCompletedEvent "id-1" "t1" ctx0 100 0 None;
                  createWorkflowFailedEvent "id-2" "t2" ctx0 100 "late failure"
                    None None None ] in
  exists r, evaluate (fmt := exact_format) DEFAULT_CONFIG events = Some r /\
    score r = 40 /\ labels r = ["workflow_failed"; "clean_execution"].
Proof. eexists. split; [reflexivity|]. by split. Qed.

(** An event put into a sequence, seen by a search for another kind. *)
Lemma find_insert_other {A : Type} (p : A -> bool) (l1 l2 : list A) (x : A) :
  p x = false -> List.find p (l1 ++ x :: l2) = List.find p (l1 ++ l2).
Proof.
  intros Hx. induction l1 as [|y l1 IH]; simpl; [by rewrite Hx|].
  by destruct (p y).
Qed.

Lemma filter_insert_other {A : Type} (p : A -> bool) (l1 l2 : list A) (x : A) :
  p x = false -> List.filter p (l1 ++ x :: l2) = List.filter p (l1 ++ l2).
Proof. intros Hx. rewrite !List.filter_app. simpl. by rewrite Hx. Qed.

Lemma filter_insert {A : Type} (p : A -> bool) (l1 l2 : list A) (x : A) :
  p x = true ->
  List.filter p (l1 ++ x :: l2) = List.filter p l1 ++ x :: List.filter p l2.
Proof. intros Hx. rewrite List.filter_app. simpl. by rewrite Hx. Qed.

Lemma other_type t t' e : t <> t' -> has_type t e = true -> has_type t' e = false.
Proof.
  unfold has_type. intros Hne ->%String.eqb_eq. by apply String.eqb_neq.
Qed.

Lemma clamp_mono a b : a <= b -> Z.max 0 (Z.min 100 a) <= Z.max 0 (Z.min 100 b).
Proof. lia. Qed.



(** The loop that finds the slowest node: a later event takes the place only
    with a strictly longer duration. *)
Lemma slowest_loop l acc res :
  for_of slowest_step l acc = Some res ->
  match res with
  | None => acc = None /\ forall e, In e l -> duration_ms e = None
  | Some s =>
      (acc = Some s /\
       forall x d, In x l -> duration_ms x = Some d -> d <= slowest_duration_ms s) \/
      (exists l1 e l2 nc,
         l = l1 ++ e :: l2 /\ duration_ms e = Some (slowest_duration_ms s) /\
         node_context e = Some nc /\ node_name nc = name s /\
         (forall s0, acc = Some s0 -> slowest_duration_ms s0 < slowest_duration_ms s) /\
         (forall x d, In x l1 -> duration_ms x = Some d -> d < slowest_duration_ms s) /\
         (forall x d, In x l2 -> duration_ms x = Some d -> d <= slowest_duration_ms s))
  end.
Proof.
  revert acc. induction l as [|x l IH]; intros acc; simpl.
  - intros [= <-]. destruct acc as [s|]; [|done]. by left.
  - destruct (slowest_step acc x) as [acc'|] eqn:Hstep; simpl; [|done].
    intros Hres. specialize (IH _ Hres). unfold slowest_step in Hstep.
    destruct (duration_ms x) as [d|] eqn:Hd.
    + destruct (match acc with Some s => slowest_duration_ms s <? d | None => true end)
        eqn:Hlt.
      * destruct (node_context x) as [nc|] eqn:Hnc; simpl in Hstep; [|done].
        injection Hstep as <-. destruct res as [s|]; [|by destruct IH as [? _]].
        right. destruct IH as [[[= <-] Hmax]|(l1 & e & l2 & nc' & -> & ? & ? & ? & Hacc & Hl1 & Hl2)].
        -- exists [], x, l, nc. simpl. repeat split; try done.
           intros s0 ->. by apply Z.ltb_lt in Hlt.
        -- specialize (Hacc _ eq_refl). simpl in Hacc.
           exists (x :: l1), e, l2, nc'. repeat split; try done.
           ++ intros s0 ->. apply Z.ltb_lt in Hlt. lia.
           ++ intros y d' [<-|Hin] Hd'; [|by eapply Hl1]. congruence.
      * injection Hstep as <-.
        destruct acc as [s0|]; [|done]. apply Z.ltb_ge in Hlt.
        destruct res as [s|]; [|by destruct IH as [? _]].
        destruct IH as [[[= <-] Hmax]|(l1 & e & l2 & nc' & -> & ? & ? & ? & Hacc & Hl1 & Hl2)].
        -- left. split; [done|]. intros y d' [<-|Hin] Hd'; [|by eapply Hmax].
           rewrite Hd in Hd'. injection Hd' as <-. done.
        -- right. specialize (Hacc _ eq_refl).
           exists (x :: l1), e, l2, nc'. repeat split; try done.
           ++ by intros ? [= <-].
           ++ intros y d' [<-|Hin] Hd'; [|by eapply Hl1].
              rewrite Hd in Hd'. injection Hd' as <-. lia.
    + injection Hstep as <-. destruct res as [s|].
      * destruct IH as [[-> Hmax]|(l1 & e & l2 & nc' & -> & ? & ? & ? & Hacc & Hl1 & Hl2)].
        -- left. split; [done|]. intros y d' [<-|Hin] Hd'; [congruence|by eapply Hmax].
        -- right. exists (x :: l1), e, l2, nc'. repeat split; try done.
           intros y d' [<-|Hin] Hd'; [congruence|by eapply Hl1].
      * destruct IH as [? Hnone]. split; [done|].
        intros e [<-|Hin]; [done|by apply Hnone].
Qed.

Lemma sum_bounded (ds : list Z) (m a : Z) :
  Forall (fun d => d <= m) ds -> foldl Z.add a ds <= a + m * Z.of_nat (length ds).
Proof.
  revert a. induction ds as [|d ds IH]; intros a Hall; simpl; [lia|].
  apply Forall_cons in Hall as [Hd Hall]. specialize (IH (a + d) Hall). lia.
Qed.

Lemma round_bounded (q : Q) (m : Z) : (q <= inject_Z m)%Q -> Math_round q <= m.
Proof.
  intros Hq. unfold Math_round.
  assert (Hm : Qfloor (inject_Z m + (1 # 2)) = m).
  { unfold Qfloor, Qplus, inject_Z. simpl. rewrite Z.mul_1_r.
    rewrite Z.add_comm, Z.div_add by done. done. }
  etransitivity; [|apply Z.eq_le_incl, Hm].
  apply Qfloor_resp_le. by apply Qplus_le_l.
Qed.

Lemma omap_durations (l : list TelemetryEvent) (d : Z) :
  In d (omap duration_ms l) -> exists e, In e l /\ duration_ms e = Some d.
Proof.
  induction l as [|x l IH]; simpl; [done|].
  destruct (duration_ms x) as [d'|] eqn:E; simpl.
  - intros [<-|Hin]; [by exists x; auto|]. destruct (IH Hin) as (e & ? & ?). eauto.
  - intros Hin. destruct (IH Hin) as (e & ? & ?). eauto.
Qed.

Lemma omap_durations_nil (l : list TelemetryEvent) :
  (forall e, In e l -> duration_ms e = None) -> omap duration_ms l = [].
Proof.
  induction l as [|x l IH]; simpl; [done|]. intros Hnone.
  rewrite (Hnone x) by (by left). apply IH. intros. apply Hnone. by right.
Qed.



Lemma filter_nil_iff {A : Type} (p : A -> bool) (l : list A) :
  (forall x, In x l -> p x = false) -> List.filter p l = [].
Proof.
  induction l as [|x l IH]; simpl; [done|]. intros Hall.
  rewrite (Hall x) by (by left). apply IH. intros. apply Hall. by right.
Qed.



End ScoringFacts.

(** ** Redaction, as [prepareEvent] applies it *)
Module PrepareFacts.
Import Js Events Factory Redaction BaseTransport Examples Notions RedactionFacts.

Lemma redact_is_object fields v : is_object (redactSensitiveData fields v) = true.
Proof. destruct v; try done. Qed.

Lemma redact_item_twice fields y :
  (is_object y = true ->
   redactSensitiveData fields (redactSensitiveData fields y)
   = redactSensitiveData fields y) ->
  redact_item fields (redact_item fields y) = redact_item fields y.
Proof.
  intros IH. unfold redact_item at 2 3. destruct (is_object y) eqn:Hy.
  - unfold redact_item. rewrite redact_is_object. by apply IH.
  - unfold redact_item. by rewrite Hy.
Qed.

(** Redacting what was redacted changes nothing. *)
Lemma redact_idempotent fields v :
  redactSensitiveData fields (redactSensitiveData fields v)
  = redactSensitiveData fields v.
Proof.
  remember (Store.depth v) as n eqn:Hn. revert v Hn.
  induction n as [n IH] using lt_wf_ind. intros v ->.
  destruct (is_object v) eqn:Hobj; [|by destruct v].
  rewrite (redact_unfold fields v) by done.
  rewrite redact_unfold by done. simpl. f_equal.
  rewrite map_map. apply map_ext_in. intros [k x] Hin. simpl. f_equal.
  pose proof (entries_depth v k x Hin) as Hd.
  unfold redact_entry at 2 3. destruct (shouldRedact fields k) eqn:Hk.
  - unfold redact_entry. by rewrite Hk.
  - destruct x as [| | | | |items|props]; try (unfold redact_entry; by rewrite Hk).
    + unfold redact_entry. rewrite Hk. f_equal. rewrite map_map.
      apply map_ext_in. intros y Hy. apply redact_item_twice. intros _.
      eapply IH; [|reflexivity]. pose proof (items_depth items y Hy). lia.
    + unfold redact_entry. rewrite Hk.
      destruct (redactSensitiveData fields (VObj props)) eqn:E;
        try (rewrite redact_unfold in E by done; discriminate).
      rewrite <- E. by eapply IH.
Qed.

Lemma redact_object_idempotent fields o :
  redact_object fields (redact_object fields o) = redact_object fields o.
Proof.
  unfold redact_object.
  pose proof (redact_idempotent fields (VObj o)) as Hi.
  destruct (redactSensitiveData fields (VObj o)) eqn:E; try done.
  by rewrite Hi.
Qed.


Lemma map_id_in {A : Type} (f : A -> A) (l : list A) :
  (forall x, In x l -> f x = x) -> List.map f l = l.
Proof.
  induction l as [|x l IH]; intros Hf; simpl; [done|].
  rewrite Hf by (by left). f_equal. apply IH. intros. apply Hf. by right.
Qed.

(** Where no key matches, and no array sits directly in an array, the
    record comes back as it was. *)
Lemma redact_clean fields props :
  flat_arrays (VObj props) = true -> no_match fields (VObj props) = true ->
  redactSensitiveData fields (VObj props) = VObj props.
Proof.
  remember (Store.depth (VObj props)) as n eqn:Hn. revert props Hn.
  induction n as [n IH] using lt_wf_ind. intros props -> Hflat Hclean.
  rewrite redact_unfold by done. simpl. f_equal.
  simpl in Hflat, Hclean. rewrite forallb_forall in Hflat, Hclean.
  apply map_id_in. intros [k x] Hin. simpl. f_equal.
  specialize (Hflat _ Hin). specialize (Hclean _ Hin). simpl in Hflat, Hclean.
  apply andb_prop in Hclean as [Hk Hx]. apply negb_true_iff in Hk.
  pose proof (entries_depth (VObj props) k x Hin) as Hd.
  unfold redact_entry. rewrite Hk.
  destruct x as [| | | | |items|props']; try done.
  - f_equal. simpl in Hflat, Hx. rewrite forallb_forall in Hflat, Hx.
    apply map_id_in. intros y Hy. specialize (Hflat _ Hy). specialize (Hx _ Hy).
    unfold redact_item. destruct y as [| | | | |?|props'']; try done.
    simpl is_object. cbv iota. eapply IH; [|reflexivity|done..].
    pose proof (items_depth items _ Hy). lia.
  - by eapply IH.
Qed.



(** Under the default configuration of a transport the token counts of the
    LLM events do not reach the destination: their keys contain "token",
    one of the default fields, whether or not a count was given. *)
Theorem default_redaction_hides_token_counts (eid ts : string)
    (context : ExecutionContext) (nodeContext : NodeContext) (durationMs : Z)
    (provider model : option string) (prompt completion total : option Z) :
  let c := spread_config defaults no_config in
  (exists p,
     payload (prepareEvent c
                (createLLMRequestedEvent eid ts context nodeContext provider model prompt))
     = Some p /\
     get p "prompt_tokens" = VStr REDACTED /\
     get p "provider" = opt_str provider /\ get p "model" = opt_str model) /\
  (exists p,
     payload (prepareEvent c
                (createLLMRespondedEvent eid ts context nodeContext durationMs
                   provider model completion total))
     = Some p /\
     get p "completion_tokens" = VStr REDACTED /\
     get p "total_tokens" = VStr REDACTED /\
     get p "provider" = opt_str provider /\ get p "model" = opt_str model).
Proof.
  split; eexists; (split; [reflexivity|]); destruct provider, model; by vm_compute.
Qed.

End PrepareFacts.

(** ** Transports: what a sequence of calls leaves behind *)
Module PipelineFacts.
Import Js Events Async TransportInterface BaseTransport TransportApi Examples Notions
  TransportFacts.

Section Base.
Context {D : Type} {destination_D : Destination D}.

Lemma on_dest_fields {A : Type} (m : Task D A) (st : State D) :
  config (on_dest m st).1 = config st /\
  flushTimer (on_dest m st).1 = flushTimer st /\
  timers (on_dest m st).1 = timers st /\
  buffer (on_dest m st).1 = buffer st.
Proof. unfold on_dest. by destruct (m (dest st)). Qed.

Lemma flush_fields (st : State D) :
  config (flush st).1 = config st /\
  flushTimer (flush st).1 = flushTimer st /\
  timers (flush st).1 = timers st.
Proof.
  unfold flush. destruct (buffer st) as [|e es]; [done|].
  destruct (on_dest_fields (doSendBatch (e :: es)) (set_buffer [] st)) as (-> & -> & -> & _).
  done.
Qed.

Lemma flush_if_full_fields (st : State D) :
  config (flush_if_full st).1 = config st /\
  flushTimer (flush_if_full st).1 = flushTimer st /\
  timers (flush_if_full st).1 = timers st.
Proof. unfold flush_if_full. destruct (_ <=? _); [apply flush_fields|done]. Qed.

(** The calls leave the configuration and the timer alone. *)
Lemma run_transport_call_fields c (st : State D) :
  config (run_transport_call c st) = config st /\
  flushTimer (run_transport_call c st) = flushTimer st /\
  timers (run_transport_call c st) = timers st.
Proof.
  destruct c as [e|es|]; simpl; [| |apply flush_fields].
  - unfold send. destruct (is_buffered (config st)).
    + destruct (flush_if_full_fields (set_buffer (buffer st ++ [prepareEvent (config st) e]) st))
        as (-> & -> & ->). done.
    + destruct (on_dest_fields (doSend (prepareEvent (config st) e)) st) as (-> & -> & -> & _).
      done.
  - unfold sendBatch. destruct (is_buffered (config st)).
    + destruct (flush_if_full_fields
                  (set_buffer (buffer st ++ List.map (prepareEvent (config st)) es) st))
        as (-> & -> & ->). done.
    + destruct (on_dest_fields (doSendBatch (List.map (prepareEvent (config st)) es)) st)
        as (-> & -> & -> & _). done.
Qed.

Lemma run_transport_calls_fields cs (st : State D) :
  config (run_transport_calls cs st) = config st /\
  flushTimer (run_transport_calls cs st) = flushTimer st /\
  timers (run_transport_calls cs st) = timers st.
Proof.
  revert st. induction cs as [|c cs IH]; intros st; [done|]. simpl.
  destruct (IH (run_transport_call c st)) as (-> & -> & ->).
  apply run_transport_call_fields.
Qed.

Lemma flush_if_full_bound (st : State D) :
  Z.of_nat (length (buffer (flush_if_full st).1)) < Z.max 1 (threshold (config st)).
Proof.
  unfold flush_if_full. destruct (Z.leb_spec (threshold (config st))
                                    (Z.of_nat (length (buffer st)))) as [Hfull|Hroom].
  - rewrite flush_buffer. simpl. lia.
  - simpl. lia.
Qed.

Lemma run_transport_call_bound c (st : State D) :
  Z.of_nat (length (buffer st)) < Z.max 1 (threshold (config st)) ->
  Z.of_nat (length (buffer (run_transport_call c st)))
  < Z.max 1 (threshold (config st)).
Proof.
  intros Hst. destruct c as [e|es|]; simpl.
  - unfold send. destruct (is_buffered (config st)).
    + apply (flush_if_full_bound (set_buffer _ st)).
    + by rewrite on_dest_buffer.
  - unfold sendBatch. destruct (is_buffered (config st)).
    + apply (flush_if_full_bound (set_buffer _ st)).
    + by rewrite on_dest_buffer.
  - rewrite flush_buffer. simpl. lia.
Qed.

Lemma close_timers (st : State D) :
  timers (close st).1 = match flushTimer st with
                        | Some id => timers st ∖ {[id]}
                        | None => timers st
                        end.
Proof.
  unfold close, and_then, bind. destruct (flushTimer st) as [id|].
  - pose proof (flush_timers (clearInterval id st)) as Hf.
    destruct (flush (clearInterval id st)) as [st1 [[]|reason]]; simpl in Hf.
    + by rewrite on_dest_timers.
    + done.
  - pose proof (flush_timers st) as Hf.
    destruct (flush st) as [st1 [[]|reason]]; simpl in Hf.
    + by rewrite on_dest_timers.
    + done.
Qed.

End Base.

(** Between two calls the buffer of a transport never holds [bufferSize]
    events: a call that fills it flushes it, also when the delivery then
    fails; an unbuffered transport holds none at all. *)
Theorem buffer_stays_below_threshold {D : Type} {destination_D : Destination D}
    (cfg : TransportConfig) (timers0 : gset nat) (d : D) (cs : list transport_call) :
  let st := run_transport_calls cs (BaseTransport.constructor cfg timers0 d) in
  Z.of_nat (length (buffer st)) < Z.max 1 (threshold (config st)) /\
  (is_buffered (config st) = false -> buffer st = []).
Proof.
  cbv zeta. split.
  - induction cs as [|c cs IH] using rev_ind.
    + simpl. unfold BaseTransport.constructor. destruct (_ && _); simpl; lia.
    + unfold run_transport_calls in *. rewrite foldl_app. simpl.
      destruct (run_transport_call_fields c
                  (foldl (fun st c => run_transport_call c st)
                     (BaseTransport.constructor cfg timers0 d) cs)) as (-> & _).
      by apply run_transport_call_bound.
  - induction cs as [|c cs IH] using rev_ind.
    + intros _. simpl. unfold BaseTransport.constructor. by destruct (_ && _).
    + unfold run_transport_calls in *. rewrite foldl_app. simpl.
      set (st := foldl _ _ cs) in *.
      destruct (run_transport_call_fields c st) as (-> & _). intros Hb.
      specialize (IH Hb). destruct c as [e|es|]; simpl.
      * unfold send. rewrite Hb. by rewrite on_dest_buffer.
      * unfold sendBatch. rewrite Hb. by rewrite on_dest_buffer.
      * apply flush_buffer.
Qed.

Lemma difference_fresh (id : nat) (s : gset nat) : id ∉ s -> ({[id]} ∪ s) ∖ {[id]} = s.
Proof.
  intros Hid. apply set_eq. intros x.
  rewrite elem_of_difference, elem_of_union, !elem_of_singleton. split.
  - intros [[->|Hx] Hne]; done.
  - intros Hx. split; [by right|]. intros ->. done.
Qed.

(** [close] gives back exactly what the constructor took: the interval the
    constructor scheduled (for a buffered transport with a flush interval)
    stays scheduled through every call, and after [close] the scheduled
    intervals are those from before the transport was built. *)
Theorem close_releases_what_the_constructor_took {D : Type}
    {destination_D : Destination D} (cfg : TransportConfig) (timers0 : gset nat)
    (d : D) (cs : list transport_call) :
  let st := run_transport_calls cs (BaseTransport.constructor cfg timers0 d) in
  timers st = (if is_buffered (config st) && has_interval (config st)
               then {[fresh timers0]} ∪ timers0 else timers0) /\
  timers (close st).1 = timers0.
Proof.
  cbv zeta.
  destruct (run_transport_calls_fields cs (BaseTransport.constructor cfg timers0 d))
    as (Hc & Ht & Hs).
  set (st := run_transport_calls cs _) in *.
  pose proof (close_timers st) as Hclose.
  rewrite Hclose, Hs, Ht, Hc. unfold BaseTransport.constructor.
  destruct (is_buffered (spread_config defaults cfg)
            && has_interval (spread_config defaults cfg)) eqn:E; simpl; rewrite E.
  - split; [done|]. apply difference_fresh, is_fresh.
  - done.
Qed.

Section File.
Import FileTransport FileFacts.
Context {codec : JsonCodec}.

(** One write to the file transport's destination. *)
Lemma file_doSendBatch events (fs : FileState) :
  FileTransport.doSendBatch events fs
  = if writable fs
    then ({| filePath := filePath fs;
             file := Some (default [] (file fs)
                           ++ join_lines (List.map stringify events) ++ [newline]);
             writable := writable fs;
             inMemoryStore := inMemoryStore fs ++ events |}, Resolved ())
    else (fs, Rejected "EACCES").
Proof.
  unfold FileTransport.doSendBatch, and_then, bind, appendToFile, appendFile, store.
  by destruct (writable fs).
Qed.

Lemma file_doSend event (fs : FileState) :
  FileTransport.doSend event fs = FileTransport.doSendBatch [event] fs.
Proof. done. Qed.

Lemma run_write_store w (fs : FileState) :
  writable fs = true ->
  inMemoryStore (run_write w fs) = inMemoryStore fs ++ events_of w /\
  writable (run_write w fs) = true.
Proof.
  intros Hw. destruct w as [e|es]; simpl; rewrite ?file_doSend, file_doSendBatch, Hw; done.
Qed.

Lemma run_writes_store ws (fs : FileState) :
  writable fs = true ->
  inMemoryStore (foldl (fun fs w => run_write w fs) fs ws)
  = inMemoryStore fs ++ flat_map events_of ws.
Proof.
  revert fs. induction ws as [|w ws IH]; intros fs Hw; simpl; [by rewrite app_nil_r|].
  destruct (run_write_store w fs Hw) as [Hs Hw']. rewrite IH, Hs by done.
  by rewrite <- app_assoc.
Qed.

Lemma run_writes_read_only ws (fs : FileState) :
  writable fs = false -> foldl (fun fs w => run_write w fs) fs ws = fs.
Proof.
  intros Hw. induction ws as [|w ws IH]; simpl; [done|].
  destruct w as [e|es]; simpl; rewrite ?file_doSend, file_doSendBatch, Hw; done.
Qed.

Lemma unlines_app (ls1 ls2 : list text) : unlines (ls1 ++ ls2) = unlines ls1 ++ unlines ls2.
Proof. unfold unlines. by rewrite flat_map_app. Qed.

Lemma written_events ws :
  Forall (fun w => Forall well_formed (events_of w)) ws ->
  omap parse (List.filter not_blank (flat_map (fun w => lines_of (events_of w)) ws))
  = flat_map events_of ws.
Proof.
  induction 1 as [|x xs Hx _ IH]; [done|].
  simpl. rewrite List.filter_app, omap_app, IH.
  by rewrite (lines_of_filter _ Hx), (parse_stringify _ Hx).
Qed.

(** The lines of a file, each ended by a newline, as they are read. *)
Lemma parse_file_lines (ls : list text) :
  Forall line_ok ls ->
  parse_lines (unlines ls) = omap parse (List.filter not_blank ls).
Proof. intros Hok. unfold parse_lines. by rewrite read_lines. Qed.

End File.





(** What a file with a broken line gives. *)
Example read_around_a_broken_line :
  let codec := Json.json_codec in
  FileTransport.readFromFile
    (FileTransport.open_file "./data/events.jsonl"
       (Some (unlines [FileTransport.stringify event_a; list_ascii_of_string "{broken";
                       []; FileTransport.stringify event_b])) true)
  = [event_a; event_b].
Proof. vm_compute. reflexivity. Qed.

Section FileTransport.
Context {codec : FileTransport.JsonCodec}.

Lemma flush_file loaded seen (st : State FileTransport.FileState) :
  file_invariant loaded seen st ->
  file_invariant loaded seen (flush st).1 /\
  buffer (flush st).1 = [] /\ (flush st).2 = Resolved ().
Proof.
  intros (Hw & Hb & Hs). unfold flush. destruct (buffer st) as [|e es] eqn:E.
  - simpl. split; [|done]. split; [done|]. split; [done|]. by rewrite E.
  - unfold on_dest, set_buffer. simpl. rewrite file_doSendBatch, Hw. simpl.
    split; [|done]. split; [done|]. split; [done|]. simpl. by rewrite app_nil_r.
Qed.

Lemma flush_if_full_file loaded seen (st : State FileTransport.FileState) :
  file_invariant loaded seen st -> file_invariant loaded seen (flush_if_full st).1.
Proof.
  intros Hst. unfold flush_if_full. destruct (_ <=? _); [|done].
  by apply flush_file.
Qed.

Lemma run_transport_call_file loaded seen c (st : State FileTransport.FileState) :
  file_invariant loaded seen st ->
  file_invariant loaded (seen ++ List.map (prepareEvent (config st)) (handed c))
    (run_transport_call c st).
Proof.
  intros (Hw & Hb & Hs). destruct c as [e|es|]; simpl.
  - unfold send. destruct (is_buffered (config st)) eqn:Hbuf.
    + apply flush_if_full_file. split; [done|]. split; [simpl; congruence|].
      simpl. by rewrite !app_assoc, Hs.
    + pose proof (Hb eq_refl) as Hnil. rewrite Hnil in Hs. unfold on_dest. simpl.
      rewrite file_doSend, file_doSendBatch, Hw. simpl.
      split; [done|]. split; [done|]. simpl.
      rewrite Hnil, app_nil_r in *. by rewrite Hs, <- app_assoc.
  - unfold sendBatch. destruct (is_buffered (config st)) eqn:Hbuf.
    + apply flush_if_full_file. split; [done|]. split; [simpl; congruence|].
      simpl. by rewrite !app_assoc, Hs.
    + pose proof (Hb eq_refl) as Hnil. rewrite Hnil in Hs. unfold on_dest. simpl.
      rewrite file_doSendBatch, Hw. simpl.
      split; [done|]. split; [done|]. simpl.
      rewrite Hnil, app_nil_r in *. by rewrite Hs, <- app_assoc.
  - rewrite app_nil_r. by apply flush_file.
Qed.

End FileTransport.

(** A file transport over a file it can write loses nothing and keeps the
    order: between two calls its index followed by its buffer is what the
    constructor loaded followed by the prepared (redacted) events of every
    [send] and [sendBatch] so far, buffered or not; [close] resolves and
    leaves all of them in the index, none in the buffer. *)
Theorem file_transport_loses_nothing {codec : FileTransport.JsonCodec}
    (cfg : TransportConfig) (path : string) (existing : option FileTransport.text)
    (timers0 : gset nat) (cs : list transport_call) :
  let st := run_transport_calls cs
              (FileTransport.constructor cfg path existing true timers0) in
  let loaded := FileTransport.inMemoryStore (FileTransport.open_file path existing true) in
  let prepared := List.map (prepareEvent (spread_config defaults cfg))
                    (flat_map handed cs) in
  FileTransport.queryAll (dest st) ++ buffer st = loaded ++ prepared /\
  (close st).2 = Resolved () /\
  FileTransport.queryAll (dest (close st).1) = loaded ++ prepared /\
  buffer (close st).1 = [].
Proof.
  cbv zeta.
  set (st0 := FileTransport.constructor cfg path existing true timers0).
  set (loaded := FileTransport.inMemoryStore (FileTransport.open_file path existing true)).
  assert (Hcfg : config st0 = spread_config defaults cfg).
  { unfold st0, FileTransport.constructor, BaseTransport.constructor.
    by destruct (_ && _). }
  assert (Hinv : file_invariant loaded
                   (List.map (prepareEvent (spread_config defaults cfg)) (flat_map handed cs))
                   (run_transport_calls cs st0)).
  { induction cs as [|c cs IH] using rev_ind.
    - simpl. unfold file_invariant, loaded, st0, FileTransport.constructor,
        BaseTransport.constructor.
      destruct (_ && _); simpl; rewrite !app_nil_r; done.
    - unfold run_transport_calls in *. rewrite foldl_app, flat_map_app, map_app. simpl.
      rewrite app_nil_r.
      destruct (run_transport_calls_fields cs st0) as (Hc & _).
      unfold run_transport_calls in Hc. rewrite <- Hcfg, <- Hc.
      apply run_transport_call_file. rewrite Hc, Hcfg. exact IH. }
  set (st := run_transport_calls cs st0) in *.
  split; [by destruct Hinv as (_ & _ & ?)|].
  unfold close, and_then, bind.
  set (st1 := match flushTimer st with
              | Some id => clearInterval id st
              | None => st
              end).
  assert (Hinv1 : file_invariant loaded
                    (List.map (prepareEvent (spread_config defaults cfg))
                       (flat_map handed cs)) st1).
  { unfold st1. by destruct (flushTimer st). }
  destruct (flush_file _ _ st1 Hinv1) as ((Hw & _ & Hs) & Hb & Hr).
  destruct (flush st1) as [st2 r]. simpl in *. subst r.
  unfold on_dest. simpl. rewrite Hb in Hs. rewrite app_nil_r in Hs. done.
Qed.

End PipelineFacts.

(** ** The HTTP transport: retries and cache *)
Module HttpFacts.
Import Js Events Factory Async TransportInterface BaseTransport TransportApi Examples
  Notions.
Import HttpTransport.

Section Scripted.
Variable encode : list TelemetryEvent -> list ascii.
#[local] Existing Instance scripted_network.

Lemma after_requests_twice (st : HttpState scripted) r1 b1 d1 l1 r2 b2 d2 l2 :
  after_requests (after_requests st r1 b1 d1 l1) r2 b2 d2 l2
  = after_requests st r2 (b1 ++ b2) (d1 ++ d2) (l1 ++ l2).
Proof. unfold after_requests. simpl. by rewrite !app_assoc. Qed.

Lemma delay_after (st : HttpState scripted) ms rest bodies delays lines :
  delay ms (after_requests st rest bodies delays lines)
  = after_requests st rest bodies (delays ++ [ms]) lines.
Proof. unfold delay, after_requests. simpl. by rewrite <- app_assoc. Qed.

Lemma backoff_from (d a : Z) (n : nat) :
  [d * (a + 1)] ++ List.map (fun i => d * (a + 1 + Z.of_nat i)) (seq 1 n)
  = List.map (fun i => d * (a + Z.of_nat i)) (seq 1 (S n)).
Proof.
  simpl. f_equal; try (f_equal; lia).
  rewrite <- (seq_shift n 1), map_map. apply map_ext. intros i. f_equal. lia.
Qed.

(** One request that the network rejects. *)
Lemma request_rejected (st : HttpState scripted) body error rest :
  answers (net st) = Rejected error :: rest ->
  on_net (makeRequest (Network := scripted_network encode) body) st
  = (after_requests st rest [body] [] [], Rejected error).
Proof.
  intros Ha. unfold on_net, after_requests. simpl. rewrite Ha. simpl.
  by rewrite !app_nil_r.
Qed.

Lemma request_resolved (st : HttpState scripted) body rest :
  answers (net st) = Resolved () :: rest ->
  on_net (makeRequest (Network := scripted_network encode) body) st
  = (after_requests st rest [body] [] [], Resolved ()).
Proof.
  intros Ha. unfold on_net, after_requests. simpl. rewrite Ha. simpl.
  by rewrite !app_nil_r.
Qed.

Lemma attempts_step {N : Type} {network_N : Network N} remaining attempt lastError body
    (st : HttpState N) :
  attempts (S remaining) attempt lastError body st
  = match on_net (makeRequest body) st with
    | (st, Resolved _) => (st, Resolved ())
    | (st, Rejected error) =>
        attempts remaining (attempt + 1) (Some error) body
          (if attempt <? http_retries st
           then delay (http_retryDelayMs st * (attempt + 1)) st
           else st)
    end.
Proof. done. Qed.

(** The loop, up to the first request that succeeds. *)
Lemma attempts_until_success errs rest remaining attempt lastError body d
    (st : HttpState scripted) :
  http_retryDelayMs st = d ->
  answers (net st) = List.map Rejected errs ++ Resolved () :: rest ->
  (length errs < remaining)%nat ->
  attempt + Z.of_nat (length errs) <= http_retries st ->
  attempts (network_N := scripted_network encode) remaining attempt lastError body st
  = (after_requests st rest (repeat body (S (length errs)))
       (List.map (fun i => d * (attempt + Z.of_nat i)) (seq 1 (length errs))) [],
     Resolved ()).
Proof.
  revert remaining attempt lastError st.
  induction errs as [|error errs IH]; intros remaining attempt lastError st Hd Ha Hlen Hr;
    (destruct remaining as [|remaining]; [simpl in Hlen; lia|]); rewrite attempts_step.
  - by rewrite (request_resolved st body rest Ha).
  - rewrite (request_rejected st body error
               (List.map Rejected errs ++ Resolved () :: rest) Ha).
    replace (attempt <? http_retries (after_requests st _ [body] [] [])) with true
      by (symmetry; apply Z.ltb_lt; simpl in *; lia).
    rewrite delay_after. simpl http_retryDelayMs.
    rewrite (IH remaining (attempt + 1) (Some error)); [|done|done|simpl in *; lia..].
    rewrite after_requests_twice, !app_nil_l. simpl length.
    rewrite Hd, (backoff_from d attempt (length errs)). done.
Qed.

(** The loop, when every request it makes is rejected. *)
Lemma attempts_all_rejected errs rest attempt lastError body d (st : HttpState scripted) :
  http_retryDelayMs st = d ->
  answers (net st) = List.map Rejected errs ++ rest ->
  attempt + Z.of_nat (length errs) = http_retries st + 1 ->
  let error := thrown (match last errs with Some e => Some e | None => lastError end) in
  attempts (network_N := scripted_network encode) (length errs) attempt lastError body st
  = (after_requests st rest (repeat body (length errs))
       (List.map (fun i => d * (attempt + Z.of_nat i)) (seq 1 (length errs - 1)))
       ["[HttpTransport] Failed to send events after retries: " +:+ error],
     Rejected error).
Proof.
  revert attempt lastError st.
  induction errs as [|error errs IH]; intros attempt lastError st Hd Ha Hr; cbv zeta.
  - destruct st as [ep hs tm rt dl cache [ans rcv] sl con].
    unfold console_error, after_requests. simpl in *. subst ans.
    by rewrite !app_nil_r.
  - simpl length. rewrite attempts_step.
    rewrite (request_rejected st body error (List.map Rejected errs ++ rest) Ha).
    simpl http_retries. simpl http_retryDelayMs.
    assert (Hlast : match last (error :: errs) with
                    | Some e => Some e
                    | None => lastError
                    end = match last errs with Some e => Some e | None => Some error end).
    { destruct errs as [|e errs]; [done|]. rewrite last_cons_cons.
      destruct (last (e :: errs)) eqn:E; [done|]. by apply last_None in E. }
    rewrite Hlast. destruct errs as [|e errs].
    + replace (attempt <? http_retries st) with false
        by (symmetry; apply Z.ltb_ge; simpl in *; lia).
      change (List.map Rejected [] ++ rest) with rest.
      specialize (IH (attempt + 1) (Some error) (after_requests st rest [body] [] [])).
      cbv zeta in IH. rewrite IH; [|done|done|simpl in *; lia].
      by rewrite after_requests_twice.
    + replace (attempt <? http_retries st) with true
        by (symmetry; apply Z.ltb_lt; simpl in *; lia).
      rewrite delay_after.
      specialize (IH (attempt + 1) (Some error)
                    (after_requests st (List.map Rejected (e :: errs) ++ rest) [body]
                       ([] ++ [d * (attempt + 1)]) [])).
      cbv zeta in IH. rewrite Hd.
      rewrite IH; [|done|done|simpl in *; lia].
      rewrite after_requests_twice, !app_nil_l. simpl length.
      replace (S (length errs) - 1)%nat with (length errs) by lia.
      replace (S (S (length errs)) - 1)%nat with (S (length errs)) by lia.
      by rewrite (backoff_from d attempt (length errs)).
Qed.

End Scripted.

(** [sendToEndpoint] stops at the first request that succeeds: after [k]
    rejected requests, [k] at most [retries], it has sent the same body
    [k + 1] times, waited [retryDelayMs], twice that, ..., [k] times that
    between them, logged nothing, and it resolves. *)
Theorem http_stops_at_first_success (encode : list TelemetryEvent -> list ascii)
    (st : HttpState scripted) (events : list TelemetryEvent)
    (errs : list string) (rest : list (outcome unit)) :
  answers (net st) = List.map Rejected errs ++ Resolved () :: rest ->
  Z.of_nat (length errs) <= http_retries st ->
  sendToEndpoint (network_N := scripted_network encode) events st
  = (after_requests st rest (repeat (encode events) (S (length errs)))
       (backoff (http_retryDelayMs st) (length errs)) [],
     Resolved ()).
Proof.
  intros Ha Hk. unfold sendToEndpoint.
  rewrite (attempts_until_success encode errs rest _ 0 None _ (http_retryDelayMs st));
    [done|done|done|lia|lia].
Qed.

Lemma http_stops_at_first_success_witness :
  let st := open_http {| base := no_config; endpoint := "http://localhost:3001/events";
                         headers := None; timeoutMs := None; retries := None;
                         retryDelayMs := None |}
              {| answers := [Rejected "HTTP 503: busy"; Rejected "Request timeout";
                             Resolved (); Rejected "unused"];
                 received := [] |} in
  sendToEndpoint (network_N := scripted_network (fun _ => [])) [event_a] st
  = (after_requests st [Rejected "unused"] (repeat [] 3) (backoff 1000 2) [],
     Resolved ()).
Proof.
  intros st.
  assert (Hscript : answers (net st)
                    = List.map Rejected ["HTTP 503: busy"; "Request timeout"]
                      ++ Resolved () :: [Rejected "unused"]) by reflexivity.
  assert (Hretries : Z.of_nat (length ["HTTP 503: busy"; "Request timeout"])
                     <= http_retries st) by (simpl; lia).
  exact (http_stops_at_first_success (fun _ => []) st [event_a] _ _ Hscript Hretries).
Defined.

(** When every request is rejected, [sendToEndpoint] gives up after
    [retries + 1] requests: it has waited after each of them but the last,
    it logs the failure and rejects with the error of the last request.
    With a negative [retries] it makes no request at all and rejects with
    [undefined]. *)
Theorem http_gives_up_after_the_last_retry (encode : list TelemetryEvent -> list ascii)
    (st : HttpState scripted) (events : list TelemetryEvent)
    (errs : list string) (rest : list (outcome unit)) :
  answers (net st) = List.map Rejected errs ++ rest ->
  length errs = Z.to_nat (http_retries st + 1) ->
  sendToEndpoint (network_N := scripted_network encode) events st
  = (after_requests st rest (repeat (encode events) (length errs))
       (backoff (http_retryDelayMs st) (length errs - 1))
       ["[HttpTransport] Failed to send events after retries: " +:+ thrown (last errs)],
     Rejected (thrown (last errs))).
Proof.
  intros Ha Hn. unfold sendToEndpoint. rewrite <- Hn.
  destruct (decide (errs = [])) as [->|Hne].
  - destruct st as [ep hs tm rt dl cache [ans rcv] sl con].
    unfold console_error, after_requests. simpl in *. subst ans.
    by rewrite !app_nil_r.
  - assert (0 < http_retries st + 1) by (destruct errs; simpl in *; [done|lia]).
    rewrite (attempts_all_rejected encode errs rest 0 None _ (http_retryDelayMs st));
      [|done|done|lia].
    cbv zeta. by destruct (last errs).
Qed.

Lemma http_gives_up_after_the_last_retry_witness :
  let st := open_http {| base := no_config; endpoint := "http://localhost:3001/events";
                         headers := None; timeoutMs := None; retries := Some 2;
                         retryDelayMs := Some 500 |}
              {| answers := [Rejected "HTTP 503: busy"; Rejected "Request timeout";
                             Rejected "HTTP 500: down"; Resolved ()];
                 received := [] |} in
  sendToEndpoint (network_N := scripted_network (fun _ => [])) [event_a] st
  = (after_requests st [Resolved ()] (repeat [] 3) (backoff 500 2)
       ["[HttpTransport] Failed to send events after retries: "
        +:+ thrown (last ["HTTP 503: busy"; "Request timeout"; "HTTP 500: down"])],
     Rejected (thrown (last ["HTTP 503: busy"; "Request timeout"; "HTTP 500: down"]))).
Proof.
  intros st.
  assert (Hscript : answers (net st)
                    = List.map Rejected ["HTTP 503: busy"; "Request timeout";
                                         "HTTP 500: down"]
                      ++ [Resolved ()]) by reflexivity.
  assert (Hretries : length ["HTTP 503: busy"; "Request timeout"; "HTTP 500: down"]
                     = Z.to_nat (http_retries st + 1)) by reflexivity.
  exact (http_gives_up_after_the_last_retry (fun _ => []) st [event_a] _ _
           Hscript Hretries).
Defined.

(** With a negative number of retries nothing is sent. *)
Example negative_retries :
  let st := open_http {| base := no_config; endpoint := "http://localhost:3001/events";
                         headers := None; timeoutMs := None; retries := Some (-1);
                         retryDelayMs := None |}
              {| answers := [Resolved ()]; received := [] |} in
  let after := sendToEndpoint (network_N := scripted_network (fun _ => [])) [event_a] st in
  after.2 = Rejected "undefined" /\ received (net after.1) = [].
Proof. by vm_compute. Qed.

Section Cache.
Context {N : Type} {network_N : Network N}.

Lemma attempts_cache remaining attempt lastError body (st : HttpState N) :
  eventCache (attempts remaining attempt lastError body st).1 = eventCache st.
Proof.
  revert attempt lastError st. induction remaining as [|remaining IH];
    intros attempt lastError st; [done|].
  rewrite attempts_step. unfold on_net.
  destruct (makeRequest body (net st)) as [n' [[]|error]]; [done|].
  rewrite IH. by destruct (_ <? _).
Qed.

Lemma cache_get_push cache key event key' :
  cache_get (cache_push cache key event) key'
  = if String.eqb key key'
    then Some (default [] (cache_get cache key) ++ [event])
    else cache_get cache key'.
Proof.
  induction cache as [|[k events] cache IH]; simpl.
  - by destruct (String.eqb key key').
  - destruct (String.eqb_spec k key) as [->|Hne]; simpl.
    + by destruct (String.eqb_spec key key').
    + destruct (String.eqb_spec k key') as [->|Hne'].
      * destruct (String.eqb_spec key key') as [->|_]; [done|]. done.
      * exact IH.
Qed.

Lemma cached_by_execution events executionId (st : HttpState N) :
  queryByExecution executionId (foldl (fun st e => cacheEvent e st) st events)
  = queryByExecution executionId st
    ++ List.filter (fun e => String.eqb (execution_id e) executionId) events.
Proof.
  revert st. induction events as [|e events IH]; intros st; simpl.
  - by rewrite app_nil_r.
  - rewrite IH. unfold queryByExecution, cacheEvent. cbn [eventCache].
    rewrite cache_get_push.
    destruct (String.eqb (execution_id e) executionId) eqn:E; simpl.
    + apply String.eqb_eq in E. rewrite E. by rewrite <- app_assoc.
    + done.
Qed.

Lemma cache_push_by_workflow cache key event workflowId :
  flat_map (fun entry => List.filter (fun e => String.eqb (workflow_id e) workflowId)
                           entry.2)
    (cache_push cache key event)
  ≡ₚ flat_map (fun entry => List.filter (fun e => String.eqb (workflow_id e) workflowId)
                              entry.2) cache
     ++ List.filter (fun e => String.eqb (workflow_id e) workflowId) [event].
Proof.
  induction cache as [|[k events] cache IH]; simpl.
  - by rewrite app_nil_r.
  - destruct (String.eqb k key); simpl.
    + rewrite List.filter_app. simpl.
      rewrite <- !app_assoc. apply Permutation_app_head, Permutation_app_comm.
    + rewrite IH. by rewrite <- app_assoc.
Qed.

Lemma cached_by_workflow events workflowId (st : HttpState N) :
  queryByWorkflow workflowId (foldl (fun st e => cacheEvent e st) st events)
  ≡ₚ queryByWorkflow workflowId st
     ++ List.filter (fun e => String.eqb (workflow_id e) workflowId) events.
Proof.
  revert st. induction events as [|e events IH]; intros st; simpl.
  - by rewrite app_nil_r.
  - rewrite IH. unfold queryByWorkflow, cacheEvent. cbn [eventCache].
    rewrite cache_push_by_workflow. simpl.
    destruct (String.eqb (workflow_id e) workflowId); simpl; by rewrite <- app_assoc.
Qed.

End Cache.

(** The cache of the HTTP transport follows the deliveries: a batch that
    was delivered is added to what [queryByExecution] answers, in order,
    and to what [queryByWorkflow] answers, which groups the events by
    execution; a batch whose delivery failed leaves the cache as it was.
    [doSend] is [doSendBatch] on one event. *)
Theorem http_cache_follows_deliveries {N : Type} {network_N : Network N}
    (st : HttpState N) (events : list TelemetryEvent)
    (executionId workflowId : string) :
  (match (HttpTransport.doSendBatch events st).2 with
   | Resolved _ =>
       queryByExecution executionId (HttpTransport.doSendBatch events st).1
       = queryByExecution executionId st
         ++ List.filter (fun e => String.eqb (execution_id e) executionId) events /\
       queryByWorkflow workflowId (HttpTransport.doSendBatch events st).1
       ≡ₚ queryByWorkflow workflowId st
          ++ List.filter (fun e => String.eqb (workflow_id e) workflowId) events
   | Rejected _ => eventCache (HttpTransport.doSendBatch events st).1 = eventCache st
   end) /\
  forall event, HttpTransport.doSend event st = HttpTransport.doSendBatch [event] st.
Proof.
  split; [|done].
  unfold HttpTransport.doSendBatch, and_then, bind.
  pose proof (attempts_cache (Z.to_nat (http_retries st + 1)) 0 None
                (stringify_batch events) st) as Hcache.
  fold (sendToEndpoint events st) in Hcache.
  destruct (sendToEndpoint events st) as [st1 [[]|reason]]; simpl in *; [|done].
  split.
  - rewrite cached_by_execution. unfold queryByExecution. by rewrite Hcache.
  - rewrite cached_by_workflow. unfold queryByWorkflow. by rewrite Hcache.
Qed.

(** [queryByWorkflow] follows the order in which the executions were first
    seen, not the order of delivery. *)
Example workflow_query_groups_by_execution :
  let ev (eid execution : string) :=
    createNodeStartedEvent eid "t"
      {| Factory.ctx_execution_id := execution; Factory.ctx_workflow_id := "wf-1";
         Factory.ctx_workflow_name := None; Factory.ctx_run_id := None;
         Factory.ctx_session_id := None; Factory.ctx_metadata := None |}
      (node0 "Fetch") None in
  let st := open_http {| base := no_config; endpoint := "http://localhost:3001/events";
                         headers := None; timeoutMs := None; retries := None;
                         retryDelayMs := None |}
              {| answers := [Resolved ()]; received := [] |} in
  let after := HttpTransport.doSendBatch (network_N := scripted_network (fun _ => []))
                 [ev "1" "exec-A"; ev "2" "exec-B"; ev "3" "exec-A"] st in
  List.map event_id (queryByWorkflow "wf-1" after.1) = ["1"; "3"; "2"].
Proof. by vm_compute. Qed.

End HttpFacts.

(** ** The composite transport: flush, close and the queries *)
Module MultiFacts.
Import Js Events Async TransportInterface BaseTransport TransportApi Examples Notions
  TransportFacts.

Section Multi.
Context {T : Type} {transport_T : Transport T}.

Lemma dispatch_console (call : Task T unit) (what : string) (st : MultiTransport.State T) :
  length (MultiTransport.console (MultiTransport.dispatch call what st).1)
  = (length (MultiTransport.console st)
     + length (List.filter (fun t => rejected (call t).2) (MultiTransport.transports st)))%nat.
Proof.
  unfold MultiTransport.dispatch. simpl. rewrite length_app. f_equal.
  induction (MultiTransport.transports st) as [|t ts IH]; [done|].
  simpl. rewrite length_app, IH. by destruct (call t).2.
Qed.

End Multi.

(** [flush] and [close] of the composite transport absorb failures as
    [send] does: they resolve whatever the members do, every member is
    flushed (closed), and one line is logged for each member that
    rejected. *)
Theorem multi_flush_and_close_absorb_failures {T : Type} {transport_T : Transport T}
    (st : MultiTransport.State T) :
  ((MultiTransport.flush st).2 = Resolved () /\
   (forall i t, MultiTransport.transports st !! i = Some t ->
      MultiTransport.transports (MultiTransport.flush st).1 !! i
      = Some (TransportInterface.flush t).1) /\
   length (MultiTransport.console (MultiTransport.flush st).1)
   = (length (MultiTransport.console st)
      + length (List.filter (fun t => rejected (TransportInterface.flush t).2)
                  (MultiTransport.transports st)))%nat) /\
  ((MultiTransport.close st).2 = Resolved () /\
   (forall i t, MultiTransport.transports st !! i = Some t ->
      MultiTransport.transports (MultiTransport.close st).1 !! i
      = Some (TransportInterface.close t).1) /\
   length (MultiTransport.console (MultiTransport.close st).1)
   = (length (MultiTransport.console st)
      + length (List.filter (fun t => rejected (TransportInterface.close t).2)
                  (MultiTransport.transports st)))%nat).
Proof.
  unfold MultiTransport.flush, MultiTransport.close. split.
  - destruct (dispatch_absorbs TransportInterface.flush " flush failed: " st) as [Hr Ht].
    split; [done|]. split; [|apply dispatch_console].
    intros i t Hi. by rewrite Ht, list_lookup_fmap, Hi.
  - destruct (dispatch_absorbs TransportInterface.close " close failed: " st) as [Hr Ht].
    split; [done|]. split; [|apply dispatch_console].
    intros i t Hi. by rewrite Ht, list_lookup_fmap, Hi.
Qed.

Section Queries.
Context {T : Type} {transport_T : Transport T} {queries_T : Queryable T}.

Lemma first_answer_found (query : Task T (list TelemetryEvent)) before t after events :
  Forall (fun x => (query x).2 = Resolved []) before ->
  (query t).2 = Resolved events -> events <> [] ->
  MultiTransport.first_answer query (before ++ t :: after)
  = (List.map (fun x => (query x).1) before ++ (query t).1 :: after, Resolved events).
Proof.
  intros Hbefore Ht Hne. induction Hbefore as [|x before Hx _ IH]; simpl.
  - destruct (query t) as [t' r]. simpl in Ht. subst r. by destruct events.
  - destruct (query x) as [x' r]. simpl in Hx. subst r. by rewrite IH.
Qed.

Lemma first_answer_none (query : Task T (list TelemetryEvent)) ts :
  Forall (fun x => (query x).2 = Resolved []) ts ->
  MultiTransport.first_answer query ts
  = (List.map (fun x => (query x).1) ts, Resolved []).
Proof.
  induction 1 as [|x ts Hx _ IH]; simpl; [done|].
  destruct (query x) as [x' r]. simpl in Hx. subst r. by rewrite IH.
Qed.

End Queries.

(** [queryByExecution] of the composite transport answers with the events
    of the first member, in the order of the list, that has any: the
    members after it are not asked; when no member has events the answer
    is empty. *)
Theorem multi_query_takes_the_first_answer {T : Type} {transport_T : Transport T}
    {queries_T : Queryable T} (st : MultiTransport.State T) (executionId : string)
    (before after : list T) (t : T) (events : list TelemetryEvent) :
  MultiTransport.transports st = before ++ t :: after ->
  Forall (fun x => (TransportInterface.queryByExecution executionId x).2 = Resolved [])
    before ->
  (TransportInterface.queryByExecution executionId t).2 = Resolved events ->
  events <> [] ->
  (MultiTransport.queryByExecution executionId st).2 = Resolved events /\
  MultiTransport.transports (MultiTransport.queryByExecution executionId st).1
  = List.map (fun x => (TransportInterface.queryByExecution executionId x).1) before
    ++ (TransportInterface.queryByExecution executionId t).1 :: after /\
  (MultiTransport.queryByExecution executionId
     {| MultiTransport.transports := before;
        MultiTransport.console := MultiTransport.console st |}).2 = Resolved [].
Proof.
  intros Hts Hbefore Ht Hne.
  unfold MultiTransport.queryByExecution, MultiTransport.on_members. rewrite Hts.
  rewrite (first_answer_found _ before t after events Hbefore Ht Hne). simpl.
  split; [done|]. split; [done|].
  by rewrite (first_answer_none _ before Hbefore).
Qed.

Lemma multi_query_takes_the_first_answer_witness :
  let codec := Json.json_codec in
  let empty := FileTransport.constructor no_config "./a.jsonl" None true ∅ in
  let first := (BaseTransport.send event_a
                  (FileTransport.constructor no_config "./b.jsonl" None true ∅)).1 in
  let second := (BaseTransport.send event_b
                   (FileTransport.constructor no_config "./c.jsonl" None true ∅)).1 in
  let st := {| MultiTransport.transports := [empty; first; second];
               MultiTransport.console := [] |} in
  (MultiTransport.queryByExecution "exec-7" st).2
  = Resolved [prepareEvent (spread_config defaults no_config) event_a] /\
  MultiTransport.transports (MultiTransport.queryByExecution "exec-7" st).1
  = List.map (fun x => (TransportInterface.queryByExecution "exec-7" x).1) [empty]
    ++ (TransportInterface.queryByExecution "exec-7" first).1 :: [second] /\
  (MultiTransport.queryByExecution "exec-7"
     {| MultiTransport.transports := [empty];
        MultiTransport.console := MultiTransport.console st |}).2 = Resolved [].
Proof.
  intros codec empty first second st.
  apply (multi_query_takes_the_first_answer st "exec-7" [empty] [second] first).
  - reflexivity.
  - repeat constructor.
  - reflexivity.
  - discriminate.
Defined.

End MultiFacts.

(** ** The tracker and the hook over a whole run *)
Module LifecycleFacts.
Import Js Events Factory Evaluator Async TransportInterface Tracker Hook Api Examples
  Notions EvaluatorFacts HookFacts.

Section Facts.
Context {fmt : NumberFormat} {T : Type} {transport_T : Transport T}.
Variable config : TelemetryHookConfig.

(** What the asynchronous steps of the hook do to the tracker. *)
Lemma tracker_sendEvent event (st : HookState T) :
  tracker (sendEvent event st).1 = tracker st.
Proof. unfold sendEvent, on_transport. simpl. by destruct (send event (transport st)). Qed.

Lemma tracker_runEvaluation eid' ts' id context (st : HookState T) :
  tracker (runEvaluation config eid' ts' id context st).1 = tracker st.
Proof.
  unfold runEvaluation. destruct (default [] (executionEvents st !! id)); [done|].
  destruct (evaluate _ _); [apply tracker_sendEvent|done].
Qed.

Lemma tracker_finish eid' ts' id context event (st : HookState T) :
  tracker (finish config eid' ts' id context event st).1 = tracker st \/
  tracker (finish config eid' ts' id context event st).1 = delete id (tracker st).
Proof.
  unfold finish, and_then, bind.
  pose proof (tracker_sendEvent event st) as H1.
  destruct (sendEvent event st) as [st1 [[]|reason]]; simpl in H1; [|by left].
  set (k := if enableEvaluation config
            then runEvaluation config eid' ts' id context
            else resolve ()).
  assert (H2 : tracker (k st1).1 = tracker st1).
  { unfold k. destruct (enableEvaluation config); [apply tracker_runEvaluation|done]. }
  destruct (k st1) as [st2 [[]|reason]]; simpl in H2; [|left; simpl; congruence].
  right. simpl. unfold cleanupExecution. congruence.
Qed.

(** A property of the tracker's map that its operations keep is kept by
    every call. *)
Lemma run_call_tracker (P : executions -> Prop) c (st : HookState T) :
  (forall now id wid wname sid md t, P t -> P (startExecution now id wid wname sid md t).1) ->
  (forall now id n nc cnt t, P t -> P (startNode now id n nc cnt t).1) ->
  (forall now id n t, P t -> P (completeNode now id n t).1) ->
  (forall now id n t, P t -> P (failNode now id n t).1) ->
  (forall id t, P t -> P (delete id t)) ->
  P (tracker st) -> P (tracker (run_call config c st)).
Proof.
  intros Hstart Hnode Hcomplete Hfail Hdelete Hst.
  destruct c as
    [ now id wid wname sid md
    | now id n nc cnt
    | now id n
    | now id n
    | now id
    | id
    | now eid ts id wid wname mode sid manual retry md
    | now eid ts eid' ts' id mode
    | now eid ts eid' ts' id msg ename estack enode
    | now eid ts id n ty nid cnt
    | now eid ts id n ty nid cnt
    | now eid ts id n ty nid msg ename ]; simpl.
  - by apply Hstart.
  - by apply Hnode.
  - by apply Hcomplete.
  - by apply Hfail.
  - done.
  - by apply Hdelete.
  - unfold onWorkflowStart.
    set (st1 := set_executionEvents _ (set_tracker _ st)).
    assert (H1 : P (tracker st1)) by (by apply Hstart).
    destruct (getExecutionContext config id st1); [|done].
    by rewrite tracker_sendEvent.
  - unfold onWorkflowComplete.
    destruct (getExecutionContext config id st) as [context|]; [|done].
    destruct (completeExecution now id (tracker st)) as [duration nodeCount].
    destruct (tracker_finish eid' ts' id context
                (createWorkflowCompletedEvent eid ts context duration nodeCount mode) st)
      as [H|H]; unfold finish in H; rewrite H; auto.
  - unfold onWorkflowFail.
    destruct (getExecutionContext config id st) as [context|]; [|done].
    destruct (completeExecution now id (tracker st)) as [duration nodeCount].
    destruct (tracker_finish eid' ts' id context
                (createWorkflowFailedEvent eid ts context duration msg enode ename estack) st)
      as [H|H]; unfold finish in H; rewrite H; auto.
  - unfold onNodeStart.
    destruct (getExecutionContext config id st) as [context|]; [|done].
    rewrite tracker_sendEvent. simpl. auto.
  - unfold onNodeComplete.
    destruct (getExecutionContext config id st) as [context|]; [|done].
    specialize (Hcomplete now id n (tracker st) Hst).
    destruct (completeNode now id n (tracker st)) as [t duration].
    by rewrite tracker_sendEvent.
  - unfold onNodeFail.
    destruct (getExecutionContext config id st) as [context|]; [|done].
    specialize (Hfail now id n (tracker st) Hst).
    destruct (failNode now id n (tracker st)) as [t duration].
    by rewrite tracker_sendEvent.
Qed.

Lemma run_calls_tracker (P : executions -> Prop) cs (t0 : T) :
  (forall now id wid wname sid md t, P t -> P (startExecution now id wid wname sid md t).1) ->
  (forall now id n nc cnt t, P t -> P (startNode now id n nc cnt t).1) ->
  (forall now id n t, P t -> P (completeNode now id n t).1) ->
  (forall now id n t, P t -> P (failNode now id n t).1) ->
  (forall id t, P t -> P (delete id t)) ->
  P ∅ -> P (tracker (run_calls config cs (initial t0))).
Proof.
  intros Hstart Hnode Hcomplete Hfail Hdelete Hempty.
  unfold run_calls. induction cs as [|c cs IH] using rev_ind; [done|].
  rewrite foldl_app. simpl. by apply run_call_tracker.
Qed.

(** The timing entry of a node, through the operations of the tracker. *)
Lemma timing_startExecution now id' wid wname sid md t id n :
  id' <> id ->
  getNodeTiming id n (startExecution now id' wid wname sid md t).1 = getNodeTiming id n t.
Proof. intros Hne. unfold getNodeTiming. simpl. by rewrite lookup_insert_ne. Qed.

Lemma timing_startNode now id' n' nc cnt t id n :
  id' <> id \/ n' <> n ->
  getNodeTiming id n (startNode now id' n' nc cnt t).1 = getNodeTiming id n t.
Proof.
  intros Hne. unfold getNodeTiming, startNode.
  destruct (t !! id') as [s|] eqn:E; [|done]. simpl.
  destruct (decide (id' = id)) as [->|Hid]; [|by rewrite lookup_insert_ne].
  rewrite lookup_insert_eq, E. simpl. destruct Hne as [?|Hn]; [done|].
  by rewrite lookup_insert_ne.
Qed.

Lemma timing_started now id n nc cnt t :
  is_Some (t !! id) ->
  exists entry, getNodeTiming id n (startNode now id n nc cnt t).1 = Some entry /\
                startTime entry = now.
Proof.
  intros [s Hs]. unfold getNodeTiming, startNode. rewrite Hs. simpl.
  rewrite lookup_insert_eq. simpl. rewrite lookup_insert_eq. by eexists.
Qed.

Lemma timing_completeNode now id' n' t id n :
  getNodeTiming id n (completeNode now id' n' t).1 = getNodeTiming id n t.
Proof.
  unfold getNodeTiming, completeNode.
  destruct (t !! id') as [s|] eqn:E; [|done].
  destruct (nodeTimings s !! n'); [|done]. simpl.
  destruct (decide (id' = id)) as [->|Hid]; [|by rewrite lookup_insert_ne].
  by rewrite lookup_insert_eq, E.
Qed.

Lemma timing_failNode now id' n' t id n :
  getNodeTiming id n (failNode now id' n' t).1 = getNodeTiming id n t.
Proof.
  unfold getNodeTiming, failNode.
  destruct (t !! id') as [s|] eqn:E; [|done].
  destruct (nodeTimings s !! n'); [|done]. simpl.
  destruct (decide (id' = id)) as [->|Hid]; [|by rewrite lookup_insert_ne].
  by rewrite lookup_insert_eq, E.
Qed.

Lemma timing_delete id' t id n :
  id' <> id -> getNodeTiming id n (delete id' t) = getNodeTiming id n t.
Proof. intros Hne. unfold getNodeTiming. by rewrite lookup_delete_ne. Qed.

Lemma eqb_false_ne (a b : string) : String.eqb a b = false -> a <> b.
Proof. by intros H%String.eqb_neq. Qed.

Lemma eqb_pair_false (a b c d : string) :
  String.eqb a b && String.eqb c d = false -> a <> b \/ c <> d.
Proof.
  destruct (String.eqb_spec a b); [|by left]. simpl. intros H%String.eqb_neq. by right.
Qed.

(** A call that does not restart the node leaves its timing entry alone. *)
Lemma run_call_timing c (st : HookState T) id n :
  restarts id n c = false ->
  getNodeTiming id n (tracker (run_call config c st)) = getNodeTiming id n (tracker st).
Proof.
  destruct c as
    [ now id' wid wname sid md
    | now id' n' nc cnt
    | now id' n'
    | now id' n'
    | now id'
    | id'
    | now eid ts id' wid wname mode sid manual retry md
    | now eid ts eid' ts' id' mode
    | now eid ts eid' ts' id' msg ename estack enode
    | now eid ts id' n' ty nid cnt
    | now eid ts id' n' ty nid cnt
    | now eid ts id' n' ty nid msg ename ]; simpl; intros Hr.
  - by apply timing_startExecution, eqb_false_ne.
  - by apply timing_startNode, eqb_pair_false.
  - apply timing_completeNode.
  - apply timing_failNode.
  - done.
  - by apply timing_delete, eqb_false_ne.
  - unfold onWorkflowStart.
    set (st1 := set_executionEvents _ (set_tracker _ st)).
    assert (H1 : getNodeTiming id n (tracker st1) = getNodeTiming id n (tracker st))
      by (by apply timing_startExecution, eqb_false_ne).
    destruct (getExecutionContext config id' st1); [|done].
    by rewrite tracker_sendEvent.
  - unfold onWorkflowComplete.
    destruct (getExecutionContext config id' st) as [context|]; [|done].
    destruct (completeExecution now id' (tracker st)) as [duration nodeCount].
    destruct (tracker_finish eid' ts' id' context
                (createWorkflowCompletedEvent eid ts context duration nodeCount mode) st)
      as [H|H]; unfold finish in H; rewrite H; [done|].
    by apply timing_delete, eqb_false_ne.
  - unfold onWorkflowFail.
    destruct (getExecutionContext config id' st) as [context|]; [|done].
    destruct (completeExecution now id' (tracker st)) as [duration nodeCount].
    destruct (tracker_finish eid' ts' id' context
                (createWorkflowFailedEvent eid ts context duration msg enode ename estack) st)
      as [H|H]; unfold finish in H; rewrite H; [done|].
    by apply timing_delete, eqb_false_ne.
  - unfold onNodeStart.
    destruct (getExecutionContext config id' st) as [context|]; [|done].
    rewrite tracker_sendEvent. simpl. by apply timing_startNode, eqb_pair_false.
  - unfold onNodeComplete.
    destruct (getExecutionContext config id' st) as [context|]; [|done].
    pose proof (timing_completeNode now id' n' (tracker st) id n) as Ht.
    destruct (completeNode now id' n' (tracker st)) as [t duration].
    by rewrite tracker_sendEvent.
  - unfold onNodeFail.
    destruct (getExecutionContext config id' st) as [context|]; [|done].
    pose proof (timing_failNode now id' n' (tracker st) id n) as Ht.
    destruct (failNode now id' n' (tracker st)) as [t duration].
    by rewrite tracker_sendEvent.
Qed.

Lemma run_calls_timing cs (st : HookState T) id n :
  Forall (fun c => restarts id n c = false) cs ->
  getNodeTiming id n (tracker (run_calls config cs st)) = getNodeTiming id n (tracker st).
Proof.
  unfold run_calls. induction cs as [|c cs IH] using rev_ind; intros Hall; [done|].
  apply Forall_app in Hall as [Hcs Hc]. apply Forall_inv in Hc.
  rewrite foldl_app. simpl. rewrite run_call_timing by done. by apply IH.
Qed.

(** The events the factory builds for the hook have the shape of their type. *)
Lemma hook_events_shaped eid ts context :
  (forall mode retry manual,
     well_shaped (createWorkflowStartedEvent eid ts context mode retry manual) = true) /\
  (forall d count mode,
     well_shaped (createWorkflowCompletedEvent eid ts context d count mode) = true) /\
  (forall d msg node type stack,
     well_shaped (createWorkflowFailedEvent eid ts context d msg node type stack) = true) /\
  (forall nc cnt, well_shaped (createNodeStartedEvent eid ts context nc cnt) = true) /\
  (forall nc d cnt, well_shaped (createNodeCompletedEvent eid ts context nc d cnt) = true) /\
  (forall nc d msg type,
     well_shaped (createNodeFailedEvent eid ts context nc d msg type) = true) /\
  (forall score labels reasons metrics,
     well_shaped (createEvalCompletedEvent eid ts context score labels reasons metrics)
     = true).
Proof. repeat split; intros; reflexivity. Qed.

Lemma shaped_sendEvent event (st : HookState T) :
  well_shaped event = true -> shaped_buffers st -> shaped_buffers (sendEvent event st).1.
Proof.
  intros He Hst. unfold sendEvent, on_transport, shaped_buffers. simpl.
  destruct (send event (transport st)) as [t' r]. simpl.
  apply map_Forall_insert_2; [|done].
  rewrite forallb_app. simpl. rewrite He.
  destruct (executionEvents st !! execution_id event) as [events|] eqn:E; [|done].
  simpl. by rewrite (Hst _ _ E).
Qed.

Lemma shaped_runEvaluation eid' ts' id context (st : HookState T) :
  shaped_buffers st -> shaped_buffers (runEvaluation config eid' ts' id context st).1.
Proof.
  intros Hst. unfold runEvaluation.
  destruct (default [] (executionEvents st !! id)); [done|].
  destruct (evaluate _ _) as [r|]; [|done].
  apply shaped_sendEvent; [|done]. apply hook_events_shaped.
Qed.

Lemma shaped_finish eid' ts' id context event (st : HookState T) :
  well_shaped event = true -> shaped_buffers st ->
  shaped_buffers (finish config eid' ts' id context event st).1.
Proof.
  intros He Hst. unfold finish, and_then, bind.
  pose proof (shaped_sendEvent event st He Hst) as H1.
  destruct (sendEvent event st) as [st1 [[]|reason]]; simpl in H1; [|done].
  set (k := if enableEvaluation config
            then runEvaluation config eid' ts' id context
            else resolve ()).
  assert (H2 : shaped_buffers (k st1).1).
  { unfold k. destruct (enableEvaluation config); [by apply shaped_runEvaluation|done]. }
  destruct (k st1) as [st2 [[]|reason]]; simpl in H2; [|done].
  simpl. unfold shaped_buffers. simpl. by apply map_Forall_delete.
Qed.

Lemma run_call_shaped c (st : HookState T) :
  shaped_buffers st -> shaped_buffers (run_call config c st).
Proof.
  intros Hst.
  destruct c as
    [ now id wid wname sid md
    | now id n nc cnt
    | now id n
    | now id n
    | now id
    | id
    | now eid ts id wid wname mode sid manual retry md
    | now eid ts eid' ts' id mode
    | now eid ts eid' ts' id msg ename estack enode
    | now eid ts id n ty nid cnt
    | now eid ts id n ty nid cnt
    | now eid ts id n ty nid msg ename ]; simpl; try done.
  - unfold onWorkflowStart.
    set (st1 := set_executionEvents _ (set_tracker _ st)).
    assert (H1 : shaped_buffers st1).
    { unfold shaped_buffers, st1. simpl. by apply map_Forall_insert_2. }
    destruct (getExecutionContext config id st1); [|done].
    apply shaped_sendEvent; [apply hook_events_shaped|done].
  - unfold onWorkflowComplete.
    destruct (getExecutionContext config id st) as [context|]; [|done].
    destruct (completeExecution now id (tracker st)) as [duration nodeCount].
    apply (shaped_finish eid' ts' id context); [apply hook_events_shaped|done].
  - unfold onWorkflowFail.
    destruct (getExecutionContext config id st) as [context|]; [|done].
    destruct (completeExecution now id (tracker st)) as [duration nodeCount].
    apply (shaped_finish eid' ts' id context); [apply hook_events_shaped|done].
  - unfold onNodeStart.
    destruct (getExecutionContext config id st) as [context|]; [|done].
    apply shaped_sendEvent; [apply hook_events_shaped|done].
  - unfold onNodeComplete.
    destruct (getExecutionContext config id st) as [context|]; [|done].
    destruct (completeNode now id n (tracker st)) as [t duration].
    apply shaped_sendEvent; [apply hook_events_shaped|done].
  - unfold onNodeFail.
    destruct (getExecutionContext config id st) as [context|]; [|done].
    destruct (failNode now id n (tracker st)) as [t duration].
    apply shaped_sendEvent; [apply hook_events_shaped|done].
Qed.

Lemma run_calls_shaped cs (t0 : T) : shaped_buffers (run_calls config cs (initial t0)).
Proof.
  unfold run_calls. induction cs as [|c cs IH] using rev_ind; [apply map_Forall_empty|].
  rewrite foldl_app. simpl. by apply run_call_shaped.
Qed.

(** The buffer of an execution, through the asynchronous steps. *)
Lemma buffer_sendEvent event (st : HookState T) :
  executionEvents (sendEvent event st).1 !! execution_id event
  = Some (default [] (executionEvents st !! execution_id event) ++ [event]).
Proof.
  unfold sendEvent, on_transport. simpl.
  destruct (send event (transport st)). simpl. apply lookup_insert_eq.
Qed.

Lemma buffer_kept_sendEvent event id (st : HookState T) :
  is_Some (executionEvents st !! id) ->
  is_Some (executionEvents (sendEvent event st).1 !! id).
Proof.
  intros Hid. unfold sendEvent, on_transport. simpl.
  destruct (send event (transport st)). simpl.
  destruct (decide (execution_id event = id)) as [<-|Hne];
    [by rewrite lookup_insert_eq|by rewrite lookup_insert_ne].
Qed.

Lemma buffer_kept_runEvaluation eid' ts' id1 context id (st : HookState T) :
  is_Some (executionEvents st !! id) ->
  is_Some (executionEvents (runEvaluation config eid' ts' id1 context st).1 !! id).
Proof.
  intros Hid. unfold runEvaluation.
  destruct (default [] (executionEvents st !! id1)); [done|].
  destruct (evaluate _ _); [by apply buffer_kept_sendEvent|done].
Qed.

(** The end of a terminal callback: the execution is forgotten when the
    callback resolves, and only then. *)
Lemma finish_forgets_or_keeps eid' ts' id context event (st : HookState T) :
  is_Some (tracker st !! id) -> execution_id event = id ->
  match (finish config eid' ts' id context event st).2 with
  | Resolved _ =>
      tracker (finish config eid' ts' id context event st).1 !! id = None /\
      executionEvents (finish config eid' ts' id context event st).1 !! id = None
  | Rejected _ =>
      is_Some (tracker (finish config eid' ts' id context event st).1 !! id) /\
      is_Some (executionEvents (finish config eid' ts' id context event st).1 !! id)
  end.
Proof.
  intros Hid He. unfold finish, and_then, bind.
  pose proof (tracker_sendEvent event st) as Ht1.
  pose proof (buffer_sendEvent event st) as Hb1. rewrite He in Hb1.
  destruct (sendEvent event st) as [st1 [[]|reason]]; simpl in *;
    [|by rewrite Ht1, Hb1].
  set (k := if enableEvaluation config
            then runEvaluation config eid' ts' id context
            else resolve ()).
  assert (Ht2 : tracker (k st1).1 = tracker st1).
  { unfold k. destruct (enableEvaluation config); [apply tracker_runEvaluation|done]. }
  assert (Hb2 : is_Some (executionEvents (k st1).1 !! id)).
  { unfold k. destruct (enableEvaluation config);
      [apply buffer_kept_runEvaluation|simpl]; by rewrite Hb1. }
  destruct (k st1) as [st2 [[]|reason]]; simpl in *.
  - split; apply lookup_delete_eq.
  - by rewrite Ht2, Ht1.
Qed.

End Facts.

(** Only started nodes are counted: in every state the tracker reaches,
    each node an execution lists as completed or failed has a timing entry
    (a [completeNode] or [failNode] for a node that was never started lists
    nothing), and [completeExecution] returns the time since the execution
    started with the number of nodes so listed. *)
Theorem counted_nodes_were_started {fmt : NumberFormat} {T : Type}
    {transport_T : Transport T} (config : TelemetryHookConfig) (t0 : T)
    (calls : list call) :
  map_Forall (fun id s =>
      started_only s /\
      forall now, completeExecution now id (tracker (run_calls config calls (initial t0)))
                  = (now - exec_startTime s,
                     Z.of_nat (length (completedNodes s ++ failedNodes s))))
    (tracker (run_calls config calls (initial t0))).
Proof.
  assert (Hstarted : map_Forall (fun _ s => started_only s)
                       (tracker (run_calls config calls (initial t0)))).
  { apply (run_calls_tracker config (map_Forall (fun _ s => started_only s))).
    - intros now id wid wname sid md t Ht. apply map_Forall_insert_2; [|done].
      intros n [[]|[]].
    - intros now id n nc cnt t Ht. unfold startNode.
      destruct (t !! id) as [s|] eqn:E; [|done]. simpl.
      apply map_Forall_insert_2; [|done].
      intros m Hm. simpl in *. specialize (Ht id s E m Hm).
      destruct (decide (n = m)) as [->|Hne];
        [by rewrite lookup_insert_eq|by rewrite lookup_insert_ne].
    - intros now id n t Ht. unfold completeNode.
      destruct (t !! id) as [s|] eqn:E; [|done].
      destruct (nodeTimings s !! n) as [timing|] eqn:En; [|done]. simpl.
      apply map_Forall_insert_2; [|done].
      intros m [Hm|Hm]; simpl in *.
      + apply in_app_or in Hm as [Hm|[<-|[]]]; [by apply (Ht id s E); left|].
        by rewrite En.
      + apply (Ht id s E). by right.
    - intros now id n t Ht. unfold failNode.
      destruct (t !! id) as [s|] eqn:E; [|done].
      destruct (nodeTimings s !! n) as [timing|] eqn:En; [|done]. simpl.
      apply map_Forall_insert_2; [|done].
      intros m [Hm|Hm]; simpl in *.
      + apply (Ht id s E). by left.
      + apply in_app_or in Hm as [Hm|[<-|[]]]; [by apply (Ht id s E); right|].
        by rewrite En.
    - intros id t Ht. by apply map_Forall_delete.
    - apply map_Forall_empty. }
  intros id s Hs. split; [by apply (Hstarted id s)|].
  intros now. unfold completeExecution. rewrite Hs. by rewrite length_app, Nat2Z.inj_add.
Qed.

(** The duration of a node is the time since its last start: when the
    hook is told that a node of a tracked execution starts, and then that it
    completes, the node.completed event it records carries the time between
    the two calls, whatever calls come in between as long as none starts
    the node again, or starts or ends the execution. *)
Theorem node_duration_is_time_since_start {fmt : NumberFormat} {T : Type}
    {transport_T : Transport T} (config : TelemetryHookConfig) (t0 : T)
    (calls others : list call) (id n ty : string) (nid : option string)
    (cnt cnt' : option Z) (start finish : Z) (eid ts eid' ts' : string) :
  let st0 := run_calls config calls (initial t0) in
  let st1 := run_call config (OnNodeStart start eid ts id n ty nid cnt) st0 in
  let st2 := run_calls config others st1 in
  let st3 := run_call config (OnNodeComplete finish eid' ts' id n ty nid cnt') st2 in
  is_Some (tracker st0 !! id) ->
  Forall (fun c => restarts id n c = false) others ->
  (completeNode finish id n (tracker st2)).2 = finish - start /\
  (failNode finish id n (tracker st2)).2 = finish - start /\
  exists events e,
    executionEvents st3 !! id = Some (events ++ [e]) /\
    event_type e = EventTypes.NODE_COMPLETED /\
    duration_ms e = Some (finish - start).
Proof.
  intros st0 st1 st2 st3 Hid Hothers.
  assert (Hk2 : keyed (tracker st2)).
  { unfold st2, st1, st0, run_calls.
    change (run_call config (OnNodeStart start eid ts id n ty nid cnt)
              (foldl (fun st c => run_call config c st) (initial t0) calls))
      with (foldl (fun st c => run_call config c st)
              (foldl (fun st c => run_call config c st) (initial t0) calls)
              [OnNodeStart start eid ts id n ty nid cnt]).
    rewrite <- !foldl_app. apply run_calls_keyed. }
  assert (Hentry : exists entry, getNodeTiming id n (tracker st2) = Some entry /\
                                 startTime entry = start).
  { unfold st2. rewrite run_calls_timing by done.
    unfold st1. simpl. unfold onNodeStart, getExecutionContext, getExecution.
    destruct Hid as [s Hs]. rewrite Hs. simpl. rewrite tracker_sendEvent. simpl.
    apply timing_started. by eexists. }
  destruct Hentry as (entry & Hentry & Hstart).
  unfold getNodeTiming in Hentry.
  destruct (tracker st2 !! id) as [s|] eqn:Hs; [|done]. simpl in Hentry.
  assert (Hc : (completeNode finish id n (tracker st2)).2 = finish - start).
  { unfold completeNode. by rewrite Hs, Hentry, Hstart. }
  split; [done|]. split.
  { unfold failNode. by rewrite Hs, Hentry, Hstart. }
  unfold st3. simpl. unfold onNodeComplete, getExecutionContext, getExecution.
  rewrite Hs. simpl. unfold completeNode in *. rewrite Hs, Hentry in *. simpl in *.
  unfold sendEvent, on_transport. simpl.
  destruct (send _ (transport st2)) as [t' r]. simpl.
  rewrite (Hk2 id s Hs). rewrite lookup_insert_eq.
  eexists _, _. split; [reflexivity|]. split; [done|]. simpl. by rewrite Hstart.
Qed.

Lemma node_duration_is_time_since_start_witness :
  let config := default_hook_config in
  let st0 := run_calls (fmt := exact_format) (transport_T := memory_transport)
               config interleaved (initial []) in
  let st1 := run_call (fmt := exact_format) (transport_T := memory_transport) config
               (OnNodeStart 1020 "a4" "t6" "exec-A" "Store" "db" None None) st0 in
  let st2 := run_calls (fmt := exact_format) (transport_T := memory_transport) config
               [OnNodeComplete 1030 "b3" "t7" "exec-B" "Load" "sheet" None None;
                OnNodeStart 1040 "a5" "t8" "exec-A" "Notify" "slack" None None] st1 in
  let st3 := run_call (fmt := exact_format) (transport_T := memory_transport) config
               (OnNodeComplete 1100 "a6" "t9" "exec-A" "Store" "db" None (Some 2)) st2 in
  (completeNode 1100 "exec-A" "Store" (tracker st2)).2 = 1100 - 1020 /\
  (failNode 1100 "exec-A" "Store" (tracker st2)).2 = 1100 - 1020 /\
  exists events e,
    executionEvents st3 !! "exec-A" = Some (events ++ [e]) /\
    event_type e = EventTypes.NODE_COMPLETED /\
    duration_ms e = Some (1100 - 1020).
Proof.
  apply (node_duration_is_time_since_start (fmt := exact_format)
           (transport_T := memory_transport) default_hook_config [] interleaved).
  - eexists. vm_compute. reflexivity.
  - repeat constructor.
Defined.

(** The hook never makes the evaluator throw: every event it records is
    built by the factory with the shape of its type, so in every state the
    hook reaches [evaluate] returns, with a score between 0 and 100, on the
    events recorded for any execution. *)
Theorem hook_events_can_be_evaluated {fmt : NumberFormat} {T : Type}
    {transport_T : Transport T} (config : TelemetryHookConfig) (t0 : T)
    (calls : list call) :
  map_Forall (fun _ events =>
      forallb well_shaped events = true /\
      exists r, evaluate (evaluatorConfig config) events = Some r /\ 0 <= score r <= 100)
    (executionEvents (run_calls config calls (initial t0))).
Proof.
  intros id events Hid.
  pose proof (run_calls_shaped config calls t0 id events Hid) as Hshaped.
  split; [done|].
  destruct (evaluate_total (evaluatorConfig config) events Hshaped) as [r Hr].
  exists r. split; [done|]. by eapply evaluate_clamped.
Qed.

(** A terminal callback forgets the execution exactly when it resolves:
    after [onWorkflowComplete] or [onWorkflowFail] on a tracked execution
    the tracker and the hook hold nothing for it if the callback resolved;
    if it rejected (the transport refused an event) the execution state and
    its recorded events are still held, and nothing releases them later. *)
Theorem terminal_callback_forgets_only_on_success {fmt : NumberFormat} {T : Type}
    {transport_T : Transport T} (config : TelemetryHookConfig) (t0 : T)
    (calls : list call) (id : string) (now : Z) (eid ts eid' ts' : string)
    (mode : option string) (msg : string) (ename estack enode : option string) :
  let st := run_calls config calls (initial t0) in
  is_Some (tracker st !! id) ->
  (let after := onWorkflowComplete config now eid ts eid' ts' id mode st in
   match after.2 with
   | Resolved _ => tracker after.1 !! id = None /\ executionEvents after.1 !! id = None
   | Rejected _ => is_Some (tracker after.1 !! id) /\
                   is_Some (executionEvents after.1 !! id)
   end) /\
  (let after := onWorkflowFail config now eid ts eid' ts' id msg ename estack enode st in
   match after.2 with
   | Resolved _ => tracker after.1 !! id = None /\ executionEvents after.1 !! id = None
   | Rejected _ => is_Some (tracker after.1 !! id) /\
                   is_Some (executionEvents after.1 !! id)
   end).
Proof.
  intros st Hid. pose proof (run_calls_keyed config calls t0) as Hk. fold st in Hk.
  destruct Hid as [s Hs].
  assert (Hctx : exists context, getExecutionContext config id st = Some context /\
                                 ctx_execution_id context = id).
  { unfold getExecutionContext, getExecution. rewrite Hs. simpl.
    eexists. split; [reflexivity|]. simpl. by apply Hk. }
  destruct Hctx as (context & Hctx & Hcid).
  split; cbv zeta.
  - unfold onWorkflowComplete. rewrite Hctx.
    destruct (completeExecution now id (tracker st)) as [duration nodeCount].
    apply (finish_forgets_or_keeps config eid' ts' id context); [by eexists|done].
  - unfold onWorkflowFail. rewrite Hctx.
    destruct (completeExecution now id (tracker st)) as [duration nodeCount].
    apply (finish_forgets_or_keeps config eid' ts' id context); [by eexists|done].
Qed.

Lemma terminal_callback_forgets_only_on_success_witness :
  let st := run_calls (fmt := exact_format) (transport_T := memory_transport)
              default_hook_config interleaved (initial []) in
  (let after := onWorkflowComplete (fmt := exact_format) (transport_T := memory_transport)
                  default_hook_config 1100 "a4" "t6" "a5" "t7" "exec-A" None st in
   match after.2 with
   | Resolved _ => tracker after.1 !! "exec-A" = None /\
                   executionEvents after.1 !! "exec-A" = None
   | Rejected _ => is_Some (tracker after.1 !! "exec-A") /\
                   is_Some (executionEvents after.1 !! "exec-A")
   end) /\
  (let after := onWorkflowFail (fmt := exact_format) (transport_T := memory_transport)
                  default_hook_config 1100 "a4" "t6" "a5" "t7" "exec-A" "boom"
                  None None None st in
   match after.2 with
   | Resolved _ => tracker after.1 !! "exec-A" = None /\
                   executionEvents after.1 !! "exec-A" = None
   | Rejected _ => is_Some (tracker after.1 !! "exec-A") /\
                   is_Some (executionEvents after.1 !! "exec-A")
   end).
Proof.
  apply (terminal_callback_forgets_only_on_success (fmt := exact_format)
           (transport_T := memory_transport) default_hook_config [] interleaved "exec-A").
  eexists. vm_compute. reflexivity.
Defined.

(** A transport that refuses the terminal event: the execution stays. *)
Example refused_terminal_event_leaks :
  let codec := Json.json_codec in
  let t0 := FileTransport.constructor BaseTransport.no_config "./data/events.jsonl"
              None false ∅ in
  let st := {| tracker := (startExecution 1000 "exec-A" "wf-1" "Import" None None ∅).1;
               executionEvents := {["exec-A" := []]};
               transport := t0 |} in
  let after := onWorkflowComplete (fmt := exact_format) default_hook_config
                 1100 "a4" "t6" "a5" "t7" "exec-A" None st in
  after.2 = Rejected "EACCES" /\
  is_Some (tracker after.1 !! "exec-A") /\
  length <$> executionEvents after.1 !! "exec-A" = Some 1%nat.
Proof. vm_compute. split; [done|]. split; [by eexists|done]. Qed.

Lemma sendEvent_memory event (st : HookState (list TelemetryEvent)) :
  sendEvent (transport_T := memory_transport) event st
  = ({| tracker := tracker st;
        executionEvents := <[execution_id event :=
                               default [] (executionEvents st !! execution_id event)
                               ++ [event]]> (executionEvents st);
        transport := transport st ++ [event] |}, Resolved ()).
Proof. done. Qed.

(** End to end, over a transport that accepts every event:
    [onWorkflowComplete] on a tracked execution sends the
    workflow.completed event and then, evaluation being enabled, one
    eval.completed event for the same execution whose score lies between 0
    and 100, and it resolves. *)
Theorem completion_is_followed_by_evaluation {fmt : NumberFormat}
    (config : TelemetryHookConfig) (calls : list call) (id : string) (now : Z)
    (eid ts eid' ts' : string) (mode : option string) :
  let st := run_calls (transport_T := memory_transport) config calls (initial []) in
  let after := onWorkflowComplete (transport_T := memory_transport) config
                 now eid ts eid' ts' id mode st in
  enableEvaluation config = true ->
  is_Some (tracker st !! id) ->
  exists completed evaluation p score,
    after.2 = Resolved () /\
    transport after.1 = transport st ++ [completed; evaluation] /\
    event_type completed = EventTypes.WORKFLOW_COMPLETED /\
    execution_id completed = id /\ event_id completed = eid /\
    event_type evaluation = EventTypes.EVAL_COMPLETED /\
    execution_id evaluation = id /\ event_id evaluation = eid' /\
    payload evaluation = Some p /\ get p "score" = VNum score /\
    0 <= score <= 100.
Proof.
  intros st after Heval [s Hs].
  pose proof (run_calls_keyed (transport_T := memory_transport) config calls []) as Hk.
  pose proof (run_calls_shaped (transport_T := memory_transport) config calls []) as Hsh.
  fold st in Hk, Hsh.
  assert (Hid : executionId s = id) by (by apply Hk).
  unfold after, onWorkflowComplete, getExecutionContext, getExecution.
  rewrite Hs. simpl.
  destruct (completeExecution now id (tracker st)) as [duration nodeCount].
  set (context := {| ctx_execution_id := executionId s |}).
  set (completed := createWorkflowCompletedEvent eid ts context duration nodeCount mode).
  unfold and_then, bind. rewrite sendEvent_memory, Heval.
  set (st1 := {| tracker := tracker st |}).
  assert (Hbuf : executionEvents st1 !! id
                 = Some (default [] (executionEvents st !! id) ++ [completed])).
  { unfold st1. simpl. rewrite Hid. apply lookup_insert_eq. }
  assert (Hshaped : forallb well_shaped
                      (default [] (executionEvents st !! id) ++ [completed]) = true).
  { rewrite forallb_app. simpl.
    destruct (executionEvents st !! id) as [events|] eqn:E; simpl; [|done].
    by rewrite (Hsh _ _ E). }
  destruct (evaluate_total (evaluatorConfig config) _ Hshaped) as [r Hr].
  unfold runEvaluation. rewrite Hbuf. simpl default.
  destruct (default [] (executionEvents st !! id) ++ [completed]) as [|e0 es] eqn:Hne;
    [by destruct (default [] (executionEvents st !! id))|].
  rewrite Hr, sendEvent_memory. simpl.
  eexists completed, _, _, (score r).
  split; [done|]. split; [by rewrite <- app_assoc|].
  repeat split; try done; try (by eapply evaluate_clamped).
Qed.

Lemma completion_is_followed_by_evaluation_witness :
  let st := run_calls (fmt := exact_format) (transport_T := memory_transport)
              default_hook_config interleaved (initial []) in
  let after := onWorkflowComplete (fmt := exact_format) (transport_T := memory_transport)
                 default_hook_config 1100 "a4" "t6" "a5" "t7" "exec-A" None st in
  exists completed evaluation p score,
    after.2 = Resolved () /\
    transport after.1 = transport st ++ [completed; evaluation] /\
    event_type completed = EventTypes.WORKFLOW_COMPLETED /\
    execution_id completed = "exec-A" /\ event_id completed = "a4" /\
    event_type evaluation = EventTypes.EVAL_COMPLETED /\
    execution_id evaluation = "exec-A" /\ event_id evaluation = "a5" /\
    payload evaluation = Some p /\ get p "score" = VNum score /\
    0 <= score <= 100.
Proof.
  apply (completion_is_followed_by_evaluation (fmt := exact_format)
           default_hook_config interleaved "exec-A").
  - reflexivity.
  - eexists. vm_compute. reflexivity.
Defined.

(** [TelemetryHook.close] awaits [flush] before it calls [close]: over a
    buffered transport whose flush fails the hook's [close] rejects without
    closing the transport, so the flush timer stays scheduled (and the
    buffered events are gone); when the flush succeeds the transport is
    closed and the timer cleared. *)
Theorem hook_close_stops_at_a_failed_flush {D : Type}
    {destination_D : BaseTransport.Destination D}
    (st : HookState (BaseTransport.State D)) (id : nat) :
  BaseTransport.flushTimer (transport st) = Some id ->
  id ∈ BaseTransport.timers (transport st) ->
  match (BaseTransport.flush (transport st)).2 with
  | Rejected reason =>
      (close_hook st).2 = Rejected reason /\
      transport (close_hook st).1 = (BaseTransport.flush (transport st)).1 /\
      id ∈ BaseTransport.timers (transport (close_hook st).1) /\
      BaseTransport.buffer (transport (close_hook st).1) = []
  | Resolved _ =>
      transport (close_hook st).1
      = (BaseTransport.close (BaseTransport.flush (transport st)).1).1 /\
      id ∉ BaseTransport.timers (transport (close_hook st).1)
  end.
Proof.
  intros Htimer Hid. unfold close_hook, and_then, bind, on_transport. simpl.
  pose proof (TransportFacts.flush_timers (transport st)) as Ht.
  pose proof (TransportFacts.flush_buffer (transport st)) as Hb.
  destruct (PipelineFacts.flush_fields (transport st)) as (_ & Hf & _).
  destruct (BaseTransport.flush (transport st)) as [t1 [[]|reason]]; simpl in *.
  - pose proof (PipelineFacts.close_timers t1) as Hc. rewrite Hf, Htimer in Hc.
    destruct (BaseTransport.close t1) as [t2 r]. simpl in *. split; [done|].
    rewrite Hc. intros [_ Hn]%elem_of_difference. apply Hn. by apply elem_of_singleton.
  - by rewrite Ht.
Qed.

Lemma hook_close_stops_at_a_failed_flush_witness :
  let codec := Json.json_codec in
  let st : HookState (BaseTransport.State FileTransport.FileState) :=
    {| tracker := ∅; executionEvents := ∅; transport := read_only_transport |} in
  match (BaseTransport.flush (transport st)).2 with
  | Rejected reason =>
      (close_hook st).2 = Rejected reason /\
      transport (close_hook st).1 = (BaseTransport.flush (transport st)).1 /\
      0%nat ∈ BaseTransport.timers (transport (close_hook st).1) /\
      BaseTransport.buffer (transport (close_hook st).1) = []
  | Resolved _ =>
      transport (close_hook st).1
      = (BaseTransport.close (BaseTransport.flush (transport st)).1).1 /\
      0%nat ∉ BaseTransport.timers (transport (close_hook st).1)
  end.
Proof.
  intros codec st.
  apply (hook_close_stops_at_a_failed_flush st 0%nat).
  - by vm_compute.
  - vm_compute. set_unfold. tauto.
Defined.

End LifecycleFacts.

(** ** [FileTransport.clear] and the send buffer *)
Module ClearFacts.
Import Js Events Async TransportInterface BaseTransport Examples Notions FileFacts
  PipelineFacts.

(** [clear] empties the index and truncates the file, but not the buffer of
    the base class: the events still buffered are written by the next
    [flush], after which the index and the file hold exactly them.  When the
    file exists and cannot be written, [clear] rejects with the index
    already emptied and the file as it was. *)
Theorem clear_leaves_the_send_buffer {codec : FileTransport.JsonCodec}
    (st : State FileTransport.FileState) :
  Forall FileTransport.well_formed (buffer st) ->
  let st1 := (on_dest FileTransport.clear st).1 in
  FileTransport.queryAll (dest st1) = [] /\
  buffer st1 = buffer st /\
  if FileTransport.writable (dest st)
  then (on_dest FileTransport.clear st).2 = Resolved () /\
       FileTransport.readFromFile (dest st1) = [] /\
       (flush st1).2 = Resolved () /\
       FileTransport.queryAll (dest (flush st1).1) = buffer st /\
       FileTransport.readFromFile (dest (flush st1).1) = buffer st
  else FileTransport.file (dest st1) = FileTransport.file (dest st) /\
       ((on_dest FileTransport.clear st).2 = Resolved ()
        <-> FileTransport.file (dest st) = None).
Proof.
  intros Hwf. cbv zeta.
  destruct st as [cfg buf timer ts [path content w store]]. simpl in *.
  unfold on_dest, FileTransport.clear, FileTransport.writeFile. simpl.
  destruct w; simpl.
  - assert (Hflush : forall content',
              content' = None \/ content' = Some [] ->
              let st1 := {| config := cfg; buffer := buf; flushTimer := timer;
                            timers := ts;
                            dest := {| FileTransport.filePath := path;
                                       FileTransport.file := content';
                                       FileTransport.writable := true;
                                       FileTransport.inMemoryStore := [] |} |} in
              FileTransport.readFromFile (dest st1) = [] /\
              (flush st1).2 = Resolved () /\
              FileTransport.queryAll (dest (flush st1).1) = buf /\
              FileTransport.readFromFile (dest (flush st1).1) = buf).
    { intros content' Hc. cbv zeta. split; [by destruct Hc as [-> | ->]|].
      unfold flush. cbn [buffer]. destruct buf as [|e es].
      - simpl. split; [done|]. split; [done|]. by destruct Hc as [-> | ->].
      - set (events := e :: es) in *. unfold on_dest, set_buffer. cbn [dest].
        change (BaseTransport.doSendBatch events)
          with (FileTransport.doSendBatch events).
        rewrite file_doSendBatch.
        cbn -[FileTransport.join_lines FileTransport.parse_lines events].
        split; [done|]. split; [done|].
        unfold FileTransport.readFromFile. cbn [FileTransport.file].
        replace (default [] content') with (@nil Ascii.ascii)
          by (by destruct Hc as [-> | ->]).
        rewrite app_nil_l, (chunk_unlines events).
        rewrite parse_file_lines by (by apply lines_of_ok).
        by rewrite (lines_of_filter _ Hwf), (parse_stringify _ Hwf). }
    destruct content as [c|]; simpl.
    + split; [done|]. split; [done|]. split; [done|]. apply Hflush. by right.
    + split; [done|]. split; [done|]. split; [done|]. apply Hflush. by left.
  - destruct content as [c|]; simpl; repeat split; done.
Qed.

Lemma clear_leaves_the_send_buffer_witness :
  let codec := Json.json_codec in
  let st : State FileTransport.FileState :=
    (sendBatch [event_a; event_b]
       (FileTransport.constructor buffering "./data/events.jsonl"
          (Some (FileTransport.stringify event_c ++ [FileTransport.newline])) true ∅)).1 in
  let st1 := (on_dest FileTransport.clear st).1 in
  FileTransport.queryAll (dest st1) = [] /\
  buffer st1 = buffer st /\
  if FileTransport.writable (dest st)
  then (on_dest FileTransport.clear st).2 = Resolved () /\
       FileTransport.readFromFile (dest st1) = [] /\
       (flush st1).2 = Resolved () /\
       FileTransport.queryAll (dest (flush st1).1) = buffer st /\
       FileTransport.readFromFile (dest (flush st1).1) = buffer st
  else FileTransport.file (dest st1) = FileTransport.file (dest st) /\
       ((on_dest FileTransport.clear st).2 = Resolved ()
        <-> FileTransport.file (dest st) = None).
Proof.
  intros codec st.
  apply (clear_leaves_the_send_buffer (codec := Json.json_codec) st).
  repeat constructor; vm_compute; reflexivity.
Defined.

(** The buffered events come back after [clear]. *)
Example cleared_then_flushed :
  let codec := Json.json_codec in
  let st : State FileTransport.FileState :=
    (sendBatch [event_a; event_b]
       (FileTransport.constructor buffering "./data/events.jsonl"
          (Some (FileTransport.stringify event_c ++ [FileTransport.newline])) true ∅)).1 in
  FileTransport.queryAll (dest st) = [event_c] /\
  FileTransport.queryAll (dest (on_dest FileTransport.clear st).1) = [] /\
  List.map event_id
    (FileTransport.readFromFile (dest (flush (on_dest FileTransport.clear st).1).1))
  = ["ev-1"; "ev-2"].
Proof. vm_compute. repeat split; reflexivity. Qed.

End ClearFacts.

(** ** The external hooks: telemetry never fails the workflow *)
Module ExternalFacts.
Import Js Events Async TransportInterface Tracker Hook ExternalHooks.

Section Guarded.
Context {fmt : NumberFormat} {T : Type} {transport_T : Transport T}.
Variable new_hook : HookState T.

(** What the [try]/[catch] around a callback gives: the callback has run on
    the hook, the call resolves, and a rejection is one line on the
    console. *)
Lemma guarded_absorbs label (callback : Task (HookState T) unit) (st : State T) :
  (guarded new_hook label callback st).2 = Resolved () /\
  hook (guarded new_hook label callback st).1 = Some (callback (getHook new_hook st)).1 /\
  console (guarded new_hook label callback st).1
  = console st ++ match (callback (getHook new_hook st)).2 with
                  | Resolved _ => []
                  | Rejected reason => [label +:+ reason]
                  end.
Proof.
  unfold guarded. destruct (callback (getHook new_hook st)) as [h [[]|reason]]; simpl.
  - by rewrite app_nil_r.
  - done.
Qed.

End Guarded.

(** Whatever the hook, its transport and the arguments, the four external
    hooks resolve: a failure inside the telemetry hook (a rejected send, an
    evaluation that throws) is written to the console, one line per failed
    callback, and is not passed on to n8n.  [workflow.postExecute] with a
    status other than success, error or failed does nothing at all: the
    execution stays tracked and its events stay buffered. *)
Theorem external_hooks_never_reject {fmt : NumberFormat} {T : Type}
    {transport_T : Transport T} (config : TelemetryHookConfig) (new_hook : HookState T)
    (st : State T) (now : Z) (eid ts eid' ts' stack : string)
    (executionId mode status nodeName nodeType : string)
    (workflow_id workflow_name retryOf node_id : option string)
    (items : option Z) (error : option JsError) :
  let pre := workflow_preExecute config new_hook now eid ts workflow_id workflow_name
               executionId mode retryOf st in
  let post := workflow_postExecute config new_hook now eid ts eid' ts' stack
                executionId mode status error st in
  let node_pre := node_preExecute config new_hook now eid ts nodeName nodeType
                    executionId node_id items st in
  let node_post := node_postExecute config new_hook now eid ts nodeName nodeType
                     executionId node_id items error st in
  Forall (fun r : State T * outcome unit =>
            r.2 = Resolved () /\
            (console r.1 = console st \/ exists line, console r.1 = console st ++ [line]))
         [pre; post; node_pre; node_post] /\
  (status ∉ ["success"; "error"; "failed"] -> post = (st, Resolved ())).
Proof.
  cbv zeta.
  assert (Hg : forall label callback,
            (guarded new_hook label callback st).2 = Resolved () /\
            (console (guarded new_hook label callback st).1 = console st \/
             exists line, console (guarded new_hook label callback st).1
                          = console st ++ [line])).
  { intros label callback.
    destruct (guarded_absorbs new_hook label callback st) as (Hr & _ & Hc).
    split; [done|]. rewrite Hc.
    destruct (callback (getHook new_hook st)).2 as [[]|reason].
    - left. by rewrite app_nil_r.
    - right. by eexists. }
  split.
  - apply Forall_cons. split; [apply Hg|].
    apply Forall_cons. split.
    { unfold workflow_postExecute.
      destruct (String.eqb status "success"); [apply Hg|].
      destruct (String.eqb status "error" || String.eqb status "failed"); [apply Hg|].
      simpl. auto. }
    apply Forall_cons. split; [apply Hg|].
    apply Forall_cons. split; [|constructor].
    unfold node_postExecute. destruct error; apply Hg.
  - intros Hstatus. unfold workflow_postExecute.
    assert (Hne : forall s, s ∈ ["success"; "error"; "failed"] ->
                            String.eqb status s = false).
    { intros s Hs. apply String.eqb_neq. intros ->. by apply Hstatus. }
    rewrite !Hne by repeat constructor. done.
Qed.

End ExternalFacts.
